(** * Positional list over a sentinel-based doubly linked list

    A shallow embedding of [_DoublyLinkedListBase.py], [PositionalList.py]
    and the accessors of the linked [Deque.py], followed by the representation
    invariant of the node chain and the properties of the positional
    interface.

    Python objects live in a store: every [_Node] and every list instance
    has an identity (a location), attributes are read and written through
    the store, and [is] compares identities.  A method is a function from
    the store to the store after the call together with either the
    exception raised or the value returned; the store is threaded through
    an exception as well, so that what a failed call leaves behind can be
    stated. *)

From stdpp Require Import functions gmap strings list fin_maps.

Local Open Scope Z_scope.

(** Object identities. *)
Abbreviation loc := positive (only parsing).

(** ** Exceptions

    [TypeError] and [ValueError] carry their message.  [AttributeError] is
    what Python raises when an attribute of [None] is read or written.
    [Unallocated] is not a Python exception: it is the outcome of the model
    when an identity that was never allocated is dereferenced, which no
    Python reference can be. *)

Inductive exn : Type :=
  | TypeError (msg : string)
  | ValueError (msg : string)
  | AttributeError
  | Empty
  | Unallocated.

(** The class of an exception, which is what an [except] clause selects on. *)
Inductive exn_class : Type :=
  | ClsTypeError | ClsValueError | ClsAttributeError | ClsEmpty | ClsUnallocated.

Definition class_of (e : exn) : exn_class :=
  match e with
  | TypeError _ => ClsTypeError
  | ValueError _ => ClsValueError
  | AttributeError => ClsAttributeError
  | Empty => ClsEmpty
  | Unallocated => ClsUnallocated
  end.

Definition message_of (e : exn) : string :=
  match e with
  | TypeError msg | ValueError msg => msg
  | Empty => "Cannot perform operation on empty list"
  | AttributeError | Unallocated => ""
  end.

#[global] Instance exn_eq_dec : EqDecision exn.
Proof. solve_decision. Defined.

#[global] Instance exn_class_eq_dec : EqDecision exn_class.
Proof. solve_decision. Defined.

(** ** The store *)

Module Store.
Section Store.
Context {T : Type}.

(** [_DoublyLinkedListBase._Node]: three slots, each of which may hold
    [None].  The elements that clients store are the values of [T]
    (the annotation [element: T] of the inserting methods); [None] in the
    element slot is what a sentinel and an invalidated node hold.
    Python's own [None] passed as an element is not a value of [T]: the
    code does not tell it from the cleared slot. *)
Record _Node : Type := Node {
  _element : option T;
  _prev : option loc;
  _next : option loc
}.

(** The attributes of a [_DoublyLinkedListBase] object. *)
Record ListObj : Type := MkList {
  _header : loc;
  _trailer : loc;
  _size : Z
}.

(** The store: the nodes and the list objects that have been created,
    by identity.  Nothing is ever removed from it: a node that has left
    its chain stays where the Positions that refer to it can read it. *)
Record World : Type := Mk {
  nodes : gmap loc _Node;
  lists : gmap loc ListObj
}.

Definition empty_world : World := {| nodes := ∅; lists := ∅ |}.

(** A computation over the store that may raise. *)
Definition M (A : Type) : Type := World → World * (exn + A).

Definition ret {A} (a : A) : M A := λ w, (w, inr a).
Definition raise {A} (e : exn) : M A := λ w, (w, inl e).
Definition bind {A B} (k : A → M B) (m : M A) : M B :=
  λ w, match m w with
       | (w', inr a) => k a w'
       | (w', inl e) => (w', inl e)
       end.

#[global] Instance M_ret : MRet M := @ret.
#[global] Instance M_bind : MBind M := @bind.

(** Attribute access.  The receiver of a node attribute is an
    [Optional] reference. *)
Definition deref (o : option loc) : M loc :=
  match o with
  | Some a => ret a
  | None => raise AttributeError
  end.

Definition get_node (a : loc) : M _Node :=
  λ w, match nodes w !! a with
       | Some n => (w, inr n)
       | None => (w, inl Unallocated)
       end.

Definition put_node (a : loc) (n : _Node) : M unit :=
  λ w, ({| nodes := <[a := n]> (nodes w); lists := lists w |}, inr tt).

(** A new object gets an identity that no object of the store has. *)
Definition alloc_node (n : _Node) : M loc :=
  λ w, let a := fresh (dom (nodes w)) in
       ({| nodes := <[a := n]> (nodes w); lists := lists w |}, inr a).

Definition get_list (self : loc) : M ListObj :=
  λ w, match lists w !! self with
       | Some d => (w, inr d)
       | None => (w, inl Unallocated)
       end.

Definition put_list (self : loc) (d : ListObj) : M unit :=
  λ w, ({| nodes := nodes w; lists := <[self := d]> (lists w) |}, inr tt).

Definition alloc_list (d : ListObj) : M loc :=
  λ w, let a := fresh (dom (lists w)) in
       ({| nodes := nodes w; lists := <[a := d]> (lists w) |}, inr a).
End Store.
Arguments _Node : clear implicits.
Arguments World : clear implicits.
Arguments M : clear implicits.
End Store.
Export Store.

(** ** [_DoublyLinkedListBase] *)

Module _DoublyLinkedListBase.
Section Base.
Context {T : Type}.
Abbreviation M := (M T).

(** Writes to the slots of a node reached through an [Optional]
    reference. *)
Definition set_next (o : option loc) (v : option loc) : M unit :=
  a ← deref o; n ← get_node a;
  put_node a {| _element := _element n; _prev := _prev n; _next := v |}.

Definition set_prev (o : option loc) (v : option loc) : M unit :=
  a ← deref o; n ← get_node a;
  put_node a {| _element := _element n; _prev := v; _next := _next n |}.

(** [_Node.invalidate] *)
Definition invalidate (a : loc) : M unit :=
  _ ← get_node a;
  put_node a {| _element := None; _prev := None; _next := None |}.

(** [__init__]: two sentinels linked to each other, size 0. *)
Definition __init__ : M loc :=
  h ← alloc_node (Node None None None);
  t ← alloc_node (Node None None None);
  _ ← set_next (Some h) (Some t);
  _ ← set_prev (Some t) (Some h);
  alloc_list {| _header := h; _trailer := t; _size := 0 |}.

Definition __len__ (self : loc) : M Z :=
  d ← get_list self; ret (_size d).

Definition is_empty (self : loc) : M bool :=
  d ← get_list self; ret (bool_decide (_size d = 0)).

(** [self._size += k] *)
Definition add_size (self : loc) (k : Z) : M unit :=
  d ← get_list self;
  put_list self {| _header := _header d; _trailer := _trailer d;
                   _size := _size d + k |}.

(** [_insert_between]: the two neighbours are what the caller has read
    from a [_next] or [_prev] slot, or a node it holds. *)
Definition _insert_between (self : loc) (element : T)
    (predecessor successor : option loc) : M loc :=
  newest ← alloc_node (Node (Some element) predecessor successor);
  _ ← set_next predecessor (Some newest);
  _ ← set_prev successor (Some newest);
  _ ← add_size self 1;
  ret newest.

(** [_delete_node]: the check for emptiness comes first; the element is
    read after the node has been spliced out and before it is
    invalidated. *)
Definition _delete_node (self : loc) (node : loc) : M (option T) :=
  e ← is_empty self;
  if (e : bool) then raise Empty else
  n ← get_node node;
  let predecessor := _prev n in
  let successor := _next n in
  _ ← set_next predecessor successor;
  _ ← set_prev successor predecessor;
  _ ← add_size self (-1);
  n' ← get_node node;
  let element := _element n' in
  _ ← invalidate node;
  ret element.

(** [__iter__]: the generator run to exhaustion, collecting what it
    yields.  [fuel] bounds the number of turns of the loop. *)
Fixpoint iter_from (fuel : nat) (trailer : loc) (cursor : option loc)
    : M (option (list (option T))) :=
  match fuel with
  | O => ret None
  | S fuel' =>
      if decide (cursor = Some trailer) then ret (Some [])
      else
        a ← deref cursor; n ← get_node a;
        r ← iter_from fuel' trailer (_next n);
        ret (cons (_element n) <$> r)
  end.

Definition __iter__ (fuel : nat) (self : loc) : M (option (list (option T))) :=
  d ← get_list self;
  h ← get_node (_header d);
  iter_from fuel (_trailer d) (_next h).
End Base.
End _DoublyLinkedListBase.

(** ** [PositionalList] *)

Module PositionalList.
Section PositionalList.
Context {T : Type}.
Abbreviation M := (M T).

(** [PositionalList.Position]: the two slots are set by the constructor
    and never written afterwards, so a Position is modelled by its value.
    [_node] holds whatever [_make_position] was given, which Python does
    not prevent from being [None]. *)
Record Position : Type := Pos {
  _container : loc;
  _node : option loc
}.

#[global] Instance Position_eq_dec : EqDecision Position.
Proof. solve_decision. Defined.

(** What a caller may pass where a Position is expected: [None], an
    element, or a Position. *)
Inductive value : Type :=
  | VNone
  | VElem (e : T)
  | VPos (p : Position).

(** The result of [first], [last], [before], [after] and the [add_]
    methods, as the argument of a later call. *)
Definition of_result (r : option Position) : value :=
  match r with
  | Some p => VPos p
  | None => VNone
  end.

(** [Position.element] *)
Definition element (p : Position) : M (option T) :=
  a ← deref (_node p); n ← get_node a; mret (_element n).

(** [Position.__eq__] on two Positions. *)
Definition __eq__ (p q : Position) : bool := bool_decide (_node q = _node p).

Definition _validate (self : loc) (p : value) : M loc :=
  match p with
  | VPos p =>
      if decide (_container p = self) then
        a ← deref (_node p); n ← get_node a;
        match _next n with
        | None => raise (ValueError "p is no longer valid")
        | Some _ => mret a
        end
      else raise (ValueError "p does not belong to this container")
  | _ => raise (TypeError "p must be proper Position type")
  end.

Definition _make_position (self : loc) (node : option loc)
    : M (option Position) :=
  d ← get_list self;
  if decide (node = Some (_header d) ∨ node = Some (_trailer d))
  then mret None
  else mret (Some (Pos self node)).

Definition first (self : loc) : M (option Position) :=
  d ← get_list self; h ← get_node (_header d);
  _make_position self (_next h).

Definition last (self : loc) : M (option Position) :=
  d ← get_list self; t ← get_node (_trailer d);
  _make_position self (_prev t).

Definition before (self : loc) (p : value) : M (option Position) :=
  node ← _validate self p; n ← get_node node;
  _make_position self (_prev n).

Definition after (self : loc) (p : value) : M (option Position) :=
  node ← _validate self p; n ← get_node node;
  _make_position self (_next n).

(** The override of [_insert_between]: the node made by the base class,
    wrapped. *)
Definition _insert_between (self : loc) (element : T)
    (predecessor successor : option loc) : M (option Position) :=
  node ← _DoublyLinkedListBase._insert_between self element
           predecessor successor;
  _make_position self (Some node).

Definition add_first (self : loc) (element : T) : M (option Position) :=
  d ← get_list self; h ← get_node (_header d);
  _insert_between self element (Some (_header d)) (_next h).

Definition add_last (self : loc) (element : T) : M (option Position) :=
  d ← get_list self; t ← get_node (_trailer d);
  _insert_between self element (_prev t) (Some (_trailer d)).

Definition add_before (self : loc) (p : value) (element : T)
    : M (option Position) :=
  original ← _validate self p; n ← get_node original;
  _insert_between self element (_prev n) (Some original).

Definition add_after (self : loc) (p : value) (element : T)
    : M (option Position) :=
  original ← _validate self p; n ← get_node original;
  _insert_between self element (Some original) (_next n).

Definition delete (self : loc) (p : value) : M (option T) :=
  original ← _validate self p;
  _DoublyLinkedListBase._delete_node self original.

Definition replace (self : loc) (p : value) (element : T) : M (option T) :=
  original ← _validate self p; n ← get_node original;
  let old_value := _element n in
  _ ← put_node original
        {| _element := Some element; _prev := _prev n; _next := _next n |};
  mret old_value.

(** [__iter__]: the generator run to exhaustion, collecting what it
    yields; the cursor starts at [first()] and moves with [after].
    [fuel] bounds the number of tests of the loop condition. *)
Fixpoint iter_cursor (fuel : nat) (self : loc) (cursor : option Position)
    : M (option (list (option T))) :=
  match fuel with
  | O => mret None
  | S fuel' =>
      match cursor with
      | None => mret (Some [])
      | Some p =>
          x ← element p;
          cursor' ← after self (VPos p);
          r ← iter_cursor fuel' self cursor';
          mret (cons x <$> r)
      end
  end.

Definition __iter__ (fuel : nat) (self : loc)
    : M (option (list (option T))) :=
  cursor ← first self; iter_cursor fuel self cursor.
End PositionalList.
Arguments Position : clear implicits.
Arguments value : clear implicits.
End PositionalList.

(** ** The linked [Deque] *)

Module Deque.
Section Deque.
Context {T : Type}.
Abbreviation M := (M T).

Definition first (self : loc) : M (option T) :=
  e ← _DoublyLinkedListBase.is_empty self;
  if (e : bool) then raise Empty else
  d ← get_list self; h ← get_node (_header d);
  a ← deref (_next h); n ← get_node a; mret (_element n).

Definition last (self : loc) : M (option T) :=
  e ← _DoublyLinkedListBase.is_empty self;
  if (e : bool) then raise Empty else
  d ← get_list self; t ← get_node (_trailer d);
  a ← deref (_prev t); n ← get_node a; mret (_element n).

Definition insert_first (self : loc) (element : T) : M unit :=
  d ← get_list self; h ← get_node (_header d);
  _ ← _DoublyLinkedListBase._insert_between self element
        (Some (_header d)) (_next h);
  mret tt.

Definition insert_last (self : loc) (element : T) : M unit :=
  d ← get_list self; t ← get_node (_trailer d);
  _ ← _DoublyLinkedListBase._insert_between self element
        (_prev t) (Some (_trailer d));
  mret tt.

(** [delete_first] and [delete_last]: the node handed to [_delete_node]
    is what the sentinel's slot holds; were it [None], the first
    attribute read of [_delete_node] would raise. *)
Definition delete_first (self : loc) : M (option T) :=
  e ← _DoublyLinkedListBase.is_empty self;
  if (e : bool) then raise Empty else
  d ← get_list self; h ← get_node (_header d);
  a ← deref (_next h);
  _DoublyLinkedListBase._delete_node self a.

Definition delete_last (self : loc) : M (option T) :=
  e ← _DoublyLinkedListBase.is_empty self;
  if (e : bool) then raise Empty else
  d ← get_list self; t ← get_node (_trailer d);
  a ← deref (_prev t);
  _DoublyLinkedListBase._delete_node self a.
End Deque.
End Deque.

(** * Names of the positional list *)

Abbreviation Position := PositionalList.Position.
Abbreviation Pos := PositionalList.Pos.
Abbreviation _node := PositionalList._node.
Abbreviation _container := PositionalList._container.
Abbreviation value := PositionalList.value.
Abbreviation VNone := PositionalList.VNone.
Abbreviation VElem := PositionalList.VElem.
Abbreviation VPos := PositionalList.VPos.

(** * Clients of the public interface

    A client holds the lists it has constructed and the Positions it has
    been given, and calls the public methods with them.  A call may pass
    anything where a Position is expected, but the Positions it passes
    are ones that the interface has returned. *)

Section Client.
Context {T : Type}.
Implicit Types (w : World T) (c self : loc) (q : Position) (v : value T).

Inductive call : Type :=
  | CNew
  | CLen (self : loc)
  | CIsEmpty (self : loc)
  | CFirst (self : loc)
  | CLast (self : loc)
  | CBefore (self : loc) (p : value T)
  | CAfter (self : loc) (p : value T)
  | CAddFirst (self : loc) (e : T)
  | CAddLast (self : loc) (e : T)
  | CAddBefore (self : loc) (p : value T) (e : T)
  | CAddAfter (self : loc) (p : value T) (e : T)
  | CDelete (self : loc) (p : value T)
  | CReplace (self : loc) (p : value T) (e : T)
  | CElement (q : Position).

Inductive retval : Type :=
  | RList (l : loc)
  | RInt (z : Z)
  | RBool (b : bool)
  | RPos (o : option Position)
  | RElem (o : option T).

Definition exec (k : call) : M T retval :=
  match k with
  | CNew => l ← _DoublyLinkedListBase.__init__; mret (RList l)
  | CLen self => z ← _DoublyLinkedListBase.__len__ self; mret (RInt z)
  | CIsEmpty self => b ← _DoublyLinkedListBase.is_empty self; mret (RBool b)
  | CFirst self => o ← PositionalList.first self; mret (RPos o)
  | CLast self => o ← PositionalList.last self; mret (RPos o)
  | CBefore self p => o ← PositionalList.before self p; mret (RPos o)
  | CAfter self p => o ← PositionalList.after self p; mret (RPos o)
  | CAddFirst self e => o ← PositionalList.add_first self e; mret (RPos o)
  | CAddLast self e => o ← PositionalList.add_last self e; mret (RPos o)
  | CAddBefore self p e =>
      o ← PositionalList.add_before self p e; mret (RPos o)
  | CAddAfter self p e =>
      o ← PositionalList.add_after self p e; mret (RPos o)
  | CDelete self p => o ← PositionalList.delete self p; mret (RElem o)
  | CReplace self p e => o ← PositionalList.replace self p e; mret (RElem o)
  | CElement q => o ← PositionalList.element q; mret (RElem o)
  end.

(** The Positions a client learns from the outcome of a call. *)
Definition learnt (r : exn + retval) : list Position :=
  match r with
  | inr (RPos (Some q)) => [q]
  | _ => []
  end.

Definition value_known (ps : list Position) v : Prop :=
  match v with
  | PositionalList.VPos q => q ∈ ps
  | _ => True
  end.

Definition args_known (ps : list Position) (k : call) : Prop :=
  match k with
  | CBefore _ p | CAfter _ p | CAddBefore _ p _ | CAddAfter _ p _
  | CDelete _ p | CReplace _ p _ => value_known ps p
  | CElement q => q ∈ ps
  | _ => True
  end.

(** A configuration: the store, and the Positions handed out so far. *)
Definition config : Type := World T * list Position.

Definition event : Type := call * (exn + retval).

Inductive step : config → event → config → Prop :=
  | step_call w ps k w' r :
      args_known ps k → exec k w = (w', r) →
      step (w, ps) (k, r) (w', learnt r ++ ps).

Inductive steps : config → list event → config → Prop :=
  | steps_nil cfg : steps cfg [] cfg
  | steps_cons cfg ev cfg' tr cfg'' :
      step cfg ev cfg' → steps cfg' tr cfg'' → steps cfg (ev :: tr) cfg''.

Definition reachable (cfg : config) : Prop :=
  ∃ tr, steps (empty_world, []) tr cfg.

(** The number of insertions into [self] and of deletions from [self]
    that a trace has carried out. *)
Definition is_add (self : loc) (ev : event) : bool :=
  match ev with
  | (CAddFirst c _, inr _) | (CAddLast c _, inr _)
  | (CAddBefore c _ _, inr _) | (CAddAfter c _ _, inr _) =>
      bool_decide (c = self)
  | _ => false
  end.

Definition is_delete (self : loc) (ev : event) : bool :=
  match ev with
  | (CDelete c _, inr _) => bool_decide (c = self)
  | _ => false
  end.

Definition adds (self : loc) (tr : list event) : nat :=
  length (filter (λ ev, is_add self ev = true) tr).

Definition deletes (self : loc) (tr : list event) : nat :=
  length (filter (λ ev, is_delete self ev = true) tr).

End Client.

Arguments call : clear implicits.
Arguments retval : clear implicits.
Arguments event : clear implicits.
Arguments config : clear implicits.

(** * Specification

    The abstraction of a list instance is the sequence of the identities of
    its live nodes, in order from the header to the trailer.  The
    definitions of this section state the representation invariant of the
    store, the well-formedness of the Positions that have been handed out,
    and the outcome of the mutators. *)

Section Specification.
Context {T : Type}.
Implicit Types (w : World T) (h : gmap loc (_Node T)) (d : ListObj).
Implicit Types (a b c p t L : loc) (l ls : list loc) (σ : loc → list loc).
Implicit Types (q : Position) (v : value T) (ps : list Position).
Implicit Types (k : call T) (ev : event T) (cfg : config T).
Implicit Types (ks : list (call T)) (e : T) (err : exn).

(** The slots of a node of the store, read through its identity. *)
Definition nxt h a : option loc := n ← h !! a; _next n.

Definition prv h a : option loc := n ← h !! a; _prev n.

Definition elt h a : option T := n ← h !! a; _element n.

(** The last identity of [p :: l], and the first of [l ++ [t]]. *)
Fixpoint lastd p l : loc :=
  match l with
  | [] => p
  | a :: l' => lastd a l'
  end.

Definition headd l t : loc :=
  match l with
  | [] => t
  | a :: _ => a
  end.

(** [linked h p l]: starting from [p], the nodes of [l] follow one
    another, each pointing back at the one before it. *)
Fixpoint linked h p l : Prop :=
  match l with
  | [] => True
  | a :: l' => nxt h p = Some a ∧ prv h a = Some p ∧ linked h a l'
  end.

(** All the nodes of a list: header, live nodes, trailer. *)
Definition full d ls : list loc := _header d :: ls ++ [_trailer d].

(** A node after [_Node.invalidate]. *)
Definition dead : _Node T := Node None None None.

Record dll_inv h d ls : Prop := {
  inv_nodup : NoDup (full d ls);
  inv_linked : linked h (_header d) (ls ++ [_trailer d]);
  inv_prev_header : prv h (_header d) = None;
  inv_next_trailer : nxt h (_trailer d) = None;
  inv_elt_header : elt h (_header d) = None;
  inv_elt_trailer : elt h (_trailer d) = None;
  inv_elt_live : ∀ a, a ∈ ls → is_Some (elt h a);
  inv_size : _size d = Z.of_nat (length ls)
}.

(** [σ] gives the live nodes of every list of the store; the lists share
    no node. *)
Record wf_with σ w : Prop := {
  wf_lists : ∀ c d, lists w !! c = Some d → dll_inv (nodes w) d (σ c);
  wf_disj : ∀ c1 c2 d1 d2 a,
    c1 ≠ c2 → lists w !! c1 = Some d1 → lists w !! c2 = Some d2 →
    a ∈ full d1 (σ c1) → a ∈ full d2 (σ c2) → False
}.

Definition wf w : Prop := ∃ σ, wf_with σ w.

(** The store after [_insert_between]. *)
Definition inserted w c d (e : T) pred succ (np ns : _Node T) : World T :=
  let new := fresh (dom (nodes w)) in
  {| nodes :=
       <[succ := {| _element := _element ns; _prev := Some new;
                    _next := _next ns |}]>
       (<[pred := {| _element := _element np; _prev := _prev np;
                     _next := Some new |}]>
        (<[new := Node (Some e) (Some pred) (Some succ)]> (nodes w)));
     lists :=
       <[c := {| _header := _header d; _trailer := _trailer d;
                 _size := _size d + 1 |}]> (lists w) |}.

(** The store after [_delete_node]. *)
Definition deleted w c d a pred succ (np ns : _Node T) : World T :=
  {| nodes :=
       <[a := dead]>
       (<[succ := {| _element := _element ns; _prev := Some pred;
                     _next := _next ns |}]>
        (<[pred := {| _element := _element np; _prev := _prev np;
                      _next := Some succ |}]> (nodes w)));
     lists :=
       <[c := {| _header := _header d; _trailer := _trailer d;
                 _size := _size d + -1 |}]> (lists w) |}.

(** The store after [__init__]. *)
Definition initialised w : World T :=
  let hd := fresh (dom (nodes w)) in
  let tl := fresh (dom (<[hd := dead]> (nodes w))) in
  {| nodes :=
       <[tl := Node None (Some hd) None]>
       (<[hd := Node None None (Some tl)]>
        (<[tl := dead]> (<[hd := dead]> (nodes w))));
     lists :=
       <[fresh (dom (lists w)) :=
           {| _header := hd; _trailer := tl; _size := 0 |}]> (lists w) |}.

(** The store after the assignment of [replace]. *)
Definition replaced w a (n : _Node T) (e : T) : World T :=
  {| nodes :=
       <[a := {| _element := Some e; _prev := _prev n; _next := _next n |}]>
       (nodes w);
     lists := lists w |}.

(** What is known of a list split at a point of its chain. *)
Record split_at h d l1 l2 : Prop := {
  sp_nodup_l : NoDup (_header d :: l1);
  sp_nodup_r : NoDup (l2 ++ [_trailer d]);
  sp_disj : ∀ x, x ∈ _header d :: l1 → x ∈ l2 ++ [_trailer d] → False;
  sp_linked_l : linked h (_header d) l1;
  sp_linked_r : linked h (lastd (_header d) l1) (l2 ++ [_trailer d]);
  sp_pred : lastd (_header d) l1 ∈ _header d :: l1;
  sp_succ : headd l2 (_trailer d) ∈ l2 ++ [_trailer d]
}.

(** A Position handed out by a list refers either to a node that is
    still live in that list, or to a node that has been invalidated. *)
Definition pos_ok σ w q : Prop :=
  ∃ a, _node q = Some a ∧
    (nodes w !! a = Some dead ∨
     (is_Some (lists w !! _container q) ∧ a ∈ σ (_container q))).

(** What a mutation keeps: invalidated nodes stay invalidated, and
    Positions stay well formed. *)
Record extends σ w σ' w' : Prop := {
  ext_dead : ∀ x, nodes w !! x = Some dead → nodes w' !! x = Some dead;
  ext_pos : ∀ q, pos_ok σ w q → pos_ok σ' w' q
}.

(** The outcome of an insertion between [l1] and [l2]. *)
Definition insert_post σ w c d (e : T) l1 l2
    (r : World T * (exn + option Position)) : Prop :=
  let new := fresh (dom (nodes w)) in
  let σ' := <[c := l1 ++ new :: l2]> σ in
  r.2 = inr (Some (Pos c (Some new))) ∧
  wf_with σ' r.1 ∧ extends σ w σ' r.1 ∧
  lists r.1 = <[c := {| _header := _header d; _trailer := _trailer d;
                        _size := _size d + 1 |}]> (lists w) ∧
  nodes w !! new = None ∧ elt (nodes r.1) new = Some e.

(** The outcome of the deletion of [a], found between [l1] and [l2]. *)
Definition delete_post σ w c d l1 a l2
    (r : World T * (exn + option T)) : Prop :=
  let σ' := <[c := l1 ++ l2]> σ in
  ∃ n, nodes w !! a = Some n ∧ is_Some (_element n) ∧
    r.2 = inr (_element n) ∧
    wf_with σ' r.1 ∧ extends σ w σ' r.1 ∧
    lists r.1 = <[c := {| _header := _header d; _trailer := _trailer d;
                          _size := _size d + -1 |}]> (lists w) ∧
    nodes r.1 !! a = Some dead.

Definition value_ok σ w v : Prop := ∀ q, v = VPos q → pos_ok σ w q.

(** What a call does to the attributes of the lists that exist. *)
Definition size_law w w' ev : Prop :=
  ∀ c d, lists w !! c = Some d →
    ∃ d', lists w' !! c = Some d' ∧
      _header d' = _header d ∧ _trailer d' = _trailer d ∧
      _size d' = _size d + (if is_add c ev then 1 else 0)
                         - (if is_delete c ev then 1 else 0).

(** The invariant of a configuration. *)
Definition inv σ (cfg : config T) : Prop :=
  wf_with σ cfg.1 ∧ Forall (pos_ok σ cfg.1) cfg.2.

Definition preserved σ w k (res : World T * (exn + retval T)) : Prop :=
  ∃ σ', wf_with σ' res.1 ∧ extends σ w σ' res.1 ∧
    Forall (pos_ok σ' res.1) (learnt res.2) ∧ size_law w res.1 (k, res.2).

Definition after_call (k : call T) cfg : config T :=
  ((exec k cfg.1).1, learnt (exec k cfg.1).2 ++ cfg.2).

Fixpoint run ks cfg : config T :=
  match ks with
  | [] => cfg
  | k :: ks' => run ks' (after_call k cfg)
  end.

Fixpoint trace_of ks cfg : list (event T) :=
  match ks with
  | [] => []
  | k :: ks' => (k, (exec k cfg.1).2) :: trace_of ks' (after_call k cfg)
  end.

Fixpoint script_known ks cfg : Prop :=
  match ks with
  | [] => True
  | k :: ks' => args_known cfg.2 k ∧ script_known ks' (after_call k cfg)
  end.

(** The three ways in which an argument fails validation, with the error
    that [_validate] reports for each. *)
Definition fails_validation w L v err : Prop :=
  ((∀ q, v ≠ VPos q) ∧ err = TypeError "p must be proper Position type") ∨
  (∃ q, v = VPos q ∧ _container q ≠ L ∧
     err = ValueError "p does not belong to this container") ∨
  (∃ a n, v = VPos (Pos L (Some a)) ∧
     nodes w !! a = Some n ∧ _next n = None ∧
     err = ValueError "p is no longer valid").

(** A call has returned normally. *)
Definition returns {A} (res : World T * (exn + A)) : Prop :=
  ∃ r, res.2 = inr r.

(** [before(first())] and [after(last())]. *)
Definition before_first L : M T (option Position) :=
  o ← PositionalList.first L;
  PositionalList.before L (PositionalList.of_result o).

Definition after_last L : M T (option Position) :=
  o ← PositionalList.last L;
  PositionalList.after L (PositionalList.of_result o).

(** [xs] is what an iteration over [L] yields, once it is given the fuel
    to reach the end. *)
Definition yields (iter : nat → loc → M T (option (list (option T))))
    L w (xs : list (option T)) : Prop :=
  ∀ fuel, (length xs < fuel)%nat → iter fuel L w = (w, inr (Some xs)).

(** A mutation that leaves the element of every existing node alone. *)
Definition keeps_elements w w' : Prop :=
  ∀ x, is_Some (nodes w !! x) → elt (nodes w') x = elt (nodes w) x.

(** The list a call is made on. *)
Definition receiver (k : call T) : option loc :=
  match k with
  | CNew | CElement _ => None
  | CLen c | CIsEmpty c | CFirst c | CLast c | CBefore c _ | CAfter c _
  | CAddFirst c _ | CAddLast c _ | CAddBefore c _ _ | CAddAfter c _ _
  | CDelete c _ | CReplace c _ _ => Some c
  end.

(** The outcome [res] of an insertion of [e] into [L] is undone by
    [delete] on the Position it returned: the deletion returns [e] and
    the iteration yields [xs] again. *)
Definition undone_by_delete L xs (e : T)
    (res : World T * (exn + option Position)) : Prop :=
  ∃ q w2, res.2 = inr (Some q) ∧
    PositionalList.delete L (VPos q) res.1 = (w2, inr (Some e)) ∧
    yields PositionalList.__iter__ L w2 xs ∧
    _DoublyLinkedListBase.__len__ L w2 = (w2, inr (Z.of_nat (length xs))).

(** Clients of the deque: a run of insertions at one end, and a run of
    deletions at one end that collects what they return. *)
Fixpoint insert_all_last L (es : list T) : M T unit :=
  match es with
  | [] => mret tt
  | e :: es' => _ ← Deque.insert_last L e; insert_all_last L es'
  end.

Fixpoint insert_all_first L (es : list T) : M T unit :=
  match es with
  | [] => mret tt
  | e :: es' => _ ← Deque.insert_first L e; insert_all_first L es'
  end.

Fixpoint delete_first_n L (n : nat) : M T (list (option T)) :=
  match n with
  | O => mret []
  | S n' => x ← Deque.delete_first L; xs ← delete_first_n L n'; mret (x :: xs)
  end.

Fixpoint delete_last_n L (n : nat) : M T (list (option T)) :=
  match n with
  | O => mret []
  | S n' => x ← Deque.delete_last L; xs ← delete_last_n L n'; mret (x :: xs)
  end.
End Specification.

(** * Concrete lists of integers *)

Section Examples.
Local Open Scope positive_scope.

(** Two lists: the first holds 10 and 20, the second holds 7. *)
Definition demo_script : list (call Z) :=
  [CNew; CNew; CAddFirst 1 10%Z; CAddLast 1 20%Z; CAddFirst 2 7%Z].

Definition demo_world : World Z := (run demo_script (empty_world, [])).1.

Definition demo_known : list Position :=
  (run demo_script (empty_world, [])).2.

(** The Position of 10 in the first list and that of 7 in the second. *)
Definition pos10 : Position := Pos 1 (Some 5).

Definition pos7 : Position := Pos 2 (Some 7).

(** The store after [delete(pos10)] on the first list, and after a
    further [add_first(30)]. *)
Definition demo_deleted : World Z :=
  (PositionalList.delete 1 (VPos pos10) demo_world).1.

Definition demo_later : config Z :=
  run [CAddFirst 1 30%Z] (demo_deleted, demo_known).

Definition demo_later_trace : list (event Z) :=
  trace_of [CAddFirst 1 30%Z] (demo_deleted, demo_known).

(** A store with one empty list. *)
Definition empty_list_world : World Z :=
  (run [CNew] ((empty_world, []) : config Z)).1.

(** A third list is constructed in [demo_world]; two insertions, one
    deletion and a second deletion through the same, now stale, Position. *)
Definition third_list_script : list (call Z) :=
  [CAddFirst 3 1%Z; CAddLast 3 2%Z; CDelete 3 (VPos (Pos 3 (Some 10)));
   CDelete 3 (VPos (Pos 3 (Some 10)))].

Definition third_list_start : World Z :=
  (_DoublyLinkedListBase.__init__ demo_world).1.

(** A list that has held 10 and is empty again, and the Position the
    insertion of 10 returned. *)
Definition emptied_script : list (call Z) :=
  [CNew; CAddFirst 1 10%Z; CDelete 1 (VPos (Pos 1 (Some 3)))].

Definition emptied_world : World Z :=
  (run emptied_script (empty_world, [])).1.

Definition emptied_known : list Position :=
  (run emptied_script (empty_world, [])).2.

Definition emptied_pos : Position := Pos 1 (Some 3).

(** A deque that holds 10 and 20, filled from both ends. *)
Definition deque_world : World Z :=
  (Deque.insert_last 1 20%Z
     (Deque.insert_first 1 10%Z empty_list_world).1).1.
End Examples.

(** * Proofs *)

Ltac unfold_m :=
  unfold mbind, M_bind, bind, mret, M_ret, ret, raise, deref,
    get_node, put_node, alloc_node, get_list, put_list, alloc_list in *.

(** ** Chains of nodes *)

Section Chain.
Context {T : Type}.
Implicit Types (h : gmap loc (_Node T)) (a b p t : loc) (l : list loc).

Lemma nxt_insert h a (n : _Node T) b :
  nxt (<[a := n]> h) b = if decide (b = a) then _next n else nxt h b.
Proof.
  unfold nxt. case_decide as E.
  - subst b. by rewrite lookup_insert_eq.
  - by rewrite lookup_insert_ne.
Qed.

Lemma prv_insert h a (n : _Node T) b :
  prv (<[a := n]> h) b = if decide (b = a) then _prev n else prv h b.
Proof.
  unfold prv. case_decide as E.
  - subst b. by rewrite lookup_insert_eq.
  - by rewrite lookup_insert_ne.
Qed.

Lemma elt_insert h a (n : _Node T) b :
  elt (<[a := n]> h) b = if decide (b = a) then _element n else elt h b.
Proof.
  unfold elt. case_decide as E.
  - subst b. by rewrite lookup_insert_eq.
  - by rewrite lookup_insert_ne.
Qed.

Lemma nxt_Some_alloc h a b : nxt h a = Some b → is_Some (h !! a).
Proof. unfold nxt. destruct (h !! a); naive_solver. Qed.

Lemma prv_Some_alloc h a b : prv h a = Some b → is_Some (h !! a).
Proof. unfold prv. destruct (h !! a); naive_solver. Qed.

Lemma lastd_app p l1 l2 : lastd p (l1 ++ l2) = lastd (lastd p l1) l2.
Proof. revert p. induction l1 as [|a l1 IH]; intros p; simpl; auto. Qed.

Lemma lastd_snoc p l a : lastd p (l ++ [a]) = a.
Proof. by rewrite lastd_app. Qed.

Lemma lastd_elem p l : lastd p l ∈ p :: l.
Proof.
  revert p. induction l as [|a l IH]; intros p; simpl.
  - by apply list_elem_of_singleton.
  - apply elem_of_cons; right. apply IH.
Qed.

Lemma snoc_lastd a l : ∃ l1, a :: l = l1 ++ [lastd a l].
Proof.
  revert a. induction l as [|b l IH]; intros a.
  - by exists [].
  - destruct (IH b) as [l1 Hl1]. exists (a :: l1). simpl. by rewrite <- Hl1.
Qed.


Lemma headd_elem l t : headd l t ∈ l ++ [t].
Proof. destruct l; simpl; set_solver. Qed.


Lemma linked_app h p l1 l2 :
  linked h p (l1 ++ l2) ↔ linked h p l1 ∧ linked h (lastd p l1) l2.
Proof.
  revert p. induction l1 as [|a l1 IH]; intros p; simpl.
  - tauto.
  - rewrite IH. tauto.
Qed.

Lemma linked_alloc h p l a : linked h p l → a ∈ l → is_Some (h !! a).
Proof.
  revert p. induction l as [|b l IH]; intros p Hl Ha; [by inversion Ha|].
  destruct Hl as (_ & Hp & Hl).
  apply elem_of_cons in Ha as [->|Ha]; [by eapply prv_Some_alloc|eauto].
Qed.

(** A chain only depends on the [_next] slot of the nodes before its
    last one and on the [_prev] slot of the nodes after its first one. *)
Lemma linked_frame h h' p l :
  NoDup (p :: l) →
  (∀ a, a ∈ p :: l → a ≠ lastd p l → nxt h' a = nxt h a) →
  (∀ a, a ∈ l → prv h' a = prv h a) →
  linked h p l → linked h' p l.
Proof.
  revert p. induction l as [|b l IH]; intros p Hnd Hn Hp; simpl; [done|].
  intros (H1 & H2 & H3).
  apply NoDup_cons in Hnd as [Hpl Hnd].
  split_and!.
  - rewrite Hn; [done|set_solver|].
    intros E. apply Hpl. rewrite E. apply (lastd_elem b l).
  - rewrite Hp; [done|set_solver].
  - apply IH; [done| |intros; apply Hp; set_solver|done].
    intros a Ha Hne. apply Hn; [set_solver|done].
Qed.

Lemma linked_frame_all h h' p l :
  (∀ a, a ∈ p :: l → h' !! a = h !! a) → linked h p l → linked h' p l.
Proof.
  revert p. induction l as [|b l IH]; intros p Hag; simpl; [done|].
  intros (H1 & H2 & H3). unfold nxt, prv in *.
  rewrite !Hag by set_solver. split_and!; [done..|].
  apply IH; [|done]. intros; apply Hag; set_solver.
Qed.

End Chain.

(** * The representation invariant *)

Section Invariant.
Context {T : Type}.
Implicit Types (w : World T) (h : gmap loc (_Node T)) (d : ListObj).
Implicit Types (a b c p t : loc) (l ls : list loc) (σ : loc → list loc).

Lemma dll_inv_alloc h d ls a :
  dll_inv h d ls → a ∈ full d ls → is_Some (h !! a).
Proof.
  intros [_ Hl _ _ _ _ _ _] Ha. unfold full in Ha.
  apply elem_of_cons in Ha as [->|Ha].
  - destruct ls; simpl in Hl; destruct Hl as (Hl & _);
      by eapply nxt_Some_alloc.
  - by eapply linked_alloc.
Qed.

Lemma dll_inv_frame h h' d ls :
  (∀ a, a ∈ full d ls → h' !! a = h !! a) →
  dll_inv h d ls → dll_inv h' d ls.
Proof.
  intros Hag [H1 H2 H3 H4 H5 H6 H7 H8].
  assert (Hh : _header d ∈ full d ls) by (unfold full; set_solver).
  assert (Ht : _trailer d ∈ full d ls) by (unfold full; set_solver).
  split; try done.
  - by eapply linked_frame_all.
  - unfold prv in *. by rewrite Hag.
  - unfold nxt in *. by rewrite Hag.
  - unfold elt in *. by rewrite Hag.
  - unfold elt in *. by rewrite Hag.
  - intros a Ha. unfold elt in *. rewrite Hag; [by apply H7|].
    unfold full; set_solver.
Qed.

Lemma dll_inv_dead h d ls a : dll_inv h d ls → a ∈ full d ls → h !! a ≠ Some dead.
Proof.
  intros [_ Hl _ _ _ _ _ _] Ha Hd. unfold full in Ha.
  apply elem_of_cons in Ha as [->|Ha].
  - destruct ls; simpl in Hl; destruct Hl as (Hl & _);
      unfold nxt in Hl; rewrite Hd in Hl; done.
  - revert Hl. generalize (_header d). generalize dependent (ls ++ [_trailer d]).
    induction l as [|b l IH]; intros Ha q Hl; [by inversion Ha|].
    destruct Hl as (_ & Hp & Hl).
    apply elem_of_cons in Ha as [->|Ha]; [|eauto].
    unfold prv in Hp; rewrite Hd in Hp; done.
Qed.

End Invariant.

(** * Running the primitives of the base class *)

Section Primitives.
Context {T : Type}.
Implicit Types (w : World T) (h : gmap loc (_Node T)) (d : ListObj).
Implicit Types (a b c p t : loc) (l ls : list loc) (σ : loc → list loc).

Lemma fresh_node_ne w a (n : _Node T) :
  nodes w !! a = Some n → a ≠ fresh (dom (nodes w)).
Proof.
  intros Ha ->. pose proof (is_fresh (dom (nodes w))) as Hf.
  apply not_elem_of_dom in Hf. congruence.
Qed.

Lemma fresh_node_None w : nodes w !! fresh (dom (nodes w)) = None.
Proof. apply not_elem_of_dom, is_fresh. Qed.

Lemma insert_between_run w c d (e : T) pred succ np ns :
  lists w !! c = Some d →
  nodes w !! pred = Some np → nodes w !! succ = Some ns → pred ≠ succ →
  _DoublyLinkedListBase._insert_between c e (Some pred) (Some succ) w =
    (inserted w c d e pred succ np ns, inr (fresh (dom (nodes w)))).
Proof.
  intros Hc Hp Hs Hne.
  pose proof (fresh_node_ne _ _ _ Hp). pose proof (fresh_node_ne _ _ _ Hs).
  unfold _DoublyLinkedListBase._insert_between, _DoublyLinkedListBase.set_next,
    _DoublyLinkedListBase.set_prev, _DoublyLinkedListBase.add_size, inserted.
  unfold_m. simpl.
  rewrite lookup_insert_ne, Hp by done. simpl.
  rewrite lookup_insert_ne, lookup_insert_ne, Hs by done. simpl.
  by rewrite Hc.
Qed.

Lemma delete_node_run w c d a na pred succ np ns :
  lists w !! c = Some d → _size d ≠ 0 →
  nodes w !! a = Some na → _prev na = Some pred → _next na = Some succ →
  nodes w !! pred = Some np → nodes w !! succ = Some ns →
  pred ≠ succ → a ≠ pred → a ≠ succ →
  _DoublyLinkedListBase._delete_node c a w =
    (deleted w c d a pred succ np ns, inr (_element na)).
Proof.
  intros Hc Hsz Ha Hap Han Hp Hs Hne Hne1 Hne2.
  unfold _DoublyLinkedListBase._delete_node, _DoublyLinkedListBase.is_empty,
    _DoublyLinkedListBase.set_next, _DoublyLinkedListBase.set_prev,
    _DoublyLinkedListBase.add_size, _DoublyLinkedListBase.invalidate, deleted.
  unfold_m. simpl. rewrite Hc. simpl.
  rewrite bool_decide_eq_false_2 by done.
  rewrite Ha, Hap, Han. simpl. rewrite Hp. simpl.
  rewrite lookup_insert_ne, Hs by done. simpl. rewrite Hc. simpl.
  rewrite !lookup_insert_ne, Ha by done. simpl.
  rewrite !lookup_insert_ne, Ha by done. done.
Qed.

Lemma init_run w :
  _DoublyLinkedListBase.__init__ w =
    (initialised w, inr (fresh (dom (lists w)))).
Proof.
  unfold _DoublyLinkedListBase.__init__, _DoublyLinkedListBase.set_next,
    _DoublyLinkedListBase.set_prev, initialised.
  unfold_m. simpl.
  set (hd := fresh (dom (nodes w))).
  set (tl := fresh (dom (<[hd := Node None None None]> (nodes w)))).
  assert (hd ≠ tl).
  { intros E. pose proof (is_fresh (dom (<[hd := Node None None None]> (nodes w)))) as Hf.
    fold tl in Hf. rewrite <- E in Hf. apply Hf.
    apply elem_of_dom. rewrite lookup_insert_eq. eauto. }
  rewrite lookup_insert_ne, lookup_insert_eq by done. simpl.
  rewrite lookup_insert_ne, lookup_insert_eq by done. done.
Qed.

End Primitives.

(** * The primitives preserve the invariant *)

Section Preservation.
Context {T : Type}.
Implicit Types (w : World T) (h : gmap loc (_Node T)) (d : ListObj).
Implicit Types (a b c p t : loc) (l ls : list loc) (σ : loc → list loc).

Lemma full_split d l1 l2 :
  full d (l1 ++ l2) = (_header d :: l1) ++ (l2 ++ [_trailer d]).
Proof. unfold full. by rewrite <- app_assoc. Qed.

Lemma headd_tail l t : l ++ [t] = headd l t :: tail (l ++ [t]).
Proof. by destruct l. Qed.

Lemma full_insert_elem d l1 l2 b x :
  x ∈ full d (l1 ++ b :: l2) ↔ x = b ∨ x ∈ full d (l1 ++ l2).
Proof.
  unfold full. set_solver.
Qed.

Lemma dll_inv_split h d l1 l2 :
  dll_inv h d (l1 ++ l2) → split_at h d l1 l2.
Proof.
  intros [Hnd Hl _ _ _ _ _ _].
  rewrite full_split in Hnd. apply NoDup_app in Hnd as (H1 & H2 & H3).
  rewrite <- app_assoc in Hl. apply linked_app in Hl as [Hl1 Hl2].
  split; [done|done| |done|done|apply lastd_elem|apply headd_elem].
  intros x Hx Hx'. by eapply H2.
Qed.

Lemma split_at_links h d l1 l2 :
  split_at h d l1 l2 →
  nxt h (lastd (_header d) l1) = Some (headd l2 (_trailer d)) ∧
  prv h (headd l2 (_trailer d)) = Some (lastd (_header d) l1) ∧
  lastd (_header d) l1 ≠ headd l2 (_trailer d).
Proof.
  intros [H1 H2 H3 H4 H5 H6 H7].
  rewrite headd_tail in H5. destruct H5 as (Hn & Hp & _).
  split_and!; [done..|]. intros E. eapply H3; [exact H6|]. by rewrite E.
Qed.

Lemma inserted_wf σ w c d (e : T) l1 l2 np ns :
  wf_with σ w → lists w !! c = Some d → σ c = l1 ++ l2 →
  nodes w !! lastd (_header d) l1 = Some np →
  nodes w !! headd l2 (_trailer d) = Some ns →
  wf_with (<[c := l1 ++ fresh (dom (nodes w)) :: l2]> σ)
    (inserted w c d e (lastd (_header d) l1) (headd l2 (_trailer d)) np ns).
Proof.
  intros [Hl Hd] Hc Hσ Hnp Hns.
  pose proof (Hl _ _ Hc) as Hinv. rewrite Hσ in Hinv.
  pose proof (dll_inv_split _ _ _ _ Hinv) as Hsp.
  pose proof (split_at_links _ _ _ _ Hsp) as (Hpn & Hsp' & Hne).
  destruct Hsp as [N1 N2 N3 L1 L2 Ipred Isucc].
  set (pred := lastd (_header d) l1) in *.
  set (succ := headd l2 (_trailer d)) in *.
  set (new := fresh (dom (nodes w))).
  set (h := nodes w) in *.
  set (h' := nodes (inserted w c d e pred succ np ns)).
  assert (Hfresh : ∀ x, is_Some (h !! x) → x ≠ new).
  { intros x [n Hx]. by eapply fresh_node_ne. }
  assert (Hfull : ∀ x, x ∈ full d (l1 ++ l2) → x ≠ new).
  { intros x Hx. apply Hfresh. by eapply dll_inv_alloc. }
  assert (Hnew_p : new ≠ pred) by (symmetry; apply Hfresh; eauto).
  assert (Hnew_s : new ≠ succ) by (symmetry; apply Hfresh; eauto).
  assert (Hn1 : nxt h' pred = Some new).
  { unfold h', inserted; simpl. rewrite !nxt_insert.
    repeat case_decide; try done. }
  assert (Hn2 : nxt h' new = Some succ).
  { unfold h', inserted; simpl. rewrite !nxt_insert.
    repeat case_decide; try done. }
  assert (Hn3 : ∀ x, x ≠ pred → x ≠ new → nxt h' x = nxt h x).
  { intros x ??. unfold h', inserted; simpl. rewrite !nxt_insert.
    repeat case_decide; try done. subst x. unfold nxt. by rewrite Hns. }
  assert (Hp1 : prv h' succ = Some new).
  { unfold h', inserted; simpl. rewrite !prv_insert.
    repeat case_decide; try done. }
  assert (Hp2 : prv h' new = Some pred).
  { unfold h', inserted; simpl. rewrite !prv_insert.
    repeat case_decide; try done. }
  assert (Hp3 : ∀ x, x ≠ succ → x ≠ new → prv h' x = prv h x).
  { intros x ??. unfold h', inserted; simpl. rewrite !prv_insert.
    repeat case_decide; try done. subst x. unfold prv. by rewrite Hnp. }
  assert (He1 : elt h' new = Some e).
  { unfold h', inserted; simpl. rewrite !elt_insert.
    repeat case_decide; try done. }
  assert (He3 : ∀ x, x ≠ new → elt h' x = elt h x).
  { intros x ?. unfold h', inserted; simpl. rewrite !elt_insert.
    repeat case_decide; try done; subst x; unfold elt.
    - by rewrite Hns.
    - by rewrite Hnp. }
  assert (Hother : ∀ x, x ≠ pred → x ≠ succ → x ≠ new → h' !! x = h !! x).
  { intros x ???. unfold h', inserted; simpl.
    by rewrite !lookup_insert_ne. }
  assert (Hhd : _header d ∈ full d (l1 ++ l2)) by (unfold full; set_solver).
  assert (Htl : _trailer d ∈ full d (l1 ++ l2)) by (unfold full; set_solver).
  assert (HL : ∀ x, x ∈ _header d :: l1 → x ∈ full d (l1 ++ l2)).
  { intros x Hx. rewrite full_split. set_solver. }
  assert (HR : ∀ x, x ∈ l2 ++ [_trailer d] → x ∈ full d (l1 ++ l2)).
  { intros x Hx. rewrite full_split. set_solver. }
  assert (Hinv' : dll_inv h'
    {| _header := _header d; _trailer := _trailer d; _size := _size d + 1 |}
    (l1 ++ new :: l2)).
  { destruct Hinv as [I1 I2 I3 I4 I5 I6 I7 I8].
    split; simpl.
    - unfold full; simpl. rewrite <- app_assoc; simpl.
      rewrite app_comm_cons, <- Permutation_middle.
      apply NoDup_cons. split.
      + intros Hin. apply (Hfull new); [|done]. by rewrite full_split.
      + by rewrite <- full_split.
    - rewrite <- app_assoc; simpl. apply linked_app. split.
      + apply (linked_frame h); [done| | |done].
        * intros a Ha Hne'. apply Hn3; [done|]. by apply Hfull, HL.
        * intros a Ha. apply Hp3; [|apply Hfull, HL; set_solver].
          intros ->. eapply N3; [|exact Isucc]. set_solver.
      + fold pred. simpl. split_and!; [done..|].
        rewrite headd_tail. fold succ. simpl. split_and!; [done..|].
        rewrite headd_tail in L2, N2. fold succ in L2, N2.
        destruct L2 as (_ & _ & L2).
        apply (linked_frame h); [done| | |done].
        * intros a Ha _. apply Hn3.
          -- intros ->. eapply N3; [exact Ipred|].
             rewrite headd_tail. by fold succ.
          -- apply Hfull, HR. rewrite headd_tail. by fold succ.
        * intros a Ha. apply Hp3.
          -- intros ->. by apply NoDup_cons in N2 as [N2 _].
          -- apply Hfull, HR. rewrite headd_tail. fold succ. set_solver.
    - rewrite Hp3; [done| |by apply Hfull].
      intros E. eapply N3; [|exact Isucc]. rewrite <- E. set_solver.
    - rewrite Hn3; [done| |by apply Hfull].
      intros E. eapply N3; [exact Ipred|]. rewrite <- E. set_solver.
    - rewrite He3; [done|by apply Hfull].
    - rewrite He3; [done|by apply Hfull].
    - intros a Ha. destruct (decide (a = new)) as [->|Hna].
      + by rewrite He1.
      + rewrite He3 by done. apply I7. set_solver.
    - rewrite I8, !length_app. simpl. lia. }
  split.
  - intros c' d' Hc'. simpl in Hc'. destruct (decide (c' = c)) as [->|Hcc].
    + rewrite fn_lookup_insert. rewrite lookup_insert_eq in Hc'.
      by injection Hc' as <-.
    + rewrite fn_lookup_insert_ne by done.
      rewrite lookup_insert_ne in Hc' by done.
      apply (dll_inv_frame h); [|by apply Hl].
      intros a Ha. apply Hother.
      * intros ->. eapply (Hd c c'); [done..|by rewrite Hσ; apply HL|done].
      * intros ->. eapply (Hd c c'); [done..|by rewrite Hσ; apply HR|done].
      * apply Hfresh. eapply dll_inv_alloc; [by apply Hl|done].
  - intros c1 c2 d1 d2 a Hne12 H1 H2 Ha1 Ha2. simpl in H1, H2.
    destruct (decide (c1 = c)) as [->|Hc1], (decide (c2 = c)) as [->|Hc2];
      [done| | |].
    + rewrite lookup_insert_eq in H1. rewrite lookup_insert_ne in H2 by done.
      injection H1 as <-. rewrite fn_lookup_insert in Ha1.
      rewrite fn_lookup_insert_ne in Ha2 by done.
      apply (full_insert_elem d) in Ha1 as [->|Ha1].
      * eapply (Hfresh new); [|done]. eapply dll_inv_alloc; [by apply Hl|done].
      * eapply (Hd c c2); [done..|by rewrite Hσ|done].
    + rewrite lookup_insert_eq in H2. rewrite lookup_insert_ne in H1 by done.
      injection H2 as <-. rewrite fn_lookup_insert in Ha2.
      rewrite fn_lookup_insert_ne in Ha1 by done.
      apply (full_insert_elem d) in Ha2 as [->|Ha2].
      * eapply (Hfresh new); [|done]. eapply dll_inv_alloc; [by apply Hl|done].
      * eapply (Hd c1 c); [done..|by rewrite Hσ].
    + rewrite lookup_insert_ne in H1, H2 by done.
      rewrite fn_lookup_insert_ne in Ha1, Ha2 by done.
      by eapply (Hd c1 c2).
Qed.

Lemma deleted_wf σ w c d l1 a l2 np ns :
  wf_with σ w → lists w !! c = Some d → σ c = l1 ++ a :: l2 →
  nodes w !! lastd (_header d) l1 = Some np →
  nodes w !! headd l2 (_trailer d) = Some ns →
  wf_with (<[c := l1 ++ l2]> σ)
    (deleted w c d a (lastd (_header d) l1) (headd l2 (_trailer d)) np ns).
Proof.
  intros [Hl Hd] Hc Hσ Hnp Hns.
  pose proof (Hl _ _ Hc) as Hinv. rewrite Hσ in Hinv.
  destruct (dll_inv_split _ _ _ _ Hinv) as [N1 N2 N3 L1 L2 Ipred _].
  simpl in L2. destruct L2 as (_ & _ & L2).
  rewrite headd_tail in L2. destruct L2 as (_ & _ & L2).
  set (pred := lastd (_header d) l1) in *.
  set (succ := headd l2 (_trailer d)) in *.
  set (h := nodes w) in *.
  set (h' := nodes (deleted w c d a pred succ np ns)).
  assert (Isucc : succ ∈ l2 ++ [_trailer d]) by apply headd_elem.
  assert (N2' : NoDup (l2 ++ [_trailer d])).
  { simpl in N2. by apply NoDup_cons in N2 as [_ N2]. }
  assert (Ha_r : a ∉ l2 ++ [_trailer d]).
  { simpl in N2. by apply NoDup_cons in N2 as [N2 _]. }
  assert (Ha_l : a ∉ _header d :: l1).
  { intros Ha. eapply N3; [exact Ha|]. set_solver. }
  assert (N3' : ∀ x, x ∈ _header d :: l1 → x ∈ l2 ++ [_trailer d] → False).
  { intros x Hx Hx'. eapply N3; [exact Hx|]. set_solver. }
  assert (Hne : pred ≠ succ).
  { intros E. eapply N3'; [exact Ipred|]. by rewrite E. }
  assert (Hap : a ≠ pred) by (intros ->; done).
  assert (Has : a ≠ succ) by (intros ->; done).
  assert (Hn1 : nxt h' pred = Some succ).
  { unfold h', deleted; simpl. rewrite !nxt_insert.
    repeat case_decide; try done. }
  assert (Hn3 : ∀ x, x ≠ pred → x ≠ a → nxt h' x = nxt h x).
  { intros x ??. unfold h', deleted; simpl. rewrite !nxt_insert.
    repeat case_decide; try done. subst x. unfold nxt. by rewrite Hns. }
  assert (Hp1 : prv h' succ = Some pred).
  { unfold h', deleted; simpl. rewrite !prv_insert.
    repeat case_decide; try done. }
  assert (Hp3 : ∀ x, x ≠ succ → x ≠ a → prv h' x = prv h x).
  { intros x ??. unfold h', deleted; simpl. rewrite !prv_insert.
    repeat case_decide; try done. subst x. unfold prv. by rewrite Hnp. }
  assert (He3 : ∀ x, x ≠ a → elt h' x = elt h x).
  { intros x ?. unfold h', deleted; simpl. rewrite !elt_insert.
    repeat case_decide; try done; subst x; unfold elt.
    - by rewrite Hns.
    - by rewrite Hnp. }
  assert (Hother : ∀ x, x ≠ pred → x ≠ succ → x ≠ a → h' !! x = h !! x).
  { intros x ???. unfold h', deleted; simpl.
    by rewrite !lookup_insert_ne. }
  assert (Hsub : ∀ x, x ∈ full d (l1 ++ l2) → x ∈ full d (l1 ++ a :: l2)).
  { intros x Hx. apply full_insert_elem. by right. }
  assert (HL : ∀ x, x ∈ _header d :: l1 → x ∈ full d (l1 ++ l2)).
  { intros x Hx. rewrite full_split. set_solver. }
  assert (HR : ∀ x, x ∈ l2 ++ [_trailer d] → x ∈ full d (l1 ++ l2)).
  { intros x Hx. rewrite full_split. set_solver. }
  assert (Hhd : _header d ≠ a) by (intros <-; apply Ha_l; set_solver).
  assert (Htl : _trailer d ≠ a) by (intros <-; apply Ha_r; set_solver).
  assert (Hinv' : dll_inv h'
    {| _header := _header d; _trailer := _trailer d; _size := _size d + -1 |}
    (l1 ++ l2)).
  { destruct Hinv as [I1 I2 I3 I4 I5 I6 I7 I8].
    split; simpl.
    - unfold full in I1; simpl in I1. rewrite <- app_assoc in I1; simpl in I1.
      rewrite app_comm_cons, <- Permutation_middle in I1.
      apply NoDup_cons in I1 as [_ I1]. by rewrite full_split.
    - rewrite <- app_assoc. apply linked_app. split.
      + apply (linked_frame h); [done| | |done].
        * intros x Hx Hne'. apply Hn3; [done|]. by intros ->.
        * intros x Hx. apply Hp3.
          -- intros ->. eapply N3'; [|exact Isucc]. set_solver.
          -- intros ->. apply Ha_l. set_solver.
      + fold pred. rewrite headd_tail. fold succ. simpl.
        split_and!; [done..|].
        rewrite headd_tail in N2'. fold succ in N2'.
        apply (linked_frame h); [done| | |done].
        * intros x Hx _. apply Hn3.
          -- intros ->. eapply N3'; [exact Ipred|].
             rewrite headd_tail. by fold succ.
          -- intros ->. apply Ha_r. rewrite headd_tail. by fold succ.
        * intros x Hx. apply Hp3.
          -- intros ->. by apply NoDup_cons in N2' as [N2' _].
          -- intros ->. apply Ha_r. rewrite headd_tail. fold succ. set_solver.
    - rewrite Hp3; [done| |done].
      intros E. eapply N3'; [|exact Isucc]. rewrite <- E. set_solver.
    - rewrite Hn3; [done| |done].
      intros E. eapply N3'; [exact Ipred|]. rewrite <- E. set_solver.
    - by rewrite He3.
    - by rewrite He3.
    - intros x Hx. rewrite He3; [apply I7; set_solver|].
      intros ->. apply elem_of_app in Hx as [Hx|Hx].
      + apply Ha_l. set_solver.
      + apply Ha_r. set_solver.
    - rewrite I8, !length_app. simpl. lia. }
  split.
  - intros c' d' Hc'. simpl in Hc'. destruct (decide (c' = c)) as [->|Hcc].
    + rewrite fn_lookup_insert. rewrite lookup_insert_eq in Hc'.
      by injection Hc' as <-.
    + rewrite fn_lookup_insert_ne by done.
      rewrite lookup_insert_ne in Hc' by done.
      apply (dll_inv_frame h); [|by apply Hl].
      intros x Hx. apply Hother.
      * intros ->. eapply (Hd c c'); [done..| |done].
        rewrite Hσ. by apply Hsub, HL.
      * intros ->. eapply (Hd c c'); [done..| |done].
        rewrite Hσ. by apply Hsub, HR.
      * intros ->. eapply (Hd c c'); [done..| |done].
        rewrite Hσ. apply full_insert_elem. by left.
  - intros c1 c2 d1 d2 x Hne12 H1 H2 Hx1 Hx2. simpl in H1, H2.
    destruct (decide (c1 = c)) as [->|Hc1], (decide (c2 = c)) as [->|Hc2];
      [done| | |].
    + rewrite lookup_insert_eq in H1. rewrite lookup_insert_ne in H2 by done.
      injection H1 as <-. rewrite fn_lookup_insert in Hx1.
      rewrite fn_lookup_insert_ne in Hx2 by done.
      eapply (Hd c c2); [done..| |done]. rewrite Hσ. by apply Hsub.
    + rewrite lookup_insert_eq in H2. rewrite lookup_insert_ne in H1 by done.
      injection H2 as <-. rewrite fn_lookup_insert in Hx2.
      rewrite fn_lookup_insert_ne in Hx1 by done.
      eapply (Hd c1 c); [done..|]. rewrite Hσ. by apply Hsub.
    + rewrite lookup_insert_ne in H1, H2 by done.
      rewrite fn_lookup_insert_ne in Hx1, Hx2 by done.
      by eapply (Hd c1 c2).
Qed.

Lemma linked_ext h h' p l :
  (∀ x, nxt h' x = nxt h x) → (∀ x, prv h' x = prv h x) →
  linked h p l → linked h' p l.
Proof.
  intros Hn Hp. revert p. induction l as [|b l IH]; intros p; simpl; [done|].
  rewrite Hn, Hp. naive_solver.
Qed.

Lemma initialised_wf σ w :
  wf_with σ w → wf_with (<[fresh (dom (lists w)) := []]> σ) (initialised w).
Proof.
  intros [Hl Hd].
  set (c := fresh (dom (lists w))).
  set (hd := fresh (dom (nodes w))).
  set (tl := fresh (dom (<[hd := dead]> (nodes w)))).
  set (h := nodes w) in *.
  set (h' := nodes (initialised w)).
  assert (Hc : lists w !! c = None) by apply not_elem_of_dom, is_fresh.
  assert (Hhd : h !! hd = None) by apply not_elem_of_dom, is_fresh.
  assert (Htl : (<[hd := dead]> h) !! tl = None) by apply not_elem_of_dom, is_fresh.
  assert (Hne : tl ≠ hd).
  { intros E. rewrite E, lookup_insert_eq in Htl. done. }
  rewrite lookup_insert_ne in Htl by done.
  assert (Hother : ∀ x, is_Some (h !! x) → h' !! x = h !! x).
  { intros x [n Hx]. unfold h', initialised; simpl. fold hd tl h.
    assert (x ≠ hd) by (intros ->; congruence).
    assert (x ≠ tl) by (intros ->; congruence).
    by rewrite !lookup_insert_ne. }
  assert (Hinv' : dll_inv h' {| _header := hd; _trailer := tl; _size := 0 |} []).
  { split; simpl; unfold h', initialised; simpl; fold hd tl h;
      rewrite ?nxt_insert, ?prv_insert, ?elt_insert;
      repeat case_decide; try done.
    - unfold full; simpl. apply NoDup_cons. split; [set_solver|].
      apply NoDup_singleton.
    - intros a Ha. by inversion Ha. }
  split.
  - intros c' d' Hc'. simpl in Hc'. fold c in Hc'.
    destruct (decide (c' = c)) as [->|Hcc].
    + rewrite fn_lookup_insert. rewrite lookup_insert_eq in Hc'.
      by injection Hc' as <-.
    + rewrite fn_lookup_insert_ne by done.
      rewrite lookup_insert_ne in Hc' by done.
      apply (dll_inv_frame h); [|by apply Hl].
      intros a Ha. apply Hother. eapply dll_inv_alloc; [by apply Hl|done].
  - intros c1 c2 d1 d2 a Hne12 H1 H2 Ha1 Ha2. simpl in H1, H2.
    fold c hd tl in H1, H2.
    assert (Hnew : ∀ c' d', lists w !! c' = Some d' →
              a ∈ full d' (σ c') → a ∈ [hd; tl] → False).
    { intros c' d' Hc' Hin Hin'.
      destruct (dll_inv_alloc _ _ _ _ (Hl _ _ Hc') Hin) as [n Hn].
      apply elem_of_cons in Hin' as [->|Hin']; [congruence|].
      apply list_elem_of_singleton in Hin' as ->. congruence. }
    destruct (decide (c1 = c)) as [->|Hc1], (decide (c2 = c)) as [->|Hc2];
      [done| | |].
    + rewrite lookup_insert_eq in H1. rewrite lookup_insert_ne in H2 by done.
      injection H1 as <-. rewrite fn_lookup_insert in Ha1.
      rewrite fn_lookup_insert_ne in Ha2 by done. by eapply Hnew.
    + rewrite lookup_insert_eq in H2. rewrite lookup_insert_ne in H1 by done.
      injection H2 as <-. rewrite fn_lookup_insert in Ha2.
      rewrite fn_lookup_insert_ne in Ha1 by done. by eapply Hnew.
    + rewrite lookup_insert_ne in H1, H2 by done.
      rewrite fn_lookup_insert_ne in Ha1, Ha2 by done.
      by eapply (Hd c1 c2).
Qed.

Lemma replaced_wf σ w c d a n (e : T) :
  wf_with σ w → lists w !! c = Some d → a ∈ σ c → nodes w !! a = Some n →
  wf_with σ (replaced w a n e).
Proof.
  intros [Hl Hd] Hc Ha Hn.
  set (h := nodes w) in *. set (h' := nodes (replaced w a n e)).
  assert (Hnx : ∀ x, nxt h' x = nxt h x).
  { intros x. unfold h', replaced; simpl. rewrite nxt_insert.
    case_decide; [subst; unfold nxt; by rewrite Hn|done]. }
  assert (Hpx : ∀ x, prv h' x = prv h x).
  { intros x. unfold h', replaced; simpl. rewrite prv_insert.
    case_decide; [subst; unfold prv; by rewrite Hn|done]. }
  assert (Hex : ∀ x, x ≠ a → elt h' x = elt h x).
  { intros x ?. unfold h', replaced; simpl. rewrite elt_insert.
    by case_decide. }
  assert (Hea : elt h' a = Some e).
  { unfold h', replaced; simpl. rewrite elt_insert. by case_decide. }
  split; [|done].
  intros c' d' Hc'. simpl in Hc'.
  destruct (Hl _ _ Hc') as [I1 I2 I3 I4 I5 I6 I7 I8].
  assert (Hsent : a ∈ σ c' → _header d' ≠ a ∧ _trailer d' ≠ a).
  { intros Hin. unfold full in I1. apply NoDup_cons in I1 as [I1 I1'].
    apply NoDup_app in I1' as (_ & I1' & _).
    split; intros <-; [set_solver|]. eapply I1'; [done|set_solver]. }
  assert (Hsent' : _header d' ≠ a ∧ _trailer d' ≠ a).
  { destruct (decide (c' = c)) as [->|Hcc]; [by apply Hsent|].
    split; intros E.
    - apply (Hd c' c d' d a); [done..| |]; unfold full; set_solver.
    - apply (Hd c' c d' d a); [done..| |]; unfold full; set_solver. }
  destruct Hsent' as [Hs1 Hs2].
  split; try done.
  - by eapply linked_ext.
  - by rewrite Hpx.
  - by rewrite Hnx.
  - by rewrite Hex.
  - by rewrite Hex.
  - intros x Hx. fold h'. destruct (decide (x = a)) as [->|Hxa].
    + by rewrite Hea.
    + rewrite Hex by done. by apply I7.
Qed.

End Preservation.

(** * Positions across mutations *)

Section Positions.
Context {T : Type}.
Implicit Types (w : World T) (h : gmap loc (_Node T)) (d : ListObj).
Implicit Types (a b c p t : loc) (l ls : list loc) (σ : loc → list loc).
Implicit Types (q : Position).

Lemma extends_refl σ w : extends σ w σ w.
Proof. by split. Qed.

Lemma extends_trans σ1 w1 σ2 w2 σ3 w3 :
  extends σ1 w1 σ2 w2 → extends σ2 w2 σ3 w3 → extends σ1 w1 σ3 w3.
Proof. intros [H1 H2] [H3 H4]. split; eauto. Qed.

Lemma wf_dead_not_full σ w c d x :
  wf_with σ w → lists w !! c = Some d → nodes w !! x = Some dead →
  x ∉ full d (σ c).
Proof.
  intros [Hl _] Hc Hx Hin. by eapply dll_inv_dead; [apply Hl| |].
Qed.

Lemma inserted_extends σ w c d (e : T) l1 l2 np ns :
  wf_with σ w → lists w !! c = Some d → σ c = l1 ++ l2 →
  extends σ w (<[c := l1 ++ fresh (dom (nodes w)) :: l2]> σ)
    (inserted w c d e (lastd (_header d) l1) (headd l2 (_trailer d)) np ns).
Proof.
  intros Hwf Hc Hσ.
  assert (Hdead : ∀ x, nodes w !! x = Some dead →
    nodes (inserted w c d e (lastd (_header d) l1)
             (headd l2 (_trailer d)) np ns) !! x = Some dead).
  { intros x Hx. pose proof (wf_dead_not_full _ _ _ _ _ Hwf Hc Hx) as Hnin.
    rewrite Hσ, full_split in Hnin. apply not_elem_of_app in Hnin as [N1 N2].
    unfold inserted; simpl. rewrite !lookup_insert_ne; [done|..].
    - intros <-. by eapply fresh_node_ne.
    - intros <-. apply N1, lastd_elem.
    - intros <-. apply N2, headd_elem. }
  split; [done|].
  intros q (a & Hq & [Ha|[Hcq Ha]]); exists a; (split; [done|]); [left; eauto|].
  right. split.
  - unfold inserted; simpl. by apply lookup_insert_is_Some'; right.
  - destruct (decide (_container q = c)) as [E|E].
    + rewrite E, fn_lookup_insert. rewrite E, Hσ in Ha. set_solver.
    + by rewrite fn_lookup_insert_ne.
Qed.

Lemma deleted_extends σ w c d l1 a l2 np ns :
  wf_with σ w → lists w !! c = Some d → σ c = l1 ++ a :: l2 →
  extends σ w (<[c := l1 ++ l2]> σ)
    (deleted w c d a (lastd (_header d) l1) (headd l2 (_trailer d)) np ns).
Proof.
  intros Hwf Hc Hσ.
  assert (Hdead : ∀ x, nodes w !! x = Some dead →
    nodes (deleted w c d a (lastd (_header d) l1)
             (headd l2 (_trailer d)) np ns) !! x = Some dead).
  { intros x Hx. pose proof (wf_dead_not_full _ _ _ _ _ Hwf Hc Hx) as Hnin.
    rewrite Hσ, full_split in Hnin. apply not_elem_of_app in Hnin as [N1 N2].
    unfold deleted; simpl.
    destruct (decide (x = a)) as [->|Hxa]; [by rewrite lookup_insert_eq|].
    rewrite !lookup_insert_ne; [done|..|done].
    - intros <-. apply N1, lastd_elem.
    - intros <-. apply N2. apply elem_of_cons; right. apply headd_elem. }
  split; [done|].
  intros q (x & Hq & [Hx|[Hcq Hx]]); exists x; (split; [done|]); [left; eauto|].
  destruct (decide (_container q = c)) as [E|E].
  - rewrite E, Hσ in Hx. destruct (decide (x = a)) as [->|Hxa].
    + left. unfold deleted; simpl. by rewrite lookup_insert_eq.
    + right. split.
      * unfold deleted; simpl. by apply lookup_insert_is_Some'; right.
      * rewrite E, fn_lookup_insert. set_solver.
  - right. split.
    + unfold deleted; simpl. by apply lookup_insert_is_Some'; right.
    + by rewrite fn_lookup_insert_ne.
Qed.

Lemma initialised_extends σ w :
  wf_with σ w →
  extends σ w (<[fresh (dom (lists w)) := []]> σ) (initialised w).
Proof.
  intros Hwf.
  assert (Hdead : ∀ x, nodes w !! x = Some dead →
    nodes (initialised w) !! x = Some dead).
  { intros x Hx. unfold initialised; simpl.
    set (hd := fresh (dom (nodes w))).
    set (tl := fresh (dom (<[hd := dead]> (nodes w)))).
    assert (Hhd : nodes w !! hd = None) by apply not_elem_of_dom, is_fresh.
    assert (Htl : (<[hd := dead]> (nodes w)) !! tl = None)
      by apply not_elem_of_dom, is_fresh.
    assert (tl ≠ hd).
    { intros E. rewrite E, lookup_insert_eq in Htl. done. }
    rewrite lookup_insert_ne in Htl by done.
    assert (x ≠ hd) by (intros ->; congruence).
    assert (x ≠ tl) by (intros ->; congruence).
    by rewrite !lookup_insert_ne. }
  split; [done|].
  intros q (x & Hq & [Hx|[Hcq Hx]]); exists x; (split; [done|]); [left; eauto|].
  right. split.
  - unfold initialised; simpl. by apply lookup_insert_is_Some'; right.
  - rewrite fn_lookup_insert_ne; [done|].
    intros E. rewrite <- E in Hcq. destruct Hcq as [d' Hd'].
    pose proof (is_fresh (dom (lists w))) as Hf.
    apply not_elem_of_dom in Hf. congruence.
Qed.

Lemma replaced_extends σ w c d a n (e : T) :
  wf_with σ w → lists w !! c = Some d → a ∈ σ c → nodes w !! a = Some n →
  extends σ w σ (replaced w a n e).
Proof.
  intros Hwf Hc Ha Hn.
  assert (Hdead : ∀ x, nodes w !! x = Some dead →
    nodes (replaced w a n e) !! x = Some dead).
  { intros x Hx. pose proof (wf_dead_not_full _ _ _ _ _ Hwf Hc Hx) as Hnin.
    unfold replaced; simpl. rewrite lookup_insert_ne; [done|].
    intros <-. apply Hnin. unfold full. set_solver. }
  split; [done|].
  intros q (x & Hq & [Hx|[Hcq Hx]]); exists x; (split; [done|]); [left; eauto|].
  by right.
Qed.

End Positions.

(** * Running the positional interface on a well-formed store *)

Section Interface.
Context {T : Type}.
Implicit Types (w : World T) (h : gmap loc (_Node T)) (d : ListObj).
Implicit Types (a b c p t : loc) (l ls : list loc) (σ : loc → list loc).
Implicit Types (q : Position) (v : value T).

Lemma nxt_Some h a b :
  nxt h a = Some b ↔ ∃ n, h !! a = Some n ∧ _next n = Some b.
Proof. unfold nxt. destruct (h !! a); naive_solver. Qed.

Lemma prv_Some h a b :
  prv h a = Some b ↔ ∃ n, h !! a = Some n ∧ _prev n = Some b.
Proof. unfold prv. destruct (h !! a); naive_solver. Qed.

(** The two nodes on either side of a point of the chain. *)
Lemma adjacent_nodes σ w c d l1 l2 :
  wf_with σ w → lists w !! c = Some d → σ c = l1 ++ l2 →
  ∃ np ns,
    nodes w !! lastd (_header d) l1 = Some np ∧
    nodes w !! headd l2 (_trailer d) = Some ns ∧
    _next np = Some (headd l2 (_trailer d)) ∧
    _prev ns = Some (lastd (_header d) l1) ∧
    lastd (_header d) l1 ≠ headd l2 (_trailer d).
Proof.
  intros [Hl _] Hc Hσ. pose proof (Hl _ _ Hc) as Hinv. rewrite Hσ in Hinv.
  destruct (split_at_links _ _ _ _ (dll_inv_split _ _ _ _ Hinv))
    as (Hn & Hp & Hne).
  apply nxt_Some in Hn as (np & ? & ?). apply prv_Some in Hp as (ns & ? & ?).
  by exists np, ns.
Qed.

(** A live node and its two neighbours. *)
Lemma live_node σ w c d l1 a l2 :
  wf_with σ w → lists w !! c = Some d → σ c = l1 ++ a :: l2 →
  ∃ n np ns,
    nodes w !! a = Some n ∧
    _prev n = Some (lastd (_header d) l1) ∧
    _next n = Some (headd l2 (_trailer d)) ∧
    is_Some (_element n) ∧
    nodes w !! lastd (_header d) l1 = Some np ∧
    nodes w !! headd l2 (_trailer d) = Some ns ∧
    lastd (_header d) l1 ≠ headd l2 (_trailer d) ∧
    a ≠ lastd (_header d) l1 ∧ a ≠ headd l2 (_trailer d) ∧
    a ≠ _header d ∧ a ≠ _trailer d.
Proof.
  intros Hwf Hc Hσ.
  destruct (adjacent_nodes σ w c d l1 (a :: l2) Hwf Hc Hσ)
    as (np & n & Hnp & Hn & _ & Hprev & Hap).
  assert (Hσ' : σ c = (l1 ++ [a]) ++ l2) by (by rewrite <- app_assoc).
  destruct (adjacent_nodes σ w c d (l1 ++ [a]) l2 Hwf Hc Hσ')
    as (n' & ns & Hn' & Hns & Hnext & _ & Has).
  rewrite lastd_snoc in Hn', Has. simpl in Hn, Hprev, Hap.
  assert (n' = n) as -> by congruence.
  destruct Hwf as [Hl _]. destruct (Hl _ _ Hc) as [I1 _ _ _ _ _ I7 _].
  rewrite Hσ in I1, I7.
  assert (Hel : is_Some (_element n)).
  { specialize (I7 a). unfold elt in I7. rewrite Hn in I7. apply I7.
    set_solver. }
  rewrite full_split in I1. apply NoDup_app in I1 as (N1 & N2 & N3).
  assert (Hps : lastd (_header d) l1 ≠ headd l2 (_trailer d)).
  { intros E. eapply N2; [apply lastd_elem|]. rewrite E.
    apply elem_of_cons; right. apply headd_elem. }
  assert (Hhd : a ≠ _header d).
  { intros ->. eapply N2; [apply elem_of_cons; by left|set_solver]. }
  assert (Htl : a ≠ _trailer d).
  { intros ->. simpl in N3. apply NoDup_cons in N3 as [N3 _]. set_solver. }
  exists n, np, ns. split_and!; try done; by apply not_eq_sym.
Qed.



Lemma live_not_sentinel σ w c d a :
  wf_with σ w → lists w !! c = Some d → a ∈ σ c →
  a ≠ _header d ∧ a ≠ _trailer d.
Proof.
  intros Hwf Hc Ha. apply list_elem_of_split in Ha as (l1 & l2 & Hσ).
  destruct (live_node σ w c d l1 a l2 Hwf Hc Hσ)
    as (?&?&?&?&?&?&?&?&?&?&?&?&?). done.
Qed.

(** ** [_make_position] *)

Lemma make_position_run w c d (o : option loc) :
  lists w !! c = Some d →
  PositionalList._make_position c o w =
    (w, inr (if decide (o = Some (_header d) ∨ o = Some (_trailer d))
             then None else Some (Pos c o))).
Proof.
  intros Hc. unfold PositionalList._make_position. unfold_m. rewrite Hc.
  by case_decide.
Qed.

Lemma make_position_live σ w c d a :
  wf_with σ w → lists w !! c = Some d → a ∈ σ c →
  PositionalList._make_position c (Some a) w =
    (w, inr (Some (Pos c (Some a)))).
Proof.
  intros Hwf Hc Ha. rewrite (make_position_run w c d) by done.
  destruct (live_not_sentinel σ w c d a Hwf Hc Ha).
  case_decide as E; [|done]. destruct E; congruence.
Qed.

Lemma make_position_header w c d :
  lists w !! c = Some d →
  PositionalList._make_position c (Some (_header d)) w = (w, inr None).
Proof.
  intros Hc. rewrite (make_position_run w c d) by done.
  case_decide as E; [done|]. destruct E; by left.
Qed.

Lemma make_position_trailer w c d :
  lists w !! c = Some d →
  PositionalList._make_position c (Some (_trailer d)) w = (w, inr None).
Proof.
  intros Hc. rewrite (make_position_run w c d) by done.
  case_decide as E; [done|]. destruct E; by right.
Qed.

(** ** [_validate] *)

Lemma validate_unchanged c v w : (PositionalList._validate c v w).1 = w.
Proof.
  unfold PositionalList._validate. destruct v as [| |q]; try done.
  case_decide; [|done]. unfold_m.
  destruct (_node q) as [a|]; [|done]. simpl.
  destruct (nodes w !! a) as [n|]; [|done]. simpl.
  by destruct (_next n).
Qed.

Lemma validate_not_position c v w :
  (∀ q, v ≠ VPos q) →
  PositionalList._validate c v w =
    (w, inl (TypeError "p must be proper Position type")).
Proof. intros Hv. destruct v as [| |q]; try done. by destruct (Hv q). Qed.

Lemma validate_other_container c q w :
  _container q ≠ c →
  PositionalList._validate c (VPos q) w =
    (w, inl (ValueError "p does not belong to this container")).
Proof. intros Hq. unfold PositionalList._validate. by case_decide. Qed.

Lemma validate_dead c a w :
  nodes w !! a = Some dead →
  PositionalList._validate c (VPos (Pos c (Some a))) w =
    (w, inl (ValueError "p is no longer valid")).
Proof.
  intros Ha. unfold PositionalList._validate. simpl.
  case_decide; [|done]. unfold_m. simpl. by rewrite Ha.
Qed.

Lemma validate_live σ w c d a :
  wf_with σ w → lists w !! c = Some d → a ∈ σ c →
  PositionalList._validate c (VPos (Pos c (Some a))) w = (w, inr a).
Proof.
  intros Hwf Hc Ha. apply list_elem_of_split in Ha as (l1 & l2 & Hσ).
  destruct (live_node σ w c d l1 a l2 Hwf Hc Hσ)
    as (n&?&?&Hn&?&Hnx&?). unfold PositionalList._validate. simpl.
  case_decide; [|done]. unfold_m. simpl. by rewrite Hn, Hnx.
Qed.

(** A Position that passes validation is a Position of this list on a
    live node. *)
Lemma validate_ok_inv σ w c q w' a :
  wf_with σ w → pos_ok σ w q →
  PositionalList._validate c (VPos q) w = (w', inr a) →
  w' = w ∧ q = Pos c (Some a) ∧ is_Some (lists w !! c) ∧ a ∈ σ c.
Proof.
  intros Hwf (x & Hq & Hx) Hv.
  pose proof (validate_unchanged c (VPos q) w) as Hw. rewrite Hv in Hw.
  simpl in Hw. subst w'. split; [done|].
  unfold PositionalList._validate in Hv. destruct q as [cq nq].
  simpl in *. subst nq. case_decide as E; [|done]. subst cq.
  unfold_m. simpl in Hv.
  destruct (nodes w !! x) as [n|] eqn:Hn; simpl in Hv; [|done].
  destruct (_next n) as [s|] eqn:Hs; [|done].
  injection Hv as <-. split; [done|].
  destruct Hx as [Hx|Hx]; [|done].
  injection Hx as ->. done.
Qed.

(** Whatever is passed, a failure of [_validate] is one of its three
    errors. *)
Lemma validate_errors σ w c v w' e :
  wf_with σ w → (∀ q, v = VPos q → pos_ok σ w q) →
  PositionalList._validate c v w = (w', inl e) →
  e = TypeError "p must be proper Position type" ∨
  e = ValueError "p does not belong to this container" ∨
  e = ValueError "p is no longer valid".
Proof.
  intros Hwf Hok Hv. unfold PositionalList._validate in Hv.
  destruct v as [| |q]; [left; by injection Hv..|].
  case_decide; [|right; left; by injection Hv].
  destruct (Hok q eq_refl) as (x & Hq & Hx).
  unfold_m. rewrite Hq in Hv. simpl in Hv.
  destruct (nodes w !! x) as [n|] eqn:Hn.
  - simpl in Hv. destruct (_next n); [done|]. right; right. by injection Hv.
  - exfalso. destruct Hx as [Hx|[[d Hd] Hx]]; [congruence|].
    destruct Hwf as [Hl _].
    destruct (dll_inv_alloc _ _ _ x (Hl _ _ Hd)) as [n' Hn'];
      [unfold full; set_solver|congruence].
Qed.

(** ** The accessors never write *)

Lemma make_position_unchanged c o w :
  (PositionalList._make_position c o w).1 = w.
Proof.
  unfold PositionalList._make_position. unfold_m.
  destruct (lists w !! c); [|done]. by case_decide.
Qed.

Lemma first_unchanged c w : (PositionalList.first c w).1 = w.
Proof.
  unfold PositionalList.first. unfold_m.
  destruct (lists w !! c) as [d|] eqn:Hc; [|done].
  destruct (nodes w !! _header d); [|done].
  apply make_position_unchanged.
Qed.

Lemma last_unchanged c w : (PositionalList.last c w).1 = w.
Proof.
  unfold PositionalList.last. unfold_m.
  destruct (lists w !! c) as [d|] eqn:Hc; [|done].
  destruct (nodes w !! _trailer d); [|done].
  apply make_position_unchanged.
Qed.

Lemma before_unchanged c v w : (PositionalList.before c v w).1 = w.
Proof.
  unfold PositionalList.before.
  pose proof (validate_unchanged c v w) as Hv. unfold_m.
  destruct (PositionalList._validate c v w) as [w' [e|a]]; simpl in Hv;
    subst w'; [done|].
  destruct (nodes w !! a); [|done]. apply make_position_unchanged.
Qed.

Lemma after_unchanged c v w : (PositionalList.after c v w).1 = w.
Proof.
  unfold PositionalList.after.
  pose proof (validate_unchanged c v w) as Hv. unfold_m.
  destruct (PositionalList._validate c v w) as [w' [e|a]]; simpl in Hv;
    subst w'; [done|].
  destruct (nodes w !! a); [|done]. apply make_position_unchanged.
Qed.

Lemma element_unchanged q w : (PositionalList.element q w).1 = w.
Proof.
  unfold PositionalList.element. unfold_m.
  destruct (_node q) as [a|]; [|done]. simpl.
  by destruct (nodes w !! a).
Qed.

Lemma len_unchanged c w : (_DoublyLinkedListBase.__len__ c w).1 = w.
Proof.
  unfold _DoublyLinkedListBase.__len__. unfold_m. by destruct (lists w !! c).
Qed.

Lemma is_empty_unchanged c w : (_DoublyLinkedListBase.is_empty c w).1 = w.
Proof.
  unfold _DoublyLinkedListBase.is_empty. unfold_m.
  by destruct (lists w !! c).
Qed.

(** ** The accessors on a well-formed store *)

Lemma header_node σ w c d :
  wf_with σ w → lists w !! c = Some d →
  ∃ n, nodes w !! _header d = Some n ∧
       _next n = Some (headd (σ c) (_trailer d)).
Proof.
  intros Hwf Hc.
  destruct (adjacent_nodes σ w c d [] (σ c) Hwf Hc eq_refl)
    as (np & ns & Hnp & _ & Hn & _). by exists np.
Qed.

Lemma trailer_node σ w c d :
  wf_with σ w → lists w !! c = Some d →
  ∃ n, nodes w !! _trailer d = Some n ∧
       _prev n = Some (lastd (_header d) (σ c)).
Proof.
  intros Hwf Hc.
  destruct (adjacent_nodes σ w c d (σ c) [] Hwf Hc) as
    (np & ns & _ & Hns & _ & Hp & _); [by rewrite app_nil_r|]. by exists ns.
Qed.

Lemma first_run σ w c d :
  wf_with σ w → lists w !! c = Some d →
  PositionalList.first c w =
    (w, inr (match σ c with
             | [] => None
             | a :: _ => Some (Pos c (Some a))
             end)).
Proof.
  intros Hwf Hc. destruct (header_node σ w c d Hwf Hc) as (n & Hn & Hnx).
  unfold PositionalList.first. unfold_m. rewrite Hc, Hn, Hnx.
  destruct (σ c) as [|a l] eqn:Hσ; simpl.
  - by apply make_position_trailer.
  - apply (make_position_live σ w c d); [done..|]. rewrite Hσ. set_solver.
Qed.

Lemma last_run σ w c d :
  wf_with σ w → lists w !! c = Some d →
  PositionalList.last c w =
    (w, inr (match σ c with
             | [] => None
             | _ :: _ => Some (Pos c (Some (lastd (_header d) (σ c))))
             end)).
Proof.
  intros Hwf Hc. destruct (trailer_node σ w c d Hwf Hc) as (n & Hn & Hpv).
  unfold PositionalList.last. unfold_m. rewrite Hc, Hn, Hpv.
  destruct (σ c) as [|a l] eqn:Hσ.
  - by apply make_position_header.
  - apply (make_position_live σ w c d); [done..|]. rewrite Hσ.
    apply (lastd_elem a l).
Qed.

Lemma before_run σ w c d l1 a l2 :
  wf_with σ w → lists w !! c = Some d → σ c = l1 ++ a :: l2 →
  PositionalList.before c (VPos (Pos c (Some a))) w =
    (w, inr (match l1 with
             | [] => None
             | _ :: _ => Some (Pos c (Some (lastd (_header d) l1)))
             end)).
Proof.
  intros Hwf Hc Hσ.
  destruct (live_node σ w c d l1 a l2 Hwf Hc Hσ) as (n&?&?&Hn&Hp&?).
  unfold PositionalList.before. unfold mbind, M_bind, bind.
  rewrite (validate_live σ w c d) by (done || rewrite Hσ; set_solver).
  unfold_m. rewrite Hn, Hp.
  destruct l1 as [|y l1].
  - by apply make_position_header.
  - apply (make_position_live σ w c d); [done..|]. rewrite Hσ.
    apply elem_of_app; left. apply (lastd_elem y l1).
Qed.

Lemma after_run σ w c d l1 a l2 :
  wf_with σ w → lists w !! c = Some d → σ c = l1 ++ a :: l2 →
  PositionalList.after c (VPos (Pos c (Some a))) w =
    (w, inr (match l2 with
             | [] => None
             | b :: _ => Some (Pos c (Some b))
             end)).
Proof.
  intros Hwf Hc Hσ.
  destruct (live_node σ w c d l1 a l2 Hwf Hc Hσ) as (n&?&?&Hn&?&Hnx&?).
  unfold PositionalList.after. unfold mbind, M_bind, bind.
  rewrite (validate_live σ w c d) by (done || rewrite Hσ; set_solver).
  unfold_m. rewrite Hn, Hnx.
  destruct l2 as [|y l2]; simpl.
  - by apply make_position_trailer.
  - apply (make_position_live σ w c d); [done..|]. rewrite Hσ. set_solver.
Qed.

(** ** The mutators on a well-formed store *)

Lemma insert_between_spec σ w c d (e : T) l1 l2 :
  wf_with σ w → lists w !! c = Some d → σ c = l1 ++ l2 →
  insert_post σ w c d e l1 l2
    (PositionalList._insert_between c e (Some (lastd (_header d) l1))
       (Some (headd l2 (_trailer d))) w).
Proof.
  intros Hwf Hc Hσ.
  destruct (adjacent_nodes σ w c d l1 l2 Hwf Hc Hσ)
    as (np & ns & Hnp & Hns & _ & _ & Hne).
  pose proof (inserted_wf σ w c d e l1 l2 np ns Hwf Hc Hσ Hnp Hns) as Hwf'.
  pose proof (inserted_extends σ w c d e l1 l2 np ns Hwf Hc Hσ) as Hext.
  unfold PositionalList._insert_between, mbind, M_bind, bind.
  rewrite (insert_between_run w c d e _ _ np ns) by done.
  rewrite (make_position_live _ _ c
    {| _header := _header d; _trailer := _trailer d; _size := _size d + 1 |}
    _ Hwf').
  - unfold insert_post. simpl. split_and!; try done.
    + apply fresh_node_None.
    + rewrite !elt_insert. repeat case_decide; try done.
      * by destruct (fresh_node_ne _ _ _ Hns).
      * by destruct (fresh_node_ne _ _ _ Hnp).
  - simpl. apply lookup_insert_eq.
  - rewrite fn_lookup_insert. set_solver.
Qed.

Lemma add_first_spec σ w c d (e : T) :
  wf_with σ w → lists w !! c = Some d →
  insert_post σ w c d e [] (σ c) (PositionalList.add_first c e w).
Proof.
  intros Hwf Hc. destruct (header_node σ w c d Hwf Hc) as (n & Hn & Hnx).
  unfold PositionalList.add_first. unfold_m. rewrite Hc, Hn, Hnx.
  by apply (insert_between_spec σ w c d e [] (σ c)).
Qed.

Lemma add_last_spec σ w c d (e : T) :
  wf_with σ w → lists w !! c = Some d →
  insert_post σ w c d e (σ c) [] (PositionalList.add_last c e w).
Proof.
  intros Hwf Hc. destruct (trailer_node σ w c d Hwf Hc) as (n & Hn & Hpv).
  unfold PositionalList.add_last. unfold_m. rewrite Hc, Hn, Hpv.
  apply (insert_between_spec σ w c d e (σ c) []); [done..|].
  by rewrite app_nil_r.
Qed.

Lemma add_before_spec σ w c d l1 a l2 (e : T) :
  wf_with σ w → lists w !! c = Some d → σ c = l1 ++ a :: l2 →
  insert_post σ w c d e l1 (a :: l2)
    (PositionalList.add_before c (VPos (Pos c (Some a))) e w).
Proof.
  intros Hwf Hc Hσ.
  destruct (live_node σ w c d l1 a l2 Hwf Hc Hσ) as (n&?&?&Hn&Hp&?).
  unfold PositionalList.add_before. unfold mbind at 1, M_bind, bind.
  rewrite (validate_live σ w c d) by (done || rewrite Hσ; set_solver).
  unfold_m. rewrite Hn, Hp.
  by apply (insert_between_spec σ w c d e l1 (a :: l2)).
Qed.

Lemma add_after_spec σ w c d l1 a l2 (e : T) :
  wf_with σ w → lists w !! c = Some d → σ c = l1 ++ a :: l2 →
  insert_post σ w c d e (l1 ++ [a]) l2
    (PositionalList.add_after c (VPos (Pos c (Some a))) e w).
Proof.
  intros Hwf Hc Hσ.
  destruct (live_node σ w c d l1 a l2 Hwf Hc Hσ) as (n&?&?&Hn&?&Hnx&?).
  unfold PositionalList.add_after. unfold mbind at 1, M_bind, bind.
  rewrite (validate_live σ w c d) by (done || rewrite Hσ; set_solver).
  unfold_m. rewrite Hn, Hnx.
  pose proof (insert_between_spec σ w c d e (l1 ++ [a]) l2 Hwf Hc) as H'.
  rewrite lastd_snoc in H'. apply H'. by rewrite <- app_assoc.
Qed.

Lemma delete_spec σ w c d l1 a l2 :
  wf_with σ w → lists w !! c = Some d → σ c = l1 ++ a :: l2 →
  delete_post σ w c d l1 a l2
    (PositionalList.delete c (VPos (Pos c (Some a))) w).
Proof.
  intros Hwf Hc Hσ.
  destruct (live_node σ w c d l1 a l2 Hwf Hc Hσ)
    as (n&np&ns&Hn&Hp&Hnx&Hel&Hnp&Hns&Hps&Hap&Has&_).
  assert (Hsz : _size d ≠ 0).
  { destruct Hwf as [Hl _]. destruct (Hl _ _ Hc) as [_ _ _ _ _ _ _ I8].
    rewrite I8, Hσ, length_app. simpl. lia. }
  unfold PositionalList.delete, mbind, M_bind, bind.
  rewrite (validate_live σ w c d) by (done || rewrite Hσ; set_solver).
  rewrite (delete_node_run w c d a n _ _ np ns) by done.
  exists n. simpl. split_and!; try done.
  - by apply deleted_wf.
  - by apply deleted_extends.
  - apply lookup_insert_eq.
Qed.

Lemma replace_spec σ w c d a (e : T) :
  wf_with σ w → lists w !! c = Some d → a ∈ σ c →
  ∃ n, nodes w !! a = Some n ∧ is_Some (_element n) ∧
    PositionalList.replace c (VPos (Pos c (Some a))) e w =
      (replaced w a n e, inr (_element n)) ∧
    wf_with σ (replaced w a n e) ∧ extends σ w σ (replaced w a n e).
Proof.
  intros Hwf Hc Ha. pose proof Ha as Ha'.
  apply list_elem_of_split in Ha' as (l1 & l2 & Hσ).
  destruct (live_node σ w c d l1 a l2 Hwf Hc Hσ) as (n&?&?&Hn&?&?&Hel&?).
  exists n. split_and!; try done.
  - unfold PositionalList.replace, mbind, M_bind, bind.
    rewrite (validate_live σ w c d) by done.
    unfold_m. by rewrite Hn.
  - by eapply replaced_wf.
  - by eapply replaced_extends.
Qed.

Lemma element_run w c a n :
  nodes w !! a = Some n →
  PositionalList.element (Pos c (Some a)) w = (w, inr (_element n)).
Proof. intros Hn. unfold PositionalList.element. unfold_m. simpl. by rewrite Hn. Qed.

End Interface.

(** * Every call preserves the invariant *)

Section Calls.
Context {T : Type}.
Implicit Types (w : World T) (h : gmap loc (_Node T)) (d : ListObj).
Implicit Types (a b c p t : loc) (l ls : list loc) (σ : loc → list loc).
Implicit Types (q : Position) (v : value T) (ps : list Position).
Implicit Types (k : call T) (ev : event T).

Lemma value_known_ok σ w ps v :
  Forall (pos_ok σ w) ps → value_known ps v → value_ok σ w v.
Proof.
  intros Hps Hv q ->. simpl in Hv. rewrite Forall_forall in Hps. eauto.
Qed.

(** Validation either fails, or was given a Position of this list on a
    live node. *)
Lemma validate_cases σ w c v :
  wf_with σ w → value_ok σ w v →
  (∃ e, PositionalList._validate c v w = (w, inl e)) ∨
  (∃ a d l1 l2, v = VPos (Pos c (Some a)) ∧ lists w !! c = Some d ∧
     σ c = l1 ++ a :: l2 ∧ PositionalList._validate c v w = (w, inr a)).
Proof.
  intros Hwf Hv.
  destruct (PositionalList._validate c v w) as [w' [e|a]] eqn:E.
  - left. exists e. pose proof (validate_unchanged c v w) as H.
    rewrite E in H. simpl in H. by subst.
  - right. destruct v as [| |q]; try done.
    destruct (validate_ok_inv σ w c q w' a Hwf (Hv q eq_refl) E)
      as (-> & -> & [d Hd] & Ha).
    apply list_elem_of_split in Ha as (l1 & l2 & Hσ).
    by exists a, d, l1, l2.
Qed.

(** A failure of validation is the failure of the method, and nothing
    has been written. *)
Lemma validate_fail_methods c v w w' err :
  PositionalList._validate c v w = (w', inl err) →
  w' = w ∧
  PositionalList.before c v w = (w, inl err) ∧
  PositionalList.after c v w = (w, inl err) ∧
  (∀ e, PositionalList.add_before c v e w = (w, inl err)) ∧
  (∀ e, PositionalList.add_after c v e w = (w, inl err)) ∧
  PositionalList.delete c v w = (w, inl err) ∧
  (∀ e, PositionalList.replace c v e w = (w, inl err)).
Proof.
  intros Hv. pose proof (validate_unchanged c v w) as H.
  rewrite Hv in H. simpl in H. subst w'.
  unfold PositionalList.before, PositionalList.after,
    PositionalList.add_before, PositionalList.add_after,
    PositionalList.delete, PositionalList.replace, mbind, M_bind, bind.
  rewrite Hv. done.
Qed.

Lemma bind_ret_run {A} (m : M T A) (f : A → retval T) w :
  (o ← m; mret (f o)) w =
    ((m w).1, match (m w).2 with inl e => inl e | inr a => inr (f a) end).
Proof. unfold_m. by destruct (m w) as [w' [e|a]]. Qed.

Lemma size_law_same w w' ev :
  lists w' = lists w →
  (∀ c, is_add c ev = false) → (∀ c, is_delete c ev = false) →
  size_law w w' ev.
Proof.
  intros Hl Ha Hd c d Hc. exists d. rewrite Hl, Ha, Hd.
  split_and!; try done. lia.
Qed.

Lemma size_law_refl w ev :
  (∀ c, is_add c ev = false) → (∀ c, is_delete c ev = false) →
  size_law w w ev.
Proof. by apply size_law_same. Qed.

Lemma size_law_insert w w' c d z ev :
  lists w !! c = Some d →
  lists w' = <[c := {| _header := _header d; _trailer := _trailer d;
                        _size := _size d + z |}]> (lists w) →
  z = (if is_add c ev then 1 else 0) - (if is_delete c ev then 1 else 0) →
  (∀ c', c' ≠ c → is_add c' ev = false ∧ is_delete c' ev = false) →
  size_law w w' ev.
Proof.
  intros Hc Hl Hz Hoth c' d' Hc'. rewrite Hl.
  destruct (decide (c' = c)) as [->|Hne].
  - rewrite lookup_insert_eq. eexists; split; [done|]. simpl.
    assert (d' = d) as -> by congruence. split_and!; try done. lia.
  - rewrite lookup_insert_ne by done. exists d'.
    destruct (Hoth c' Hne) as [-> ->]. split_and!; try done. lia.
Qed.

Lemma size_law_new w w' d ev :
  lists w' = <[fresh (dom (lists w)) := d]> (lists w) →
  (∀ c, is_add c ev = false) → (∀ c, is_delete c ev = false) →
  size_law w w' ev.
Proof.
  intros Hl Ha Hd c d' Hc. rewrite Hl, Ha, Hd. exists d'.
  rewrite lookup_insert_ne; [split_and!; try done; lia|].
  intros E. pose proof (is_fresh (dom (lists w))) as Hf.
  apply not_elem_of_dom in Hf. congruence.
Qed.

(** The Positions returned by the accessors are well formed. *)
Lemma first_pos_ok σ w c q :
  wf_with σ w → (PositionalList.first c w).2 = inr (Some q) → pos_ok σ w q.
Proof.
  intros Hwf. destruct (lists w !! c) as [d|] eqn:Hc.
  - rewrite (first_run σ w c d) by done. simpl.
    destruct (σ c) as [|a l] eqn:Hσ; [done|]. intros [= <-].
    exists a. split; [done|]. right. simpl. rewrite Hc, Hσ.
    split; [eauto|set_solver].
  - unfold PositionalList.first. unfold_m. by rewrite Hc.
Qed.

Lemma last_pos_ok σ w c q :
  wf_with σ w → (PositionalList.last c w).2 = inr (Some q) → pos_ok σ w q.
Proof.
  intros Hwf. destruct (lists w !! c) as [d|] eqn:Hc.
  - rewrite (last_run σ w c d) by done. simpl.
    destruct (σ c) as [|a l] eqn:Hσ; [done|]. intros [= <-].
    eexists. split; [done|]. right. simpl. rewrite Hc, Hσ.
    split; [eauto|]. apply (lastd_elem a l).
  - unfold PositionalList.last. unfold_m. by rewrite Hc.
Qed.

Lemma before_pos_ok σ w c v q :
  wf_with σ w → value_ok σ w v →
  (PositionalList.before c v w).2 = inr (Some q) → pos_ok σ w q.
Proof.
  intros Hwf Hv.
  destruct (validate_cases σ w c v Hwf Hv)
    as [[e He]|(a & d & l1 & l2 & -> & Hc & Hσ & _)].
  - destruct (validate_fail_methods _ _ _ _ _ He) as (_ & -> & _). done.
  - rewrite (before_run σ w c d l1 a l2) by done. simpl.
    destruct l1 as [|x l1]; [done|]. intros [= <-].
    eexists. split; [done|]. right. simpl. rewrite Hc, Hσ.
    split; [eauto|]. apply elem_of_app; left. apply (lastd_elem x l1).
Qed.

Lemma after_pos_ok σ w c v q :
  wf_with σ w → value_ok σ w v →
  (PositionalList.after c v w).2 = inr (Some q) → pos_ok σ w q.
Proof.
  intros Hwf Hv.
  destruct (validate_cases σ w c v Hwf Hv)
    as [[e He]|(a & d & l1 & l2 & -> & Hc & Hσ & _)].
  - destruct (validate_fail_methods _ _ _ _ _ He) as (_ & _ & -> & _). done.
  - rewrite (after_run σ w c d l1 a l2) by done. simpl.
    destruct l2 as [|x l2]; [done|]. intros [= <-].
    eexists. split; [done|]. right. simpl. rewrite Hc, Hσ.
    split; [eauto|]. set_solver.
Qed.

Lemma is_add_fail c k e : is_add c (k, inl e) = false.
Proof. by destruct k. Qed.

Lemma is_delete_fail c k e : is_delete c (k, inl e) = false.
Proof. by destruct k. Qed.

Lemma preserved_fail σ w k e : wf_with σ w → preserved σ w k (w, inl e).
Proof.
  intros Hwf. exists σ. simpl. split_and!; [done|apply extends_refl|done|].
  apply size_law_refl; intros c; [apply is_add_fail|apply is_delete_fail].
Qed.

(** An accessor: the store is unchanged and only well-formed Positions
    are returned. *)
Lemma preserved_read σ w k (r : exn + retval T) :
  wf_with σ w →
  (∀ c, is_add c (k, r) = false) → (∀ c, is_delete c (k, r) = false) →
  Forall (pos_ok σ w) (learnt r) →
  preserved σ w k (w, r).
Proof.
  intros Hwf Ha Hd Hl. exists σ. simpl.
  split_and!; [done|apply extends_refl|done|by apply size_law_refl].
Qed.

Lemma preserved_insert σ w c d (e : T) l1 l2 k res :
  wf_with σ w → lists w !! c = Some d →
  (∀ c' r, is_add c' (k, inr r) = bool_decide (c = c')) →
  (∀ c' r, is_delete c' (k, r) = false) →
  insert_post σ w c d e l1 l2 res →
  preserved σ w k
    (res.1, match res.2 with inl x => inl x | inr o => inr (RPos o) end).
Proof.
  intros Hwf Hc Hadd Hdel (Hr & Hwf' & Hext & Hlists & Hnew & He).
  eexists. simpl. split_and!; [exact Hwf'|exact Hext| |].
  - rewrite Hr. simpl. apply Forall_singleton.
    eexists. split; [done|]. right. simpl.
    rewrite Hlists, lookup_insert_eq, fn_lookup_insert.
    split; [eauto|set_solver].
  - rewrite Hr. eapply size_law_insert; [done..| |].
    + rewrite Hadd, Hdel, bool_decide_eq_true_2 by done. done.
    + intros c' Hne. rewrite Hadd, Hdel, bool_decide_eq_false_2 by done.
      done.
Qed.

Lemma add_first_unallocated c (e : T) w :
  lists w !! c = None →
  PositionalList.add_first c e w = (w, inl Unallocated).
Proof. intros Hc. unfold PositionalList.add_first. unfold_m. by rewrite Hc. Qed.

Lemma add_last_unallocated c (e : T) w :
  lists w !! c = None →
  PositionalList.add_last c e w = (w, inl Unallocated).
Proof. intros Hc. unfold PositionalList.add_last. unfold_m. by rewrite Hc. Qed.

Theorem exec_preserves σ w ps k :
  wf_with σ w → Forall (pos_ok σ w) ps → args_known ps k →
  preserved σ w k (exec k w).
Proof.
  intros Hwf Hps Hk.
  destruct k as [|c|c|c|c|c v|c v|c e|c e|c v e|c v e|c v|c v e|q];
    unfold exec; rewrite bind_ret_run.
  - (* the constructor *)
    rewrite init_run. simpl. eexists. simpl.
    split_and!; [by apply initialised_wf|by apply initialised_extends|done|].
    by eapply size_law_new.
  - (* __len__ *)
    rewrite len_unchanged. apply preserved_read; try done.
    by destruct (_DoublyLinkedListBase.__len__ c w).2.
  - (* is_empty *)
    rewrite is_empty_unchanged. apply preserved_read; try done.
    by destruct (_DoublyLinkedListBase.is_empty c w).2.
  - (* first *)
    rewrite first_unchanged. apply preserved_read; try done.
    destruct (PositionalList.first c w).2 as [|[q|]] eqn:E; try done.
    apply Forall_singleton. by eapply first_pos_ok.
  - (* last *)
    rewrite last_unchanged. apply preserved_read; try done.
    destruct (PositionalList.last c w).2 as [|[q|]] eqn:E; try done.
    apply Forall_singleton. by eapply last_pos_ok.
  - (* before *)
    rewrite before_unchanged. apply preserved_read; try done.
    destruct (PositionalList.before c v w).2 as [|[q|]] eqn:E; try done.
    apply Forall_singleton. eapply before_pos_ok; [done| |done].
    by eapply value_known_ok.
  - (* after *)
    rewrite after_unchanged. apply preserved_read; try done.
    destruct (PositionalList.after c v w).2 as [|[q|]] eqn:E; try done.
    apply Forall_singleton. eapply after_pos_ok; [done| |done].
    by eapply value_known_ok.
  - (* add_first *)
    destruct (lists w !! c) as [d|] eqn:Hc.
    + eapply preserved_insert; [done..| | |by apply add_first_spec]; done.
    + rewrite add_first_unallocated by done. by apply preserved_fail.
  - (* add_last *)
    destruct (lists w !! c) as [d|] eqn:Hc.
    + eapply preserved_insert; [done..| | |by apply add_last_spec]; done.
    + rewrite add_last_unallocated by done. by apply preserved_fail.
  - (* add_before *)
    destruct (validate_cases σ w c v Hwf (value_known_ok _ _ _ _ Hps Hk))
      as [[err He]|(a & d & l1 & l2 & -> & Hc & Hσ & _)].
    + destruct (validate_fail_methods _ _ _ _ _ He) as (_&_&_&->&_).
      by apply preserved_fail.
    + eapply preserved_insert; [done..| | |by eapply add_before_spec]; done.
  - (* add_after *)
    destruct (validate_cases σ w c v Hwf (value_known_ok _ _ _ _ Hps Hk))
      as [[err He]|(a & d & l1 & l2 & -> & Hc & Hσ & _)].
    + destruct (validate_fail_methods _ _ _ _ _ He) as (_&_&_&_&->&_).
      by apply preserved_fail.
    + eapply preserved_insert; [done..| | |by eapply add_after_spec]; done.
  - (* delete *)
    destruct (validate_cases σ w c v Hwf (value_known_ok _ _ _ _ Hps Hk))
      as [[err He]|(a & d & l1 & l2 & -> & Hc & Hσ & _)].
    + destruct (validate_fail_methods _ _ _ _ _ He) as (_&_&_&_&_&->&_).
      by apply preserved_fail.
    + destruct (delete_spec σ w c d l1 a l2 Hwf Hc Hσ)
        as (n & Hn & Hel & Hr & Hwf' & Hext & Hlists & Hdead).
      eexists. simpl. split_and!; [exact Hwf'|exact Hext| |].
      * by rewrite Hr.
      * rewrite Hr. eapply size_law_insert; [done..| |]; simpl.
        -- by rewrite bool_decide_eq_true_2.
        -- intros c' Hne. by rewrite bool_decide_eq_false_2.
  - (* replace *)
    destruct (validate_cases σ w c v Hwf (value_known_ok _ _ _ _ Hps Hk))
      as [[err He]|(a & d & l1 & l2 & -> & Hc & Hσ & _)].
    + destruct (validate_fail_methods _ _ _ _ _ He) as (_&_&_&_&_&_&->).
      by apply preserved_fail.
    + destruct (replace_spec σ w c d a e Hwf Hc) as (n&Hn&Hel&->&Hwf'&Hext);
        [rewrite Hσ; set_solver|].
      eexists. simpl. split_and!; [exact Hwf'|exact Hext|done|].
      by apply size_law_same.
  - (* Position.element *)
    rewrite element_unchanged. apply preserved_read; try done.
    by destruct (PositionalList.element q w).2.
Qed.

End Calls.

(** * Traces of calls *)

Section Traces.
Context {T : Type}.
Implicit Types (w : World T) (d : ListObj) (c : loc).
Implicit Types (σ : loc → list loc) (ps : list Position).
Implicit Types (cfg : config T) (ev : event T) (tr : list (event T)).

Lemma inv_empty : inv (λ _, []) ((empty_world, []) : config T).
Proof.
  split; [|done]. split.
  - intros c d Hc. simpl in Hc. by rewrite lookup_empty in Hc.
  - intros c1 c2 d1 d2 a _ Hc. simpl in Hc. by rewrite lookup_empty in Hc.
Qed.

Lemma step_inv σ cfg ev cfg' :
  inv σ cfg → step cfg ev cfg' →
  ∃ σ', inv σ' cfg' ∧ extends σ cfg.1 σ' cfg'.1 ∧ size_law cfg.1 cfg'.1 ev.
Proof.
  intros [Hwf Hps] Hstep. destruct Hstep as [w ps k w' r Hk Hex].
  simpl in *.
  destruct (exec_preserves σ w ps k Hwf Hps Hk) as (σ' & H1 & H2 & H3 & H4).
  rewrite Hex in H1, H2, H3, H4. simpl in *.
  exists σ'. split_and!; try done. split; [done|]. simpl.
  apply Forall_app. split; [done|].
  eapply Forall_impl; [exact Hps|]. intros q. apply H2.
Qed.

Lemma adds_cons c ev tr :
  adds c (ev :: tr) = ((if is_add c ev then 1 else 0) + adds c tr)%nat.
Proof.
  unfold adds. rewrite filter_cons.
  destruct (is_add c ev); case_decide; done.
Qed.

Lemma deletes_cons c ev tr :
  deletes c (ev :: tr) =
    ((if is_delete c ev then 1 else 0) + deletes c tr)%nat.
Proof.
  unfold deletes. rewrite filter_cons.
  destruct (is_delete c ev); case_decide; done.
Qed.

(** Along a trace: the invariant holds, invalidated nodes stay
    invalidated, and the size of every list has moved by the number of
    insertions minus the number of deletions. *)
Lemma steps_inv σ cfg tr cfg' :
  inv σ cfg → steps cfg tr cfg' →
  ∃ σ', inv σ' cfg' ∧ extends σ cfg.1 σ' cfg'.1 ∧
    ∀ c d, lists cfg.1 !! c = Some d →
      ∃ d', lists cfg'.1 !! c = Some d' ∧
        _header d' = _header d ∧ _trailer d' = _trailer d ∧
        _size d' = _size d + Z.of_nat (adds c tr) - Z.of_nat (deletes c tr).
Proof.
  intros Hinv Hsteps. revert σ Hinv.
  induction Hsteps as [cfg|cfg ev cfg' tr cfg'' Hstep Hsteps IH];
    intros σ Hinv.
  - exists σ. split_and!; [done|apply extends_refl|].
    intros c d Hc. exists d. split_and!; try done. unfold adds, deletes.
    simpl. lia.
  - destruct (step_inv σ cfg ev cfg' Hinv Hstep) as (σ1 & Hinv1 & Hext1 & Hsz1).
    destruct (IH σ1 Hinv1) as (σ2 & Hinv2 & Hext2 & Hsz2).
    exists σ2. split_and!; [done|by eapply extends_trans|].
    intros c d Hc. destruct (Hsz1 c d Hc) as (d1 & Hc1 & Hh1 & Ht1 & Hs1).
    destruct (Hsz2 c d1 Hc1) as (d2 & Hc2 & Hh2 & Ht2 & Hs2).
    exists d2. rewrite adds_cons, deletes_cons.
    split_and!; [done|congruence|congruence|].
    rewrite Hs2, Hs1. destruct (is_add c ev), (is_delete c ev); lia.
Qed.

Lemma reachable_inv cfg : reachable cfg → ∃ σ, inv σ cfg.
Proof.
  intros [tr Htr].
  destruct (steps_inv _ _ _ _ inv_empty Htr) as (σ & Hinv & _). eauto.
Qed.

Lemma reachable_wf cfg : reachable cfg → wf cfg.1.
Proof. intros H. destruct (reachable_inv _ H) as [σ [Hwf _]]. by exists σ. Qed.

Lemma steps_app cfg tr cfg' tr' cfg'' :
  steps cfg tr cfg' → steps cfg' tr' cfg'' → steps cfg (tr ++ tr') cfg''.
Proof.
  intros H. revert cfg''. induction H as [|c0 ev c1 tr0 c2 Hs Hss IH];
    intros cfg'' H'; simpl; [done|].
  econstructor; [done|]. by apply IH.
Qed.

Lemma reachable_steps cfg tr cfg' :
  reachable cfg → steps cfg tr cfg' → reachable cfg'.
Proof. intros [tr0 H0] H. exists (tr0 ++ tr). by eapply steps_app. Qed.

End Traces.

(** * Running a script of calls *)

Section Scripts.
Context {T : Type}.
Implicit Types (cfg : config T) (ks : list (call T)).

Lemma run_steps ks cfg :
  script_known ks cfg → steps cfg (trace_of ks cfg) (run ks cfg).
Proof.
  revert cfg. induction ks as [|k ks IH]; intros [w ps]; simpl.
  - constructor.
  - intros [Hk Hks]. econstructor; [|by apply IH].
    unfold after_call. simpl.
    destruct (exec k w) as [w' r] eqn:E. simpl. by constructor.
Qed.

Lemma run_reachable ks :
  script_known ks (empty_world, []) → reachable (run ks (empty_world, [])).
Proof. intros H. eexists. by apply run_steps. Qed.

End Scripts.

(** * Properties of the positional interface *)

Section Properties.
Context {T : Type}.
Implicit Types (w : World T) (d : ListObj) (a c L : loc).
Implicit Types (σ : loc → list loc) (ps : list Position).
Implicit Types (q : Position) (v : value T) (e : T) (err : exn).

Lemma fails_validation_run w L v err :
  fails_validation w L v err →
  PositionalList._validate L v w = (w, inl err).
Proof.
  intros [[Hv ->]|[(q & -> & Hq & ->)|(a & n & -> & Hn & Hnx & ->)]].
  - by apply validate_not_position.
  - by apply validate_other_container.
  - unfold PositionalList._validate. simpl. case_decide; [|done].
    unfold_m. simpl. by rewrite Hn, Hnx.
Qed.

(** C3: whenever the argument fails validation (it is not a Position, it
    belongs to another container, or it is stale), each of [before],
    [after], [add_before], [add_after], [delete] and [replace] raises the
    corresponding position error and returns the store it was given,
    untouched; in particular a Position of list [A] passed to the
    [delete] of another list [B] raises the wrong-container error and
    leaves the whole store, hence both lists, as it was. *)
Theorem position_errors_leave_store_unmodified w L v err :
  fails_validation w L v err →
  PositionalList.before L v w = (w, inl err) ∧
  PositionalList.after L v w = (w, inl err) ∧
  (∀ e, PositionalList.add_before L v e w = (w, inl err)) ∧
  (∀ e, PositionalList.add_after L v e w = (w, inl err)) ∧
  PositionalList.delete L v w = (w, inl err) ∧
  (∀ e, PositionalList.replace L v e w = (w, inl err)) ∧
  (∀ A B o, A ≠ B →
     PositionalList.delete B (VPos (Pos A o)) w =
       (w, inl (ValueError "p does not belong to this container"))).
Proof.
  intros Hf. apply fails_validation_run in Hf.
  destruct (validate_fail_methods _ _ _ _ _ Hf) as (_&?&?&?&?&?&?).
  split_and!; try done.
  intros A B o Hne.
  pose proof (validate_other_container B (Pos A o) w Hne) as Hv.
  by destruct (validate_fail_methods _ _ _ _ _ Hv) as (_&_&_&_&_&?&_).
Qed.

Lemma known_ok σ w ps q : inv σ (w, ps) → q ∈ ps → pos_ok σ w q.
Proof. intros [_ Hps] Hq. rewrite Forall_forall in Hps. by apply Hps. Qed.

(** A successful [delete] was given a Position of this list on a live
    node. *)
Lemma delete_success_inv σ w ps L q w1 x :
  inv σ (w, ps) → q ∈ ps →
  PositionalList.delete L (VPos q) w = (w1, inr x) →
  ∃ a d l1 l2, q = Pos L (Some a) ∧ lists w !! L = Some d ∧
    σ L = l1 ++ a :: l2 ∧ delete_post σ w L d l1 a l2 (w1, inr x).
Proof.
  intros Hinv Hq Hdel. pose proof (known_ok _ _ _ _ Hinv Hq) as Hok.
  destruct Hinv as [Hwf _]. simpl in Hwf.
  destruct (validate_cases σ w L (VPos q) Hwf)
    as [[err He]|(a & d & l1 & l2 & [= ->] & Hc & Hσ & _)].
  - by intros ? [= <-].
  - destruct (validate_fail_methods _ _ _ _ _ He) as (_&_&_&_&_&Hd&_).
    congruence.
  - exists a, d, l1, l2. split_and!; try done. rewrite <- Hdel.
    by apply delete_spec.
Qed.

(** After a successful [delete], and whatever is called afterwards, the
    node of the Position is an invalidated node. *)
Lemma deleted_stays_dead w ps L q w1 x tr w2 ps2 :
  reachable (w, ps) → q ∈ ps →
  PositionalList.delete L (VPos q) w = (w1, inr x) →
  steps (w1, ps) tr (w2, ps2) →
  ∃ a n, q = Pos L (Some a) ∧ nodes w !! a = Some n ∧ x = _element n ∧
    is_Some x ∧ nodes w2 !! a = Some dead.
Proof.
  intros Hreach Hq Hdel Hsteps.
  destruct (reachable_inv _ Hreach) as [σ Hinv].
  destruct (delete_success_inv σ w ps L q w1 x Hinv Hq Hdel)
    as (a & d & l1 & l2 & -> & Hc & Hσ & n & Hn & Hel & Hr & Hwf1 & Hext1
        & _ & Hdead).
  simpl in *. injection Hr as ->.
  assert (Hinv1 : inv (<[L := l1 ++ l2]> σ) (w1, ps)).
  { split; [done|]. simpl. destruct Hinv as [_ Hps]. simpl in Hps.
    eapply Forall_impl; [exact Hps|]. intros q'. apply Hext1. }
  destruct (steps_inv _ _ _ _ Hinv1 Hsteps) as (σ2 & _ & Hext2 & _).
  exists a, n. split_and!; try done. by apply Hext2.
Qed.

(** C1: once [delete(p)] has succeeded on a list, every later call of
    [replace], [before], [after], [add_before], [add_after] or [delete]
    with [p] on that list, whatever has been called in between, raises
    [ValueError('p is no longer valid')] and writes nothing: the node
    of [p] has had its [_next] cleared, which is what [_validate]
    tests. *)
Theorem stale_position_after_delete w ps L q w1 x tr w2 ps2 :
  reachable (w, ps) → q ∈ ps →
  PositionalList.delete L (VPos q) w = (w1, inr x) →
  steps (w1, ps) tr (w2, ps2) →
  let stale := ValueError "p is no longer valid" in
  (∀ e, PositionalList.replace L (VPos q) e w2 = (w2, inl stale)) ∧
  PositionalList.before L (VPos q) w2 = (w2, inl stale) ∧
  PositionalList.after L (VPos q) w2 = (w2, inl stale) ∧
  (∀ e, PositionalList.add_before L (VPos q) e w2 = (w2, inl stale)) ∧
  (∀ e, PositionalList.add_after L (VPos q) e w2 = (w2, inl stale)) ∧
  PositionalList.delete L (VPos q) w2 = (w2, inl stale) ∧
  (∃ a, _node q = Some a ∧ nxt (nodes w2) a = None).
Proof.
  intros Hreach Hq Hdel Hsteps.
  destruct (deleted_stays_dead _ _ _ _ _ _ _ _ _ Hreach Hq Hdel Hsteps)
    as (a & n & -> & _ & _ & _ & Hdead).
  pose proof (validate_dead L a w2 Hdead) as Hv.
  destruct (validate_fail_methods _ _ _ _ _ Hv) as (_&?&?&?&?&?&?).
  cbv zeta. split_and!; try done.
  exists a. split; [done|]. unfold nxt. by rewrite Hdead.
Qed.

(** C9: after a successful [delete(p)], and whatever is called
    afterwards, [p.element()] raises nothing, writes nothing and returns
    [None], the value [invalidate] has put in the slot; before the
    [delete] it returned what was stored at [p], which is what [delete]
    returned. *)
Theorem element_of_deleted_position_is_None w ps L q w1 x tr w2 ps2 :
  reachable (w, ps) → q ∈ ps →
  PositionalList.delete L (VPos q) w = (w1, inr x) →
  steps (w1, ps) tr (w2, ps2) →
  PositionalList.element q w2 = (w2, inr None) ∧
  PositionalList.element q w = (w, inr x).
Proof.
  intros Hreach Hq Hdel Hsteps.
  destruct (deleted_stays_dead _ _ _ _ _ _ _ _ _ Hreach Hq Hdel Hsteps)
    as (a & n & -> & Hn & -> & Hel & Hdead).
  split.
  - by rewrite (element_run w2 L a dead).
  - by rewrite (element_run w L a n).
Qed.

(** C10: [delete] with an argument that is not a Position, or with a
    Position the interface has handed out, never raises [Empty].  Such
    an argument that passes validation is a Position on a live node of
    the list, so the list has at least one element, [is_empty()] is
    false, the check of [_delete_node] does not fire and [delete]
    returns; a [delete] that fails has failed in [_validate], with one
    of its three errors, and has written nothing. *)
Theorem delete_never_raises_Empty w ps L v :
  reachable (w, ps) → value_known ps v →
  (PositionalList.delete L v w).2 ≠ inl Empty ∧
  (∀ w' err, PositionalList.delete L v w = (w', inl err) →
     w' = w ∧ PositionalList._validate L v w = (w, inl err) ∧
     (err = TypeError "p must be proper Position type" ∨
      err = ValueError "p does not belong to this container" ∨
      err = ValueError "p is no longer valid")) ∧
  (∀ a, (PositionalList._validate L v w).2 = inr a →
     ∃ d, lists w !! L = Some d ∧ 0 < _size d ∧
       _DoublyLinkedListBase.is_empty L w = (w, inr false) ∧
       returns (PositionalList.delete L v w)).
Proof.
  intros Hreach Hv.
  destruct (reachable_inv _ Hreach) as [σ [Hwf Hps]]. simpl in *.
  pose proof (value_known_ok σ w ps v Hps Hv) as Hok.
  destruct (validate_cases σ w L v Hwf Hok)
    as [[e He]|(a & d & l1 & l2 & -> & Hc & Hσ & Hval)].
  - destruct (validate_fail_methods _ _ _ _ _ He) as (_&_&_&_&_&Hd&_).
    pose proof (validate_errors σ w L v w e Hwf Hok He) as Herr.
    rewrite Hd. split_and!.
    + simpl. by destruct Herr as [->|[->| ->]].
    + intros w' err [= <- <-]. by split_and!.
    + intros a. by rewrite He.
  - destruct (delete_spec σ w L d l1 a l2 Hwf Hc Hσ) as (n&_&_&Hr&_).
    assert (Hsz : 0 < _size d).
    { rewrite (inv_size _ _ _ (wf_lists _ _ Hwf _ _ Hc)), Hσ, length_app.
      simpl. lia. }
    split_and!.
    + by rewrite Hr.
    + intros w' err Hdel. rewrite Hdel in Hr. done.
    + intros _ _. exists d. split_and!; [done|done| |by eexists].
      unfold _DoublyLinkedListBase.is_empty. unfold_m. rewrite Hc. simpl.
      do 2 f_equal. apply bool_decide_eq_false. lia.
Qed.

Lemma validate_replaced w a n e L v :
  nodes w !! a = Some n →
  (PositionalList._validate L v (replaced w a n e)).2 =
    (PositionalList._validate L v w).2.
Proof.
  intros Hn. unfold PositionalList._validate. destruct v as [| |q']; try done.
  case_decide; [|done]. unfold_m. destruct (_node q') as [b|]; [|done].
  simpl. destruct (decide (b = a)) as [->|Hne].
  - rewrite lookup_insert_eq, Hn. simpl. by destruct (_next n).
  - rewrite lookup_insert_ne by done.
    destruct (nodes w !! b) as [nb|]; [|done]. simpl. by destruct (_next nb).
Qed.

(** C2: on a valid Position [p] of a list, [replace(p, x)] returns the
    element that was stored at [p] and only rewrites the element slot of
    the node of [p]: the attributes of every list (its size among them),
    every other node and every link are as before, every value passes or
    fails validation as before, and [p] itself is still accepted by
    [replace], [before], [after], [add_before], [add_after] and
    [delete]. *)
Theorem replace_returns_old_and_keeps_position w ps L q a e :
  reachable (w, ps) → q ∈ ps →
  PositionalList._validate L (VPos q) w = (w, inr a) →
  ∃ n, nodes w !! a = Some n ∧
    let w' := replaced w a n e in
    PositionalList.replace L (VPos q) e w = (w', inr (_element n)) ∧
    PositionalList.element q w = (w, inr (_element n)) ∧
    PositionalList.element q w' = (w', inr (Some e)) ∧
    lists w' = lists w ∧
    (_DoublyLinkedListBase.__len__ L w').2 =
      (_DoublyLinkedListBase.__len__ L w).2 ∧
    (∀ b, b ≠ a → nodes w' !! b = nodes w !! b) ∧
    (∀ b, nxt (nodes w') b = nxt (nodes w) b ∧
          prv (nodes w') b = prv (nodes w) b) ∧
    (∀ L' v', (PositionalList._validate L' v' w').2 =
              (PositionalList._validate L' v' w).2) ∧
    PositionalList._validate L (VPos q) w' = (w', inr a) ∧
    (∀ e', returns (PositionalList.replace L (VPos q) e' w')) ∧
    returns (PositionalList.before L (VPos q) w') ∧
    returns (PositionalList.after L (VPos q) w') ∧
    (∀ e', returns (PositionalList.add_before L (VPos q) e' w')) ∧
    (∀ e', returns (PositionalList.add_after L (VPos q) e' w')) ∧
    returns (PositionalList.delete L (VPos q) w').
Proof.
  intros Hreach Hq Hval.
  destruct (reachable_inv _ Hreach) as [σ Hinv].
  pose proof (known_ok _ _ _ _ Hinv Hq) as Hok.
  destruct Hinv as [Hwf _]. simpl in Hwf.
  destruct (validate_ok_inv σ w L q w a Hwf Hok Hval)
    as (_ & -> & [d Hc] & Ha).
  destruct (replace_spec σ w L d a e Hwf Hc Ha)
    as (n & Hn & Hel & Hrep & Hwf' & Hext).
  exists n. split; [done|]. cbv zeta.
  set (w' := replaced w a n e) in *.
  assert (Hc' : lists w' !! L = Some d) by done.
  pose proof Ha as Ha'. apply list_elem_of_split in Ha' as (l1 & l2 & Hσ).
  split_and!.
  - done.
  - by apply element_run.
  - apply (element_run w' L a
      {| _element := Some e; _prev := _prev n; _next := _next n |}).
    unfold w', replaced; simpl. apply lookup_insert_eq.
  - done.
  - unfold _DoublyLinkedListBase.__len__, mbind, M_bind, bind, get_list.
    change (lists w') with (lists w). by destruct (lists w !! L).
  - intros b Hb. unfold w', replaced; simpl. by rewrite lookup_insert_ne.
  - intros b. unfold w', replaced; simpl. rewrite nxt_insert, prv_insert.
    unfold nxt, prv. case_decide; [subst; by rewrite Hn|done].
  - intros L' v'. by apply validate_replaced.
  - by apply (validate_live σ w' L d).
  - intros e'. destruct (replace_spec σ w' L d a e' Hwf' Hc' Ha)
      as (n' & _ & _ & -> & _). by eexists.
  - rewrite (before_run σ w' L d l1 a l2) by done. by eexists.
  - rewrite (after_run σ w' L d l1 a l2) by done. by eexists.
  - intros e'.
    destruct (add_before_spec σ w' L d l1 a l2 e' Hwf' Hc' Hσ) as [Hr _].
    by eexists.
  - intros e'.
    destruct (add_after_spec σ w' L d l1 a l2 e' Hwf' Hc' Hσ) as [Hr _].
    by eexists.
  - destruct (delete_spec σ w' L d l1 a l2 Hwf' Hc' Hσ) as (n'&_&_&Hr&_).
    by eexists.
Qed.

(** C4, as the code has it: [_validate] raises [TypeError] for an
    argument that is not a Position, and [ValueError] both for a
    Position of another container and for a stale Position; the three
    messages are pairwise different, the classes are two. *)
Theorem validate_error_classes w L v1 q2 a3 n3 :
  (∀ q, v1 ≠ VPos q) → _container q2 ≠ L →
  nodes w !! a3 = Some n3 → _next n3 = None →
  ∃ err1 err2 err3,
    PositionalList._validate L v1 w = (w, inl err1) ∧
    PositionalList._validate L (VPos q2) w = (w, inl err2) ∧
    PositionalList._validate L (VPos (Pos L (Some a3))) w = (w, inl err3) ∧
    class_of err1 = ClsTypeError ∧
    class_of err2 = ClsValueError ∧ class_of err3 = ClsValueError ∧
    message_of err1 ≠ message_of err2 ∧ message_of err1 ≠ message_of err3 ∧
    message_of err2 ≠ message_of err3.
Proof.
  intros H1 H2 H3 H3'.
  exists (TypeError "p must be proper Position type"),
    (ValueError "p does not belong to this container"),
    (ValueError "p is no longer valid").
  split_and!; try done.
  - by apply validate_not_position.
  - by apply validate_other_container.
  - apply fails_validation_run. right; right. by exists a3, n3.
Qed.

Lemma is_empty_inv L w b :
  _DoublyLinkedListBase.is_empty L w = (w, inr b) →
  ∃ d, lists w !! L = Some d ∧ b = bool_decide (_size d = 0).
Proof.
  unfold _DoublyLinkedListBase.is_empty. unfold_m.
  destruct (lists w !! L) as [d|]; [|done]. intros [= <-]. by exists d.
Qed.

Lemma size_zero_nil σ w L d :
  wf_with σ w → lists w !! L = Some d → (_size d = 0 ↔ σ L = []).
Proof.
  intros [Hl _] Hc. destruct (Hl _ _ Hc) as [_ _ _ _ _ _ _ I8].
  rewrite I8. destruct (σ L); simpl; split; (done || lia).
Qed.

(** C5, as the code has it: on a list with no element, [first()] and
    [last()] of the positional list raise nothing and return [None]; it
    is the [first()] and [last()] of the linked deque that raise
    [Empty]. *)
Theorem first_last_on_empty_list w ps L :
  reachable (w, ps) →
  _DoublyLinkedListBase.is_empty L w = (w, inr true) →
  PositionalList.first L w = (w, inr None) ∧
  PositionalList.last L w = (w, inr None) ∧
  Deque.first L w = (w, inl Empty) ∧
  Deque.last L w = (w, inl Empty).
Proof.
  intros Hreach Hemp.
  destruct (reachable_inv _ Hreach) as [σ [Hwf _]]. simpl in Hwf.
  destruct (is_empty_inv _ _ _ Hemp) as (d & Hc & Hb).
  symmetry in Hb. apply bool_decide_eq_true in Hb.
  pose proof (proj1 (size_zero_nil σ w L d Hwf Hc) Hb) as Hσ.
  split_and!.
  - rewrite (first_run σ w L d) by done. by rewrite Hσ.
  - rewrite (last_run σ w L d) by done. by rewrite Hσ.
  - unfold Deque.first, mbind, M_bind, bind. by rewrite Hemp.
  - unfold Deque.last, mbind, M_bind, bind. by rewrite Hemp.
Qed.

(** C6: [first()] returns [None] if and only if the list is empty, and
    so does [last()]; and right after [add_first(e)], [first()] is the
    Position just returned and its element is [e]. *)
Theorem first_last_None_iff_empty w ps L d :
  reachable (w, ps) → lists w !! L = Some d →
  (∃ o, PositionalList.first L w = (w, inr o) ∧
     (o = None ↔ _DoublyLinkedListBase.is_empty L w = (w, inr true))) ∧
  (∃ o, PositionalList.last L w = (w, inr o) ∧
     (o = None ↔ _DoublyLinkedListBase.is_empty L w = (w, inr true))) ∧
  (∀ e, ∃ w1 q,
     PositionalList.add_first L e w = (w1, inr (Some q)) ∧
     PositionalList.first L w1 = (w1, inr (Some q)) ∧
     PositionalList.element q w1 = (w1, inr (Some e))).
Proof.
  intros Hreach Hc.
  destruct (reachable_inv _ Hreach) as [σ [Hwf _]]. simpl in Hwf.
  pose proof (size_zero_nil σ w L d Hwf Hc) as Hsz.
  assert (Hemp : _DoublyLinkedListBase.is_empty L w =
                   (w, inr (bool_decide (_size d = 0)))).
  { unfold _DoublyLinkedListBase.is_empty. unfold_m. by rewrite Hc. }
  assert (Hiff : σ L = [] ↔
            _DoublyLinkedListBase.is_empty L w = (w, inr true)).
  { rewrite Hemp, <- Hsz. split.
    - intros ?. by rewrite bool_decide_eq_true_2.
    - intros [= E]. by apply bool_decide_eq_true in E. }
  split_and!.
  - eexists. split; [by apply (first_run σ w L d)|].
    rewrite <- Hiff. by destruct (σ L).
  - eexists. split; [by apply (last_run σ w L d)|].
    rewrite <- Hiff. by destruct (σ L).
  - intros e.
    destruct (add_first_spec σ w L d e Hwf Hc)
      as (Hr & Hwf' & _ & Hlists & _ & He).
    destruct (PositionalList.add_first L e w) as [w1 r] eqn:Hadd.
    simpl in *. subst r. eexists w1, _. split; [done|].
    assert (Hc1 : lists w1 !! L = Some
      {| _header := _header d; _trailer := _trailer d;
         _size := _size d + 1 |}) by (by rewrite Hlists, lookup_insert_eq).
    split.
    + rewrite (first_run _ w1 L _ Hwf' Hc1). by rewrite fn_lookup_insert.
    + unfold elt in He.
      destruct (nodes w1 !! fresh (dom (nodes w))) as [n|] eqn:Hn; [|done].
      simpl in He. rewrite (element_run w1 L _ n Hn). by rewrite He.
Qed.

(** C8, as the code has it: on a list that is not empty,
    [before(first())] and [after(last())] both return [None]; on an
    empty list [first()] and [last()] are [None] themselves, and
    [before] and [after] reject [None] with a [TypeError]. *)
Theorem before_first_after_last w ps L b :
  reachable (w, ps) →
  _DoublyLinkedListBase.is_empty L w = (w, inr b) →
  let outcome :=
    if b then inl (TypeError "p must be proper Position type")
    else inr None in
  before_first L w = (w, outcome) ∧ after_last L w = (w, outcome).
Proof.
  intros Hreach Hemp.
  destruct (reachable_inv _ Hreach) as [σ [Hwf _]]. simpl in Hwf.
  destruct (is_empty_inv _ _ _ Hemp) as (d & Hc & ->).
  pose proof (size_zero_nil σ w L d Hwf Hc) as Hsz.
  unfold before_first, after_last, mbind, M_bind, bind. cbv zeta.
  rewrite (first_run σ w L d), (last_run σ w L d) by done.
  destruct (σ L) as [|a l] eqn:Hσ.
  - rewrite bool_decide_eq_true_2 by (by apply Hsz). done.
  - rewrite bool_decide_eq_false_2 by (rewrite Hsz; done). simpl.
    split.
    + by rewrite (before_run σ w L d [] a l).
    + destruct (snoc_lastd a l) as [l1 Hl1].
      rewrite (after_run σ w L d l1 (lastd a l) []); [done..|].
      by rewrite Hσ.
Qed.

(** The traversal of [__iter__] visits the live nodes, in order. *)
Lemma iter_from_chain w p l t fuel :
  linked (nodes w) p (l ++ [t]) → t ∉ l → (length l < fuel)%nat →
  _DoublyLinkedListBase.iter_from fuel t (Some (headd l t)) w =
    (w, inr (Some (elt (nodes w) <$> l))).
Proof.
  revert p fuel. induction l as [|a l IH]; intros p fuel Hl Ht Hf;
    (destruct fuel as [|fuel]; [simpl in Hf; lia|]); simpl.
  - by rewrite decide_True.
  - rewrite decide_False by (intros [= ->]; set_solver).
    destruct Hl as (_ & Hp & Hl). apply prv_Some in Hp as (n & Hn & _).
    pose proof Hl as Hl'. rewrite headd_tail in Hl'.
    destruct Hl' as (Hnx & _). apply nxt_Some in Hnx as (n' & Hn' & Hnx).
    assert (n' = n) as -> by congruence.
    unfold_m. simpl. rewrite Hn, Hnx.
    rewrite (IH a fuel Hl) by (set_solver || (simpl in Hf; lia)).
    simpl. unfold elt at 2. by rewrite Hn.
Qed.

Lemma iter_run σ w L d fuel :
  wf_with σ w → lists w !! L = Some d → (length (σ L) < fuel)%nat →
  _DoublyLinkedListBase.__iter__ fuel L w =
    (w, inr (Some (elt (nodes w) <$> σ L))).
Proof.
  intros Hwf Hc Hf. destruct (header_node σ w L d Hwf Hc) as (n & Hn & Hnx).
  destruct Hwf as [Hl _]. destruct (Hl _ _ Hc) as [I1 I2 _ _ _ _ _ _].
  unfold _DoublyLinkedListBase.__iter__. unfold_m. rewrite Hc, Hn, Hnx.
  apply (iter_from_chain w (_header d)); [done| |done].
  unfold full in I1. apply NoDup_cons in I1 as [_ I1].
  apply NoDup_app in I1 as (_ & I1 & _). intros Hin.
  eapply I1; [done|set_solver].
Qed.

(** C7: from the construction of a list on, and whatever is called, its
    size is the number of insertions into it minus the number of
    deletions from it that have succeeded, and it is the number of nodes
    that the traversal from the header to the trailer meets. *)
Theorem size_is_adds_minus_deletes w0 ps0 w1 L tr w2 ps2 :
  reachable (w0, ps0) →
  _DoublyLinkedListBase.__init__ w0 = (w1, inr L) →
  steps (w1, ps0) tr (w2, ps2) →
  let n := Z.of_nat (adds L tr) - Z.of_nat (deletes L tr) in
  _DoublyLinkedListBase.__len__ L w2 = (w2, inr n) ∧
  ∀ fuel, n < Z.of_nat fuel →
    ∃ elems, _DoublyLinkedListBase.__iter__ fuel L w2 =
               (w2, inr (Some elems)) ∧
             Z.of_nat (length elems) = n.
Proof.
  intros Hreach Hinit Hsteps.
  destruct (reachable_inv _ Hreach) as [σ0 Hinv0].
  assert (Hstep : step (w0, ps0) (CNew, inr (RList L)) (w1, ps0)).
  { apply (step_call w0 ps0 CNew w1 (inr (RList L))); [done|].
    unfold exec. rewrite bind_ret_run. by rewrite Hinit. }
  destruct (step_inv _ _ _ _ Hinv0 Hstep) as (σ1 & Hinv1 & _ & _).
  rewrite init_run in Hinit. injection Hinit as <- <-.
  destruct (steps_inv _ _ _ _ Hinv1 Hsteps) as (σ2 & [Hwf2 _] & _ & Hsz).
  simpl in Hsz, Hwf2.
  destruct (Hsz (fresh (dom (lists w0))) _ (lookup_insert_eq _ _ _))
    as (d2 & Hc2 & _ & _ & Hsize).
  simpl in Hsize. cbv zeta. split.
  - unfold _DoublyLinkedListBase.__len__. unfold_m. rewrite Hc2.
    do 2 f_equal. lia.
  - intros fuel Hfuel.
    pose proof (inv_size _ _ _ (wf_lists _ _ Hwf2 _ _ Hc2)) as Hlen.
    eexists. split.
    + apply (iter_run σ2 w2 _ d2); [done..|]. lia.
    + rewrite length_fmap. lia.
Qed.

End Properties.

(** * The properties on concrete lists of integers *)

Section Concrete.
Local Open Scope positive_scope.

Lemma reachable_eta {T} (cfg : config T) :
  reachable cfg → reachable (cfg.1, cfg.2).
Proof. by destruct cfg. Qed.

Lemma steps_eta {T} (cfg cfg' : config T) tr :
  steps cfg tr cfg' → steps cfg tr (cfg'.1, cfg'.2).
Proof. by destruct cfg'. Qed.

Lemma demo_reachable : reachable (demo_world, demo_known).
Proof.
  apply (reachable_eta (run demo_script (empty_world, []))).
  apply run_reachable. vm_compute. tauto.
Qed.

Lemma empty_list_reachable : reachable (empty_list_world, []).
Proof.
  apply (reachable_eta (run [CNew] ((empty_world, []) : config Z))).
  apply run_reachable. vm_compute. tauto.
Qed.



Lemma emptied_reachable : reachable (emptied_world, emptied_known).
Proof.
  apply (reachable_eta (run emptied_script (empty_world, []))).
  apply run_reachable. vm_compute. repeat split. repeat constructor.
Qed.

Lemma demo_later_steps :
  steps (demo_deleted, demo_known) demo_later_trace
    (demo_later.1, demo_later.2).
Proof. apply steps_eta, run_steps. vm_compute. tauto. Qed.

End Concrete.

Section Instances.
Local Open Scope positive_scope.

(** C1 on the first list: [pos10] is deleted, 30 is added, and [before]
    and [delete] then reject [pos10] as stale. *)
Lemma stale_position_after_delete_witness :
  reachable (demo_world, demo_known) ∧ pos10 ∈ demo_known ∧
  PositionalList.delete 1 (VPos pos10) demo_world =
    (demo_deleted, inr (Some 10%Z)) ∧
  PositionalList.before 1 (VPos pos10) demo_later.1 =
    (demo_later.1, inl (ValueError "p is no longer valid")) ∧
  PositionalList.delete 1 (VPos pos10) demo_later.1 =
    (demo_later.1, inl (ValueError "p is no longer valid")).
Proof.
  assert (H1 : reachable (demo_world, demo_known)) by apply demo_reachable.
  assert (H2 : pos10 ∈ demo_known) by (vm_compute; repeat constructor).
  assert (H3 : PositionalList.delete 1 (VPos pos10) demo_world =
                 (demo_deleted, inr (Some 10%Z)))
    by (vm_compute; reflexivity).
  pose proof (stale_position_after_delete demo_world demo_known 1 pos10
    demo_deleted (Some 10%Z) demo_later_trace demo_later.1 demo_later.2
    H1 H2 H3
    demo_later_steps) as H.
  cbv zeta in H. destruct H as (_ & Hb & _ & _ & _ & Hd & _).
  repeat split; assumption.
Defined.

(** C9 on the same run: [pos10.element()] is [None] afterwards. *)
Lemma element_of_deleted_position_is_None_witness :
  PositionalList.delete 1 (VPos pos10) demo_world =
    (demo_deleted, inr (Some 10%Z)) ∧
  PositionalList.element pos10 demo_later.1 = (demo_later.1, inr None).
Proof.
  assert (H3 : PositionalList.delete 1 (VPos pos10) demo_world =
                 (demo_deleted, inr (Some 10%Z)))
    by (vm_compute; reflexivity).
  split; [exact H3|].
  apply (element_of_deleted_position_is_None demo_world demo_known 1 pos10
    demo_deleted (Some 10%Z) demo_later_trace demo_later.1 demo_later.2).
  - apply demo_reachable.
  - vm_compute. repeat constructor.
  - exact H3.
  - apply demo_later_steps.
Defined.

(** C2 on [pos10]: 10 is replaced by 99. *)
Lemma replace_returns_old_and_keeps_position_witness :
  PositionalList._validate 1 (VPos pos10) demo_world = (demo_world, inr 5) ∧
  ∃ n, nodes demo_world !! 5 = Some n ∧
    PositionalList.replace 1 (VPos pos10) 99%Z demo_world =
      (replaced demo_world 5 n 99%Z, inr (_element n)).
Proof.
  assert (H3 : PositionalList._validate 1 (VPos pos10) demo_world =
                 (demo_world, inr 5)) by (vm_compute; reflexivity).
  split; [exact H3|].
  destruct (replace_returns_old_and_keeps_position demo_world demo_known 1
    pos10 5 99%Z) as (n & Hn & Hr & _).
  - apply demo_reachable.
  - vm_compute. repeat constructor.
  - exact H3.
  - exists n. split; assumption.
Defined.

(** C3 on [pos7], which belongs to the second list and is passed to the
    first. *)
Lemma position_errors_leave_store_unmodified_witness :
  _container pos7 ≠ 1 ∧
  PositionalList.delete 1 (VPos pos7) demo_world =
    (demo_world, inl (ValueError "p does not belong to this container")).
Proof.
  assert (H : _container pos7 ≠ 1) by (vm_compute; discriminate).
  split; [exact H|].
  apply (position_errors_leave_store_unmodified demo_world 1 (VPos pos7)).
  right; left. exists pos7. repeat split. exact H.
Defined.

(** C4 as claimed fails: on the first list, after [pos10] has been
    deleted, the Position of another container and the stale Position
    are both rejected with a [ValueError]; the class of the error does
    not tell the two failures apart. *)
Lemma validate_error_classes_coincide :
  _container pos7 ≠ 1 ∧ nxt (nodes demo_deleted) 5 = None ∧
  PositionalList._validate 1 (VPos pos7) demo_deleted =
    (demo_deleted, inl (ValueError "p does not belong to this container")) ∧
  PositionalList._validate 1 (VPos pos10) demo_deleted =
    (demo_deleted, inl (ValueError "p is no longer valid")) ∧
  class_of (ValueError "p does not belong to this container") =
    class_of (ValueError "p is no longer valid").
Proof.
  repeat split; try (vm_compute; reflexivity). vm_compute. discriminate.
Qed.

(** C4 as amended, on the same store. *)
Lemma validate_error_classes_witness :
  ∃ err1 err2 err3,
    PositionalList._validate 1 VNone demo_deleted = (demo_deleted, inl err1) ∧
    PositionalList._validate 1 (VPos pos7) demo_deleted =
      (demo_deleted, inl err2) ∧
    PositionalList._validate 1 (VPos pos10) demo_deleted =
      (demo_deleted, inl err3) ∧
    class_of err1 = ClsTypeError ∧
    class_of err2 = ClsValueError ∧ class_of err3 = ClsValueError.
Proof.
  destruct (validate_error_classes demo_deleted 1 VNone pos7 5 dead)
    as (err1 & err2 & err3 & H1 & H2 & H3 & H4 & H5 & H6 & _).
  - intros q. discriminate.
  - vm_compute. discriminate.
  - vm_compute. reflexivity.
  - reflexivity.
  - exists err1, err2, err3. repeat split; assumption.
Defined.

(** C5 as claimed fails: on an empty list [first()] and [last()] return
    [None]; they do not raise [Empty]. *)
Lemma first_on_empty_list_is_not_an_error :
  _DoublyLinkedListBase.is_empty 1 empty_list_world =
    (empty_list_world, inr true) ∧
  PositionalList.first 1 empty_list_world = (empty_list_world, inr None) ∧
  PositionalList.last 1 empty_list_world = (empty_list_world, inr None) ∧
  (PositionalList.first 1 empty_list_world).2 ≠ inl Empty ∧
  (PositionalList.last 1 empty_list_world).2 ≠ inl Empty.
Proof.
  repeat split; try (vm_compute; reflexivity); vm_compute; discriminate.
Qed.

(** C5 as amended, on the empty list. *)
Lemma first_last_on_empty_list_witness :
  _DoublyLinkedListBase.is_empty 1 empty_list_world =
    (empty_list_world, inr true) ∧
  PositionalList.first 1 empty_list_world = (empty_list_world, inr None) ∧
  Deque.first 1 empty_list_world = (empty_list_world, inl Empty).
Proof.
  assert (H : _DoublyLinkedListBase.is_empty 1 empty_list_world =
                (empty_list_world, inr true)) by (vm_compute; reflexivity).
  destruct (first_last_on_empty_list empty_list_world [] 1
              empty_list_reachable H) as (H1 & _ & H3 & _).
  repeat split; assumption.
Defined.

(** C6 on the first list: 30 is added in front and is then the first
    element. *)
Lemma first_last_None_iff_empty_witness :
  lists demo_world !! 1 = Some (MkList 1 2 2%Z) ∧
  ∃ w1 q,
    PositionalList.add_first 1 30%Z demo_world = (w1, inr (Some q)) ∧
    PositionalList.first 1 w1 = (w1, inr (Some q)) ∧
    PositionalList.element q w1 = (w1, inr (Some 30%Z)).
Proof.
  assert (H : lists demo_world !! 1 = Some (MkList 1 2 2%Z))
    by (vm_compute; reflexivity).
  split; [exact H|].
  destruct (first_last_None_iff_empty demo_world demo_known 1 _
              demo_reachable H) as (_ & _ & H3).
  exact (H3 30%Z).
Defined.

(** C8 as claimed fails on the empty list: [first()] is [None] and
    [before] rejects it. *)
Lemma before_first_on_empty_list_raises :
  before_first 1 empty_list_world =
    (empty_list_world, inl (TypeError "p must be proper Position type")) ∧
  after_last 1 empty_list_world =
    (empty_list_world, inl (TypeError "p must be proper Position type")) ∧
  before_first 1 empty_list_world ≠ (empty_list_world, inr None).
Proof.
  repeat split; try (vm_compute; reflexivity). vm_compute. discriminate.
Qed.

(** C8 as amended, on the first list, which holds two elements. *)
Lemma before_first_after_last_witness :
  _DoublyLinkedListBase.is_empty 1 demo_world = (demo_world, inr false) ∧
  before_first 1 demo_world = (demo_world, inr None) ∧
  after_last 1 demo_world = (demo_world, inr None).
Proof.
  assert (H : _DoublyLinkedListBase.is_empty 1 demo_world =
                (demo_world, inr false)) by (vm_compute; reflexivity).
  split; [exact H|].
  exact (before_first_after_last demo_world demo_known 1 false
           demo_reachable H).
Defined.

(** C10 on the list that has been emptied: it is empty, and [delete]
    with the Position of the element it held fails in [_validate], not
    with [Empty]; and on the first list of [demo_world], where [pos10]
    passes validation, the list is not empty and [delete] returns. *)
Lemma delete_never_raises_Empty_witness :
  (_DoublyLinkedListBase.is_empty 1 emptied_world =
     (emptied_world, inr true) ∧
   emptied_pos ∈ emptied_known ∧
   (PositionalList.delete 1 (VPos emptied_pos) emptied_world).2 ≠
     inl Empty ∧
   PositionalList._validate 1 (VPos emptied_pos) emptied_world =
     (emptied_world, inl (ValueError "p is no longer valid"))) ∧
  (pos10 ∈ demo_known ∧
   (PositionalList._validate 1 (VPos pos10) demo_world).2 = inr 5 ∧
   _DoublyLinkedListBase.is_empty 1 demo_world = (demo_world, inr false) ∧
   returns (PositionalList.delete 1 (VPos pos10) demo_world)).
Proof.
  assert (H1 : _DoublyLinkedListBase.is_empty 1 emptied_world =
                 (emptied_world, inr true)) by (vm_compute; reflexivity).
  assert (H2 : emptied_pos ∈ emptied_known)
    by (vm_compute; repeat constructor).
  assert (H3 : PositionalList.delete 1 (VPos emptied_pos) emptied_world =
    (emptied_world, inl (ValueError "p is no longer valid")))
    by (vm_compute; reflexivity).
  assert (H4 : pos10 ∈ demo_known) by (vm_compute; repeat constructor).
  assert (H5 : (PositionalList._validate 1 (VPos pos10) demo_world).2 =
                 inr 5) by (vm_compute; reflexivity).
  destruct (delete_never_raises_Empty emptied_world emptied_known 1
    (VPos emptied_pos) emptied_reachable H2) as (Hne & Hfail & _).
  destruct (Hfail _ _ H3) as (_ & Hval & _).
  destruct (delete_never_raises_Empty demo_world demo_known 1
    (VPos pos10) demo_reachable H4) as (_ & _ & Hok).
  destruct (Hok 5 H5) as (d & _ & _ & Hemp & Hret).
  repeat split; assumption.
Defined.

(** C10 as claimed, for every argument, fails: a Position that has not
    come from the interface but has been built on the header sentinel of
    an empty list passes [_validate] (it names this container, and the
    [_next] of the header is the trailer), and [_delete_node] then
    raises [Empty]. *)
Lemma delete_of_sentinel_position_raises_Empty :
  reachable (empty_list_world, []) ∧
  lists empty_list_world !! 1 = Some (MkList 1 2 0%Z) ∧
  PositionalList._validate 1 (VPos (Pos 1 (Some 1))) empty_list_world =
    (empty_list_world, inr 1) ∧
  PositionalList.delete 1 (VPos (Pos 1 (Some 1))) empty_list_world =
    (empty_list_world, inl Empty).
Proof.
  split; [apply empty_list_reachable|].
  repeat split; vm_compute; reflexivity.
Qed.

(** C7 on the third list: two insertions and one successful deletion
    leave it with one element. *)
Lemma size_is_adds_minus_deletes_witness :
  _DoublyLinkedListBase.__init__ demo_world = (third_list_start, inr 3) ∧
  let cfg := run third_list_script (third_list_start, demo_known) in
  let tr := trace_of third_list_script (third_list_start, demo_known) in
  adds 3 tr = 2%nat ∧ deletes 3 tr = 1%nat ∧
  _DoublyLinkedListBase.__len__ 3 cfg.1 = (cfg.1, inr 1%Z).
Proof.
  assert (H : _DoublyLinkedListBase.__init__ demo_world =
                (third_list_start, inr 3)) by (vm_compute; reflexivity).
  split; [exact H|]. cbv zeta.
  assert (Hs : steps (third_list_start, demo_known)
            (trace_of third_list_script (third_list_start, demo_known))
            ((run third_list_script (third_list_start, demo_known)).1,
             (run third_list_script (third_list_start, demo_known)).2)).
  { apply steps_eta, run_steps. vm_compute. repeat split; repeat constructor. }
  destruct (size_is_adds_minus_deletes demo_world demo_known
              third_list_start 3 _ _ _ demo_reachable H Hs) as [Hlen _].
  assert (Ha : adds 3 (trace_of third_list_script
                         (third_list_start, demo_known)) = 2%nat)
    by (vm_compute; reflexivity).
  assert (Hd : deletes 3 (trace_of third_list_script
                            (third_list_start, demo_known)) = 1%nat)
    by (vm_compute; reflexivity).
  cbv zeta in Hlen. rewrite Ha, Hd in Hlen.
  repeat split; assumption.
Defined.

End Instances.

(** * Iteration and the contents of a list *)

Section Contents.
Context {T : Type}.
Implicit Types (w : World T) (h : gmap loc (_Node T)) (d : ListObj).
Implicit Types (a b c p t L : loc) (l ls : list loc) (σ : loc → list loc).
Implicit Types (q : Position) (v : value T) (ps : list Position).
Implicit Types (e : T) (xs : list (option T)).

(** The loop of [__iter__], started at any point of the chain. *)
Lemma iter_cursor_run σ w L d l1 l2 fuel :
  wf_with σ w → lists w !! L = Some d → σ L = l1 ++ l2 →
  (length l2 < fuel)%nat →
  PositionalList.iter_cursor fuel L
    (match l2 with [] => None | a :: _ => Some (Pos L (Some a)) end) w =
    (w, inr (Some (elt (nodes w) <$> l2))).
Proof.
  intros Hwf Hc. revert l1 fuel.
  induction l2 as [|a l2 IH]; intros l1 fuel Hσ Hf;
    (destruct fuel as [|fuel]; [simpl in Hf; lia|]); simpl; [done|].
  destruct (live_node σ w L d l1 a l2 Hwf Hc Hσ) as (n&?&?&Hn&_).
  unfold mbind, M_bind, bind.
  rewrite (element_run w L a n Hn), (after_run σ w L d l1 a l2) by done.
  rewrite (IH (l1 ++ [a]) fuel);
    [|by rewrite <- app_assoc|simpl in Hf; lia].
  unfold_m. simpl. unfold elt at 2. by rewrite Hn.
Qed.

Lemma positional_iter_run σ w L d fuel :
  wf_with σ w → lists w !! L = Some d → (length (σ L) < fuel)%nat →
  PositionalList.__iter__ fuel L w = (w, inr (Some (elt (nodes w) <$> σ L))).
Proof.
  intros Hwf Hc Hf. unfold PositionalList.__iter__, mbind, M_bind, bind.
  rewrite (first_run σ w L d) by done.
  by apply (iter_cursor_run σ w L d []).
Qed.

Lemma yields_positional σ w L d :
  wf_with σ w → lists w !! L = Some d →
  yields PositionalList.__iter__ L w (elt (nodes w) <$> σ L).
Proof.
  intros Hwf Hc fuel Hf. rewrite length_fmap in Hf.
  by apply (positional_iter_run σ w L d).
Qed.

Lemma yields_base σ w L d :
  wf_with σ w → lists w !! L = Some d →
  yields _DoublyLinkedListBase.__iter__ L w (elt (nodes w) <$> σ L).
Proof.
  intros Hwf Hc fuel Hf. rewrite length_fmap in Hf.
  by apply (iter_run σ w L d).
Qed.

Lemma yields_unique iter L w xs ys :
  yields iter L w xs → yields iter L w ys → xs = ys.
Proof.
  intros Hx Hy.
  specialize (Hx (S (length xs `max` length ys)) ltac:(lia)).
  specialize (Hy (S (length xs `max` length ys)) ltac:(lia)).
  congruence.
Qed.

Lemma yields_positional_inv σ w L d xs :
  wf_with σ w → lists w !! L = Some d →
  yields PositionalList.__iter__ L w xs → xs = elt (nodes w) <$> σ L.
Proof.
  intros Hwf Hc Hx. eapply yields_unique; [exact Hx|].
  by eapply yields_positional.
Qed.

Lemma yields_base_inv σ w L d xs :
  wf_with σ w → lists w !! L = Some d →
  yields _DoublyLinkedListBase.__iter__ L w xs → xs = elt (nodes w) <$> σ L.
Proof.
  intros Hwf Hc Hx. eapply yields_unique; [exact Hx|].
  by eapply yields_base.
Qed.

(** X1: on every list of a reachable store, the iteration of the
    positional list, which moves a Position with [first] and [after], and
    the traversal of the base class, which follows the [_next] slots,
    both reach the end, yield the same elements in the same order, and
    yield as many as [__len__] says; neither writes to the store. *)
Theorem positional_iter_agrees_with_base w ps L d :
  reachable (w, ps) → lists w !! L = Some d →
  ∃ xs, yields PositionalList.__iter__ L w xs ∧
        yields _DoublyLinkedListBase.__iter__ L w xs ∧
        _DoublyLinkedListBase.__len__ L w = (w, inr (Z.of_nat (length xs))).
Proof.
  intros Hreach Hc. destruct (reachable_inv _ Hreach) as [σ [Hwf _]].
  simpl in Hwf. exists (elt (nodes w) <$> σ L). split_and!.
  - by eapply yields_positional.
  - by eapply yields_base.
  - unfold _DoublyLinkedListBase.__len__. unfold_m. rewrite Hc.
    rewrite length_fmap, <- (inv_size _ _ _ (wf_lists _ _ Hwf _ _ Hc)). done.
Qed.
End Contents.

(** * What the mutators do to the contents *)

Section Mutations.
Context {T : Type}.
Implicit Types (w : World T) (h : gmap loc (_Node T)) (d : ListObj).
Implicit Types (a b c p t L : loc) (l ls : list loc) (σ : loc → list loc).
Implicit Types (q : Position) (v : value T) (ps : list Position).
Implicit Types (e : T) (xs : list (option T)).

Lemma inserted_keeps w c d e pred succ np ns :
  nodes w !! pred = Some np → nodes w !! succ = Some ns →
  keeps_elements w (inserted w c d e pred succ np ns).
Proof.
  intros Hp Hs x [n Hx]. unfold inserted; simpl. rewrite !elt_insert.
  repeat case_decide; subst; unfold elt.
  - by rewrite Hs.
  - by rewrite Hp.
  - by destruct (fresh_node_ne _ _ _ Hx).
  - done.
Qed.

Lemma deleted_keeps w c d a pred succ np ns x :
  nodes w !! pred = Some np → nodes w !! succ = Some ns → x ≠ a →
  elt (nodes (deleted w c d a pred succ np ns)) x = elt (nodes w) x.
Proof.
  intros Hp Hs Hx. unfold deleted; simpl. rewrite !elt_insert.
  repeat case_decide; subst; unfold elt; try done.
  - by rewrite Hs.
  - by rewrite Hp.
Qed.

Lemma replaced_keeps w a n e x :
  x ≠ a → elt (nodes (replaced w a n e)) x = elt (nodes w) x.
Proof. intros Hx. unfold replaced; simpl. rewrite elt_insert. by case_decide. Qed.

Lemma fmap_elt_ext h h' l :
  (∀ x, x ∈ l → elt h' x = elt h x) → elt h' <$> l = elt h <$> l.
Proof.
  intros H. apply list_fmap_ext. intros i x Hx. apply H.
  by eapply list_elem_of_lookup_2.
Qed.

Lemma base_insert_keeps σ w c d e l1 l2 :
  wf_with σ w → lists w !! c = Some d → σ c = l1 ++ l2 →
  keeps_elements w
    (_DoublyLinkedListBase._insert_between c e
       (Some (lastd (_header d) l1)) (Some (headd l2 (_trailer d))) w).1.
Proof.
  intros Hwf Hc Hσ.
  destruct (adjacent_nodes σ w c d l1 l2 Hwf Hc Hσ)
    as (np & ns & Hnp & Hns & _ & _ & Hne).
  rewrite (insert_between_run w c d e _ _ np ns) by done.
  by apply inserted_keeps.
Qed.

Lemma insert_between_keeps σ w c d e l1 l2 :
  wf_with σ w → lists w !! c = Some d → σ c = l1 ++ l2 →
  keeps_elements w
    (PositionalList._insert_between c e
       (Some (lastd (_header d) l1)) (Some (headd l2 (_trailer d))) w).1.
Proof.
  intros Hwf Hc Hσ.
  pose proof (base_insert_keeps σ w c d e l1 l2 Hwf Hc Hσ) as Hk.
  unfold PositionalList._insert_between, mbind, M_bind, bind.
  destruct (_DoublyLinkedListBase._insert_between c e _ _ w) as [w1 [err|a]];
    [done|].
  by rewrite make_position_unchanged.
Qed.

Lemma add_first_keeps σ w c d e :
  wf_with σ w → lists w !! c = Some d →
  keeps_elements w (PositionalList.add_first c e w).1.
Proof.
  intros Hwf Hc. destruct (header_node σ w c d Hwf Hc) as (n & Hn & Hnx).
  unfold PositionalList.add_first. unfold_m. rewrite Hc, Hn, Hnx.
  by apply (insert_between_keeps σ w c d e [] (σ c)).
Qed.

Lemma add_last_keeps σ w c d e :
  wf_with σ w → lists w !! c = Some d →
  keeps_elements w (PositionalList.add_last c e w).1.
Proof.
  intros Hwf Hc. destruct (trailer_node σ w c d Hwf Hc) as (n & Hn & Hpv).
  unfold PositionalList.add_last. unfold_m. rewrite Hc, Hn, Hpv.
  apply (insert_between_keeps σ w c d e (σ c) []); [done..|].
  by rewrite app_nil_r.
Qed.

Lemma add_before_keeps σ w c d l1 a l2 e :
  wf_with σ w → lists w !! c = Some d → σ c = l1 ++ a :: l2 →
  keeps_elements w (PositionalList.add_before c (VPos (Pos c (Some a))) e w).1.
Proof.
  intros Hwf Hc Hσ.
  destruct (live_node σ w c d l1 a l2 Hwf Hc Hσ) as (n&?&?&Hn&Hp&?).
  unfold PositionalList.add_before. unfold mbind at 1, M_bind, bind.
  rewrite (validate_live σ w c d) by (done || rewrite Hσ; set_solver).
  unfold_m. rewrite Hn, Hp.
  by apply (insert_between_keeps σ w c d e l1 (a :: l2)).
Qed.

Lemma add_after_keeps σ w c d l1 a l2 e :
  wf_with σ w → lists w !! c = Some d → σ c = l1 ++ a :: l2 →
  keeps_elements w (PositionalList.add_after c (VPos (Pos c (Some a))) e w).1.
Proof.
  intros Hwf Hc Hσ.
  destruct (live_node σ w c d l1 a l2 Hwf Hc Hσ) as (n&?&?&Hn&?&Hnx&?).
  unfold PositionalList.add_after. unfold mbind at 1, M_bind, bind.
  rewrite (validate_live σ w c d) by (done || rewrite Hσ; set_solver).
  unfold_m. rewrite Hn, Hnx.
  pose proof (insert_between_keeps σ w c d e (l1 ++ [a]) l2 Hwf Hc) as H'.
  rewrite lastd_snoc in H'. apply H'. by rewrite <- app_assoc.
Qed.

Lemma delete_keeps σ w c d l1 a l2 x :
  wf_with σ w → lists w !! c = Some d → σ c = l1 ++ a :: l2 → x ≠ a →
  elt (nodes (PositionalList.delete c (VPos (Pos c (Some a))) w).1) x =
    elt (nodes w) x.
Proof.
  intros Hwf Hc Hσ Hx.
  destruct (live_node σ w c d l1 a l2 Hwf Hc Hσ)
    as (n&np&ns&Hn&Hp&Hnx&Hel&Hnp&Hns&Hps&Hap&Has&_).
  assert (Hsz : _size d ≠ 0).
  { destruct Hwf as [Hl _]. destruct (Hl _ _ Hc) as [_ _ _ _ _ _ _ I8].
    rewrite I8, Hσ, length_app. simpl. lia. }
  unfold PositionalList.delete, mbind, M_bind, bind.
  rewrite (validate_live σ w c d) by (done || rewrite Hσ; set_solver).
  rewrite (delete_node_run w c d a n _ _ np ns) by done.
  by apply deleted_keeps.
Qed.

(** The view of a list after an insertion between [l1] and [l2]. *)
Lemma insert_view σ w c d e l1 l2 (r : World T * (exn + option Position)) :
  wf_with σ w → lists w !! c = Some d → σ c = l1 ++ l2 →
  insert_post σ w c d e l1 l2 r → keeps_elements w r.1 →
  let new := fresh (dom (nodes w)) in
  ∃ σ' d', wf_with σ' r.1 ∧ lists r.1 !! c = Some d' ∧
    _header d' = _header d ∧ _trailer d' = _trailer d ∧
    σ' c = l1 ++ new :: l2 ∧ r.2 = inr (Some (Pos c (Some new))) ∧
    (new ∉ l1 ++ l2) ∧
    elt (nodes r.1) new = Some e ∧
    elt (nodes r.1) <$> l1 = elt (nodes w) <$> l1 ∧
    elt (nodes r.1) <$> l2 = elt (nodes w) <$> l2.
Proof.
  intros Hwf Hc Hσ (Hr & Hwf' & _ & Hlists & Hnew & He) Hk. cbv zeta.
  assert (Hal : ∀ x, x ∈ l1 ++ l2 → is_Some (nodes w !! x)).
  { intros x Hx. eapply dll_inv_alloc; [by apply (wf_lists _ _ Hwf)|].
    rewrite Hσ. unfold full. set_solver. }
  eexists _, _. split_and!; [exact Hwf'| | | | |done| |done| |].
  - rewrite Hlists. apply lookup_insert_eq.
  - done.
  - done.
  - by rewrite fn_lookup_insert.
  - intros Hin. apply Hal in Hin as [n Hn]. congruence.
  - apply fmap_elt_ext. intros x Hx. apply Hk, Hal. set_solver.
  - apply fmap_elt_ext. intros x Hx. apply Hk, Hal. set_solver.
Qed.

Lemma yields_list L w xs :
  yields PositionalList.__iter__ L w xs → is_Some (lists w !! L).
Proof.
  intros Hx. specialize (Hx (S (length xs)) ltac:(lia)).
  unfold PositionalList.__iter__, PositionalList.first in Hx. unfold_m.
  destruct (lists w !! L); [eauto|done].
Qed.

Lemma elt_node w a n : nodes w !! a = Some n → elt (nodes w) a = _element n.
Proof. intros Hn. unfold elt. by rewrite Hn. Qed.

Lemma element_elt w c a :
  is_Some (nodes w !! a) →
  PositionalList.element (Pos c (Some a)) w = (w, inr (elt (nodes w) a)).
Proof.
  intros [n Hn]. rewrite (element_run w c a n Hn). by rewrite (elt_node w a n).
Qed.

(** X2: [add_first(e)] puts [e] in front of what the iteration yields;
    the Position it returns is the first one, has nothing before it, and
    is followed by what used to be the first Position. *)
Theorem add_first_prepends w ps L xs e :
  reachable (w, ps) → yields PositionalList.__iter__ L w xs →
  ∃ w1 q,
    PositionalList.add_first L e w = (w1, inr (Some q)) ∧
    yields PositionalList.__iter__ L w1 (Some e :: xs) ∧
    PositionalList.first L w1 = (w1, inr (Some q)) ∧
    PositionalList.before L (VPos q) w1 = (w1, inr None) ∧
    (PositionalList.after L (VPos q) w1).2 = (PositionalList.first L w).2 ∧
    PositionalList.element q w1 = (w1, inr (Some e)).
Proof.
  intros Hreach Hx. destruct (reachable_inv _ Hreach) as [σ [Hwf _]].
  simpl in Hwf. destruct (yields_list _ _ _ Hx) as [d Hc].
  pose proof (yields_positional_inv σ w L d xs Hwf Hc Hx) as ->.
  destruct (insert_view σ w L d e [] (σ L) _ Hwf Hc eq_refl
              (add_first_spec σ w L d e Hwf Hc) (add_first_keeps σ w L d e Hwf Hc))
    as (σ' & d' & Hwf' & Hc' & Hh & Ht & Hσ' & Hr & Hnew & He & _ & Hl2).
  destruct (PositionalList.add_first L e w) as [w1 r]. simpl in *. subst r.
  set (new := fresh (dom (nodes w))) in *.
  exists w1, (Pos L (Some new)). split_and!.
  - done.
  - pose proof (yields_positional σ' w1 L d' Hwf' Hc') as Hy.
    rewrite Hσ', fmap_cons, He, Hl2 in Hy. exact Hy.
  - rewrite (first_run σ' w1 L d') by done. by rewrite Hσ'.
  - by rewrite (before_run σ' w1 L d' [] new (σ L)).
  - rewrite (after_run σ' w1 L d' [] new (σ L)) by done.
    rewrite (first_run σ w L d) by done. simpl. by destruct (σ L).
  - rewrite element_elt; [by rewrite He|].
    unfold elt in He. by destruct (nodes w1 !! new).
Qed.

(** X3: [add_last(e)] puts [e] behind what the iteration yields; the
    Position it returns is the last one, has nothing after it, and is
    preceded by what used to be the last Position. *)
Theorem add_last_appends w ps L xs e :
  reachable (w, ps) → yields PositionalList.__iter__ L w xs →
  ∃ w1 q,
    PositionalList.add_last L e w = (w1, inr (Some q)) ∧
    yields PositionalList.__iter__ L w1 (xs ++ [Some e]) ∧
    PositionalList.last L w1 = (w1, inr (Some q)) ∧
    PositionalList.after L (VPos q) w1 = (w1, inr None) ∧
    (PositionalList.before L (VPos q) w1).2 = (PositionalList.last L w).2 ∧
    PositionalList.element q w1 = (w1, inr (Some e)).
Proof.
  intros Hreach Hx. destruct (reachable_inv _ Hreach) as [σ [Hwf _]].
  simpl in Hwf. destruct (yields_list _ _ _ Hx) as [d Hc].
  pose proof (yields_positional_inv σ w L d xs Hwf Hc Hx) as ->.
  destruct (insert_view σ w L d e (σ L) [] _ Hwf Hc
              ltac:(by rewrite app_nil_r)
              (add_last_spec σ w L d e Hwf Hc) (add_last_keeps σ w L d e Hwf Hc))
    as (σ' & d' & Hwf' & Hc' & Hh & Ht & Hσ' & Hr & Hnew & He & Hl1 & _).
  destruct (PositionalList.add_last L e w) as [w1 r]. simpl in *. subst r.
  set (new := fresh (dom (nodes w))) in *.
  exists w1, (Pos L (Some new)). split_and!.
  - done.
  - pose proof (yields_positional σ' w1 L d' Hwf' Hc') as Hy.
    rewrite Hσ', fmap_app, Hl1, fmap_cons, He in Hy. exact Hy.
  - rewrite (last_run σ' w1 L d') by done. rewrite Hσ'.
    rewrite lastd_snoc. by destruct (σ L).
  - by rewrite (after_run σ' w1 L d' (σ L) new []).
  - rewrite (before_run σ' w1 L d' (σ L) new []) by done.
    rewrite (last_run σ w L d) by done. simpl. rewrite Hh.
    by destruct (σ L).
  - rewrite element_elt; [by rewrite He|].
    unfold elt in He. by destruct (nodes w1 !! new).
Qed.
End Mutations.

(** * Insertion and deletion at a Position *)

Section Splicing.
Context {T : Type}.
Implicit Types (w : World T) (h : gmap loc (_Node T)) (d : ListObj).
Implicit Types (a b c p t L : loc) (l ls : list loc) (σ : loc → list loc).
Implicit Types (q : Position) (v : value T) (ps : list Position).
Implicit Types (e : T) (xs : list (option T)).

(** A Position that passes validation, seen in the chain of its list. *)
Lemma valid_position_view w ps L q a :
  reachable (w, ps) → q ∈ ps →
  PositionalList._validate L (VPos q) w = (w, inr a) →
  ∃ σ d l1 l2, wf_with σ w ∧ q = Pos L (Some a) ∧
    lists w !! L = Some d ∧ σ L = l1 ++ a :: l2.
Proof.
  intros Hreach Hq Hval. destruct (reachable_inv _ Hreach) as [σ Hinv].
  pose proof (known_ok _ _ _ _ Hinv Hq) as Hok.
  destruct Hinv as [Hwf _]. simpl in Hwf.
  destruct (validate_ok_inv σ w L q w a Hwf Hok Hval)
    as (_ & -> & [d Hc] & Ha).
  apply list_elem_of_split in Ha as (l1 & l2 & Hσ).
  by exists σ, d, l1, l2.
Qed.

Lemma live_alloc σ w L d a :
  wf_with σ w → lists w !! L = Some d → a ∈ σ L → is_Some (nodes w !! a).
Proof.
  intros Hwf Hc Ha. eapply dll_inv_alloc; [by apply (wf_lists _ _ Hwf)|].
  unfold full. set_solver.
Qed.

(** X4: [add_before(p, e)] on a valid Position puts [e] immediately
    before the element of [p] in what the iteration yields; the Position
    it returns sits between the former predecessor of [p] and [p]. *)
Theorem add_before_inserts_before w ps L q a xs e :
  reachable (w, ps) → q ∈ ps →
  PositionalList._validate L (VPos q) w = (w, inr a) →
  yields PositionalList.__iter__ L w xs →
  ∃ w1 q' xs1 x xs2,
    PositionalList.add_before L (VPos q) e w = (w1, inr (Some q')) ∧
    PositionalList.element q w = (w, inr x) ∧ xs = xs1 ++ x :: xs2 ∧
    yields PositionalList.__iter__ L w1 (xs1 ++ Some e :: x :: xs2) ∧
    PositionalList.element q' w1 = (w1, inr (Some e)) ∧
    PositionalList.after L (VPos q') w1 = (w1, inr (Some q)) ∧
    PositionalList.before L (VPos q) w1 = (w1, inr (Some q')) ∧
    (PositionalList.before L (VPos q') w1).2 =
      (PositionalList.before L (VPos q) w).2.
Proof.
  intros Hreach Hq Hval Hx.
  destruct (valid_position_view w ps L q a Hreach Hq Hval)
    as (σ & d & l1 & l2 & Hwf & -> & Hc & Hσ).
  pose proof (yields_positional_inv σ w L d xs Hwf Hc Hx) as ->.
  destruct (insert_view σ w L d e l1 (a :: l2) _ Hwf Hc Hσ
              (add_before_spec σ w L d l1 a l2 e Hwf Hc Hσ)
              (add_before_keeps σ w L d l1 a l2 e Hwf Hc Hσ))
    as (σ' & d' & Hwf' & Hc' & Hh & Ht & Hσ' & Hr & Hnew & He & Hl1 & Hl2).
  destruct (PositionalList.add_before L _ e w) as [w1 r]. cbn [fst snd] in *. subst r.
  set (new := fresh (dom (nodes w))) in *.
  assert (Ha : is_Some (nodes w !! a)).
  { apply (live_alloc σ w L d); [done..|]. rewrite Hσ. set_solver. }
  exists w1, (Pos L (Some new)), (elt (nodes w) <$> l1), (elt (nodes w) a),
    (elt (nodes w) <$> l2).
  split_and!.
  - done.
  - by apply element_elt.
  - by rewrite Hσ, fmap_app, fmap_cons.
  - pose proof (yields_positional σ' w1 L d' Hwf' Hc') as Hy.
    rewrite Hσ', fmap_app, Hl1, fmap_cons, He, Hl2, fmap_cons in Hy.
    exact Hy.
  - rewrite element_elt; [by rewrite He|].
    unfold elt in He. by destruct (nodes w1 !! new).
  - by rewrite (after_run σ' w1 L d' l1 new (a :: l2)).
  - rewrite (before_run σ' w1 L d' (l1 ++ [new]) a l2);
      [|done..|by rewrite <- app_assoc].
    rewrite lastd_snoc. by destruct l1.
  - rewrite (before_run σ' w1 L d' l1 new (a :: l2)) by done.
    rewrite (before_run σ w L d l1 a l2) by done. simpl. by rewrite Hh.
Qed.

(** X5: [add_after(p, e)] on a valid Position puts [e] immediately after
    the element of [p] in what the iteration yields; the Position it
    returns sits between [p] and the former successor of [p]. *)
Theorem add_after_inserts_after w ps L q a xs e :
  reachable (w, ps) → q ∈ ps →
  PositionalList._validate L (VPos q) w = (w, inr a) →
  yields PositionalList.__iter__ L w xs →
  ∃ w1 q' xs1 x xs2,
    PositionalList.add_after L (VPos q) e w = (w1, inr (Some q')) ∧
    PositionalList.element q w = (w, inr x) ∧ xs = xs1 ++ x :: xs2 ∧
    yields PositionalList.__iter__ L w1 (xs1 ++ x :: Some e :: xs2) ∧
    PositionalList.element q' w1 = (w1, inr (Some e)) ∧
    PositionalList.before L (VPos q') w1 = (w1, inr (Some q)) ∧
    PositionalList.after L (VPos q) w1 = (w1, inr (Some q')) ∧
    (PositionalList.after L (VPos q') w1).2 =
      (PositionalList.after L (VPos q) w).2.
Proof.
  intros Hreach Hq Hval Hx.
  destruct (valid_position_view w ps L q a Hreach Hq Hval)
    as (σ & d & l1 & l2 & Hwf & -> & Hc & Hσ).
  pose proof (yields_positional_inv σ w L d xs Hwf Hc Hx) as ->.
  assert (Hσ2 : σ L = (l1 ++ [a]) ++ l2) by (by rewrite <- app_assoc).
  destruct (insert_view σ w L d e (l1 ++ [a]) l2 _ Hwf Hc Hσ2
              (add_after_spec σ w L d l1 a l2 e Hwf Hc Hσ)
              (add_after_keeps σ w L d l1 a l2 e Hwf Hc Hσ))
    as (σ' & d' & Hwf' & Hc' & Hh & Ht & Hσ' & Hr & Hnew & He & Hl1 & Hl2).
  destruct (PositionalList.add_after L _ e w) as [w1 r]. cbn [fst snd] in *. subst r.
  set (new := fresh (dom (nodes w))) in *.
  assert (Ha : is_Some (nodes w !! a)).
  { apply (live_alloc σ w L d); [done..|]. rewrite Hσ. set_solver. }
  assert (Hσ3 : σ' L = l1 ++ a :: new :: l2) by (by rewrite Hσ', <- app_assoc).
  exists w1, (Pos L (Some new)), (elt (nodes w) <$> l1), (elt (nodes w) a),
    (elt (nodes w) <$> l2).
  split_and!.
  - done.
  - by apply element_elt.
  - by rewrite Hσ, fmap_app, fmap_cons.
  - pose proof (yields_positional σ' w1 L d' Hwf' Hc') as Hy.
    rewrite Hσ', fmap_app, Hl1, fmap_cons, He, Hl2, fmap_app in Hy.
    rewrite <- app_assoc in Hy. exact Hy.
  - rewrite element_elt; [by rewrite He|].
    unfold elt in He. by destruct (nodes w1 !! new).
  - rewrite (before_run σ' w1 L d' (l1 ++ [a]) new l2) by done.
    rewrite lastd_snoc. by destruct l1.
  - by rewrite (after_run σ' w1 L d' l1 a (new :: l2)).
  - rewrite (after_run σ' w1 L d' (l1 ++ [a]) new l2) by done.
    by rewrite (after_run σ w L d l1 a l2).
Qed.

(** X6: [delete(p)] on a valid Position returns the element of [p] and
    removes exactly that element from what the iteration yields; the
    former neighbours of [p] become each other's neighbours, the list
    ends taking the place of a missing neighbour. *)
Theorem delete_removes_element w ps L q a xs :
  reachable (w, ps) → q ∈ ps →
  PositionalList._validate L (VPos q) w = (w, inr a) →
  yields PositionalList.__iter__ L w xs →
  ∃ w1 xs1 x xs2 ob oa,
    PositionalList.delete L (VPos q) w = (w1, inr x) ∧
    PositionalList.element q w = (w, inr x) ∧ xs = xs1 ++ x :: xs2 ∧
    yields PositionalList.__iter__ L w1 (xs1 ++ xs2) ∧
    PositionalList.before L (VPos q) w = (w, inr ob) ∧
    PositionalList.after L (VPos q) w = (w, inr oa) ∧
    match ob with
    | Some b => PositionalList.after L (VPos b) w1
    | None => PositionalList.first L w1
    end = (w1, inr oa) ∧
    match oa with
    | Some b => PositionalList.before L (VPos b) w1
    | None => PositionalList.last L w1
    end = (w1, inr ob).
Proof.
  intros Hreach Hq Hval Hx.
  destruct (valid_position_view w ps L q a Hreach Hq Hval)
    as (σ & d & l1 & l2 & Hwf & -> & Hc & Hσ).
  pose proof (yields_positional_inv σ w L d xs Hwf Hc Hx) as ->.
  destruct (delete_spec σ w L d l1 a l2 Hwf Hc Hσ)
    as (n & Hn & Hel & Hr & Hwf' & _ & Hlists & Hdead).
  pose proof (λ x, delete_keeps σ w L d l1 a l2 x Hwf Hc Hσ) as Hk.
  destruct (PositionalList.delete L _ w) as [w1 r]. cbn [fst snd] in *.
  subst r.
  set (σ' := <[L := l1 ++ l2]> σ) in *.
  set (d' := {| _header := _header d; _trailer := _trailer d;
                _size := _size d + -1 |}) in *.
  assert (Hc' : lists w1 !! L = Some d') by (by rewrite Hlists, lookup_insert_eq).
  assert (Hσ' : σ' L = l1 ++ l2) by apply fn_lookup_insert.
  assert (Hnd : a ∉ l1 ++ l2).
  { pose proof (inv_nodup _ _ _ (wf_lists _ _ Hwf _ _ Hc)) as Hnd.
    rewrite Hσ in Hnd. unfold full in Hnd.
    apply NoDup_cons in Hnd as [_ Hnd]. rewrite <- app_assoc in Hnd.
    apply NoDup_app in Hnd as (_ & Hd1 & Hd2). simpl in Hd2.
    apply NoDup_cons in Hd2 as [Hd2 _]. intros Hin.
    apply elem_of_app in Hin as [Hin|Hin]; [eapply Hd1; [done|]|];
      set_solver. }
  exists w1, (elt (nodes w) <$> l1), (_element n), (elt (nodes w) <$> l2),
    (match l1 with
     | [] => None
     | _ :: _ => Some (Pos L (Some (lastd (_header d) l1)))
     end),
    (match l2 with [] => None | b :: _ => Some (Pos L (Some b)) end).
  split_and!.
  - done.
  - by apply element_run.
  - by rewrite Hσ, fmap_app, fmap_cons, (elt_node w a n).
  - pose proof (yields_positional σ' w1 L d' Hwf' Hc') as Hy.
    rewrite Hσ' in Hy.
    rewrite (fmap_elt_ext (nodes w) (nodes w1) (l1 ++ l2)), fmap_app in Hy;
      [done|]. intros x Hin. apply Hk. by intros ->.
  - by apply (before_run σ w L d l1 a l2).
  - by apply (after_run σ w L d l1 a l2).
  - destruct l1 as [|y l1].
    + rewrite (first_run σ' w1 L d') by done. by rewrite Hσ'.
    + destruct (snoc_lastd y l1) as [l0 Hl0].
      apply (after_run σ' w1 L d' l0); [done..|]. rewrite Hσ'.
      change ((y :: l1) ++ l2 = l0 ++ [lastd y l1] ++ l2).
      by rewrite Hl0, <- app_assoc.
  - destruct l2 as [|y l2].
    + rewrite (last_run σ' w1 L d') by done. rewrite Hσ', app_nil_r.
      by destruct l1.
    + by rewrite (before_run σ' w1 L d' l1 y l2).
Qed.

(** X7: on a valid Position, [before] and [after] undo each other, and
    they return [None] exactly at the Position that [first()],
    respectively [last()], returns. *)
Theorem before_after_inverse w ps L q a :
  reachable (w, ps) → q ∈ ps →
  PositionalList._validate L (VPos q) w = (w, inr a) →
  (∀ q', PositionalList.before L (VPos q) w = (w, inr (Some q')) →
     PositionalList.after L (VPos q') w = (w, inr (Some q))) ∧
  (∀ q', PositionalList.after L (VPos q) w = (w, inr (Some q')) →
     PositionalList.before L (VPos q') w = (w, inr (Some q))) ∧
  (PositionalList.before L (VPos q) w = (w, inr None) ↔
     PositionalList.first L w = (w, inr (Some q))) ∧
  (PositionalList.after L (VPos q) w = (w, inr None) ↔
     PositionalList.last L w = (w, inr (Some q))).
Proof.
  intros Hreach Hq Hval.
  destruct (valid_position_view w ps L q a Hreach Hq Hval)
    as (σ & d & l1 & l2 & Hwf & -> & Hc & Hσ).
  pose proof (inv_nodup _ _ _ (wf_lists _ _ Hwf _ _ Hc)) as Hnd.
  rewrite Hσ in Hnd. unfold full in Hnd. apply NoDup_cons in Hnd as [_ Hnd].
  rewrite <- app_assoc in Hnd. apply NoDup_app in Hnd as (_ & Hd1 & Hd2).
  simpl in Hd2. apply NoDup_cons in Hd2 as [Hd2 _].
  rewrite (before_run σ w L d l1 a l2), (after_run σ w L d l1 a l2),
    (first_run σ w L d), (last_run σ w L d) by done.
  rewrite Hσ. split_and!.
  - intros q' Hb. destruct l1 as [|y l1]; [done|]. injection Hb as <-.
    destruct (snoc_lastd y l1) as [l0 Hl0].
    apply (after_run σ w L d l0 _ (a :: l2)); [done..|]. rewrite Hσ.
    change ((y :: l1) ++ a :: l2 = l0 ++ [lastd y l1] ++ a :: l2).
    by rewrite Hl0, <- app_assoc.
  - intros q' Hb. destruct l2 as [|y l2]; [done|]. injection Hb as <-.
    rewrite (before_run σ w L d (l1 ++ [a]) y l2);
      [|done..|by rewrite Hσ, <- app_assoc].
    rewrite lastd_snoc. by destruct l1.
  - destruct l1 as [|y l1]; simpl; [done|]. split; [done|].
    intros [= ->]. exfalso. eapply Hd1; [|apply elem_of_cons; by left].
    apply elem_of_cons; by left.
  - rewrite lastd_app. simpl. destruct l2 as [|y l2]; simpl.
    + by destruct l1.
    + split; [done|].
      destruct l1; simpl; intros [= E]; exfalso; apply Hd2;
        rewrite <- E at 1; apply elem_of_app; left; apply (lastd_elem y l2).
Qed.

End Splicing.

(** * Positions across the calls of a client *)

Section Survival.
Context {T : Type}.
Implicit Types (w : World T) (h : gmap loc (_Node T)) (d : ListObj).
Implicit Types (a b c p t L : loc) (l ls : list loc) (σ : loc → list loc).
Implicit Types (q : Position) (v : value T) (ps : list Position).
Implicit Types (e : T) (k : call T).

Lemma live_same_list σ w c L dc d a :
  wf_with σ w → lists w !! c = Some dc → lists w !! L = Some d →
  a ∈ σ c → a ∈ σ L → c = L.
Proof.
  intros Hwf Hc HL Hac HaL. destruct (decide (c = L)) as [|Hne]; [done|].
  exfalso. eapply (wf_disj _ _ Hwf c L dc d a); [done..| |];
    unfold full; set_solver.
Qed.

Lemma initialised_keeps_nodes w x :
  is_Some (nodes w !! x) → nodes (initialised w) !! x = nodes w !! x.
Proof.
  intros [n Hx]. unfold initialised; simpl.
  set (hd := fresh (dom (nodes w))).
  set (tl := fresh (dom (<[hd := dead]> (nodes w)))).
  assert (Hhd : nodes w !! hd = None) by apply not_elem_of_dom, is_fresh.
  assert (Htl : (<[hd := dead]> (nodes w)) !! tl = None)
    by apply not_elem_of_dom, is_fresh.
  assert (tl ≠ hd).
  { intros E. rewrite E, lookup_insert_eq in Htl. done. }
  rewrite lookup_insert_ne in Htl by done.
  assert (x ≠ hd) by (intros ->; congruence).
  assert (x ≠ tl) by (intros ->; congruence).
  by rewrite !lookup_insert_ne.
Qed.

(** What is left of a live node after something has been inserted
    somewhere. *)
Lemma live_after_insert σ w c dc e l1 l2 L d a
    (r : World T * (exn + option Position)) :
  wf_with σ w → lists w !! c = Some dc → σ c = l1 ++ l2 →
  lists w !! L = Some d → a ∈ σ L →
  insert_post σ w c dc e l1 l2 r → keeps_elements w r.1 →
  PositionalList._validate L (VPos (Pos L (Some a))) r.1 = (r.1, inr a) ∧
  elt (nodes r.1) a = elt (nodes w) a.
Proof.
  intros Hwf Hc Hσ HL Ha (Hr & Hwf' & _ & Hlists & _ & _) Hk. split.
  - destruct (decide (c = L)) as [->|Hne].
    + eapply validate_live; [exact Hwf'| |].
      * rewrite Hlists. apply lookup_insert_eq.
      * rewrite fn_lookup_insert. rewrite Hσ in Ha. set_solver.
    + eapply validate_live; [exact Hwf'| |].
      * rewrite Hlists, lookup_insert_ne by done. exact HL.
      * by rewrite fn_lookup_insert_ne.
  - apply Hk. by eapply live_alloc.
Qed.

Lemma element_ext w w' c a :
  is_Some (nodes w !! a) → is_Some (nodes w' !! a) →
  elt (nodes w') a = elt (nodes w) a →
  (PositionalList.element (Pos c (Some a)) w').2 =
    (PositionalList.element (Pos c (Some a)) w).2.
Proof. intros H1 H2 He. rewrite !element_elt by done. simpl. by rewrite He. Qed.

Lemma validate_alloc L a w' :
  PositionalList._validate L (VPos (Pos L (Some a))) w' = (w', inr a) →
  is_Some (nodes w' !! a).
Proof.
  unfold PositionalList._validate. simpl. case_decide; [|done]. unfold_m.
  simpl. destruct (nodes w' !! a); [eauto|done].
Qed.

(** X9: a valid Position stays valid, on the same node, through every
    call of a client except a successful [delete] of that very Position;
    and its element is what it was unless the call is a successful
    [replace] on that very Position, which stores the new element. *)
Theorem position_survives_other_calls w ps L q a k w' r :
  reachable (w, ps) → q ∈ ps → args_known ps k →
  PositionalList._validate L (VPos q) w = (w, inr a) →
  exec k w = (w', r) →
  (k = CDelete L (VPos q) ∧ ∃ x, r = inr (RElem x)) ∨
  (PositionalList._validate L (VPos q) w' = (w', inr a) ∧
   ((∃ e x, k = CReplace L (VPos q) e ∧ r = inr (RElem x) ∧
       PositionalList.element q w' = (w', inr (Some e))) ∨
    (PositionalList.element q w').2 = (PositionalList.element q w).2)).
Proof.
  intros Hreach Hq Hk Hval Hex.
  destruct (reachable_inv _ Hreach) as [σ Hinv].
  pose proof (known_ok _ _ _ _ Hinv Hq) as Hok.
  destruct Hinv as [Hwf Hps]. simpl in Hwf, Hps.
  destruct (validate_ok_inv σ w L q w a Hwf Hok Hval)
    as (_ & -> & [d HL] & Ha).
  pose proof (live_alloc σ w L d a Hwf HL Ha) as Hal.
  assert (Hsame : ∀ (r0 : exn + retval T), w' = w →
    PositionalList._validate L (VPos (Pos L (Some a))) w' = (w', inr a) ∧
    ((∃ e x, k = CReplace L (VPos (Pos L (Some a))) e ∧ r = inr (RElem x) ∧
        PositionalList.element (Pos L (Some a)) w' = (w', inr (Some e))) ∨
     (PositionalList.element (Pos L (Some a)) w').2 =
       (PositionalList.element (Pos L (Some a)) w).2)).
  { intros _ ->. split; [done|]. by right. }
  assert (Hins : ∀ c dc e l1 l2 (res : World T * (exn + option Position)),
    lists w !! c = Some dc → σ c = l1 ++ l2 →
    insert_post σ w c dc e l1 l2 res → keeps_elements w res.1 →
    PositionalList._validate L (VPos (Pos L (Some a))) res.1 = (res.1, inr a) ∧
    (PositionalList.element (Pos L (Some a)) res.1).2 =
      (PositionalList.element (Pos L (Some a)) w).2).
  { intros c dc e l1 l2 res Hc Hσ Hpost Hkeep.
    destruct (live_after_insert σ w c dc e l1 l2 L d a res) as [Hv He];
      try done.
    split; [done|]. apply element_ext; [done| |done].
    by eapply validate_alloc. }
  destruct k as [|c|c|c|c|c v|c v|c e|c e|c v e|c v e|c v|c v e|q'];
    unfold exec in Hex; rewrite bind_ret_run in Hex.
  - (* the constructor *)
    rewrite init_run in Hex. injection Hex as <- <-. right.
    assert (Hne : fresh (dom (lists w)) ≠ L).
    { intros E. pose proof (is_fresh (dom (lists w))) as Hf.
      apply not_elem_of_dom in Hf. congruence. }
    assert (Hn : nodes (initialised w) !! a = nodes w !! a)
      by (by apply initialised_keeps_nodes).
    split.
    + eapply validate_live; [by apply initialised_wf| |].
      * simpl. rewrite lookup_insert_ne by done. exact HL.
      * by rewrite fn_lookup_insert_ne.
    + right. apply element_ext; [done|by rewrite Hn|]. unfold elt.
      by rewrite Hn.
  - rewrite len_unchanged in Hex. injection Hex as <- <-. right.
    by apply (Hsame (inl Empty)).
  - rewrite is_empty_unchanged in Hex. injection Hex as <- <-. right.
    by apply (Hsame (inl Empty)).
  - rewrite first_unchanged in Hex. injection Hex as <- <-. right.
    by apply (Hsame (inl Empty)).
  - rewrite last_unchanged in Hex. injection Hex as <- <-. right.
    by apply (Hsame (inl Empty)).
  - rewrite before_unchanged in Hex. injection Hex as <- <-. right.
    by apply (Hsame (inl Empty)).
  - rewrite after_unchanged in Hex. injection Hex as <- <-. right.
    by apply (Hsame (inl Empty)).
  - (* add_first *)
    injection Hex as <- <-. right. destruct (lists w !! c) as [dc|] eqn:Hc.
    + destruct (Hins c dc e [] (σ c) _ Hc eq_refl
        (add_first_spec σ w c dc e Hwf Hc) (add_first_keeps σ w c dc e Hwf Hc))
        as [Hv He].
      split; [done|by right].
    + rewrite add_first_unallocated by done. split; [done|by right].
  - (* add_last *)
    injection Hex as <- <-. right. destruct (lists w !! c) as [dc|] eqn:Hc.
    + destruct (Hins c dc e (σ c) [] _ Hc ltac:(by rewrite app_nil_r)
        (add_last_spec σ w c dc e Hwf Hc) (add_last_keeps σ w c dc e Hwf Hc))
        as [Hv He].
      split; [done|by right].
    + rewrite add_last_unallocated by done. split; [done|by right].
  - (* add_before *)
    injection Hex as <- <-. right.
    destruct (validate_cases σ w c v Hwf (value_known_ok _ _ _ _ Hps Hk))
      as [[err He]|(a' & dc & l1 & l2 & -> & Hc & Hσ & _)].
    + destruct (validate_fail_methods _ _ _ _ _ He) as (_&_&_&->&_).
      split; [done|by right].
    + destruct (Hins c dc e l1 (a' :: l2) _ Hc Hσ
        (add_before_spec σ w c dc l1 a' l2 e Hwf Hc Hσ)
        (add_before_keeps σ w c dc l1 a' l2 e Hwf Hc Hσ)) as [Hv He].
      split; [done|by right].
  - (* add_after *)
    injection Hex as <- <-. right.
    destruct (validate_cases σ w c v Hwf (value_known_ok _ _ _ _ Hps Hk))
      as [[err He]|(a' & dc & l1 & l2 & -> & Hc & Hσ & _)].
    + destruct (validate_fail_methods _ _ _ _ _ He) as (_&_&_&_&->&_).
      split; [done|by right].
    + destruct (Hins c dc e (l1 ++ [a']) l2 _ Hc
        ltac:(by rewrite <- app_assoc)
        (add_after_spec σ w c dc l1 a' l2 e Hwf Hc Hσ)
        (add_after_keeps σ w c dc l1 a' l2 e Hwf Hc Hσ)) as [Hv He].
      split; [done|by right].
  - (* delete *)
    injection Hex as <- <-.
    destruct (validate_cases σ w c v Hwf (value_known_ok _ _ _ _ Hps Hk))
      as [[err He]|(a' & dc & l1 & l2 & -> & Hc & Hσ & _)].
    + right. destruct (validate_fail_methods _ _ _ _ _ He) as (_&_&_&_&_&->&_).
      split; [done|by right].
    + destruct (delete_spec σ w c dc l1 a' l2 Hwf Hc Hσ)
        as (n & Hn & Hel & Hr & Hwf' & _ & Hlists & Hdead).
      destruct (decide (a' = a)) as [->|Hne].
      * left. assert (c = L) as ->.
        { eapply (live_same_list σ w c L); [done..| |done].
          rewrite Hσ. set_solver. }
        split; [done|]. rewrite Hr. eauto.
      * right.
        pose proof (delete_keeps σ w c dc l1 a' l2 a Hwf Hc Hσ
                      (not_eq_sym Hne)) as He.
        assert (Hv : PositionalList._validate L (VPos (Pos L (Some a)))
                 (PositionalList.delete c (VPos (Pos c (Some a'))) w).1 =
                 ((PositionalList.delete c (VPos (Pos c (Some a'))) w).1,
                  inr a)).
        { destruct (decide (c = L)) as [->|Hcl].
          - eapply validate_live; [exact Hwf'| |].
            + rewrite Hlists. apply lookup_insert_eq.
            + rewrite fn_lookup_insert. rewrite Hσ in Ha. set_solver.
          - eapply validate_live; [exact Hwf'| |].
            + rewrite Hlists, lookup_insert_ne by done. exact HL.
            + by rewrite fn_lookup_insert_ne. }
        split; [done|]. right. apply element_ext; [done| |done].
        by eapply validate_alloc.
  - (* replace *)
    injection Hex as <- <-. right.
    destruct (validate_cases σ w c v Hwf (value_known_ok _ _ _ _ Hps Hk))
      as [[err He]|(a' & dc & l1 & l2 & -> & Hc & Hσ & _)].
    + destruct (validate_fail_methods _ _ _ _ _ He) as (_&_&_&_&_&_&->).
      split; [done|by right].
    + assert (Ha' : a' ∈ σ c) by (rewrite Hσ; set_solver).
      destruct (replace_spec σ w c dc a' e Hwf Hc Ha')
        as (n & Hn & Hel & -> & Hwf' & _).
      cbn [fst snd].
      assert (Hv : PositionalList._validate L (VPos (Pos L (Some a)))
                 (replaced w a' n e) = (replaced w a' n e, inr a))
        by (by eapply validate_live).
      split; [done|].
      destruct (decide (a' = a)) as [->|Hne].
      * left. assert (c = L) as -> by (by eapply (live_same_list σ w c L)).
        exists e, (_element n). split_and!; [done..|].
        rewrite element_elt by (by eapply validate_alloc).
        unfold replaced; simpl. rewrite elt_insert. by case_decide.
      * right. apply element_ext; [done|by eapply validate_alloc|].
        by apply replaced_keeps.
  - (* Position.element *)
    rewrite element_unchanged in Hex. injection Hex as <- <-. right.
    by apply (Hsame (inl Empty)).
Qed.
End Survival.

(** * The linked deque *)

Section DequeProofs.
Context {T : Type}.
Implicit Types (w : World T) (h : gmap loc (_Node T)) (d : ListObj).
Implicit Types (a b c p t L : loc) (l ls : list loc) (σ : loc → list loc).
Implicit Types (e : T) (xs : list (option T)).

Lemma live_not_twice σ w c d l1 a l2 :
  wf_with σ w → lists w !! c = Some d → σ c = l1 ++ a :: l2 → a ∉ l1 ++ l2.
Proof.
  intros Hwf Hc Hσ.
  pose proof (inv_nodup _ _ _ (wf_lists _ _ Hwf _ _ Hc)) as Hnd.
  rewrite Hσ in Hnd. unfold full in Hnd.
  apply NoDup_cons in Hnd as [_ Hnd]. rewrite <- app_assoc in Hnd.
  apply NoDup_app in Hnd as (_ & Hd1 & Hd2). simpl in Hd2.
  apply NoDup_cons in Hd2 as [Hd2 _]. intros Hin.
  apply elem_of_app in Hin as [Hin|Hin]; [eapply Hd1; [done|]|];
    set_solver.
Qed.

(** The view of a list after [_insert_between] of the base class. *)
Lemma base_insert_view σ w c d e l1 l2 :
  wf_with σ w → lists w !! c = Some d → σ c = l1 ++ l2 →
  let new := fresh (dom (nodes w)) in
  ∃ w1 σ' d',
    _DoublyLinkedListBase._insert_between c e
      (Some (lastd (_header d) l1)) (Some (headd l2 (_trailer d))) w =
      (w1, inr new) ∧
    wf_with σ' w1 ∧ lists w1 !! c = Some d' ∧ _size d' = _size d + 1 ∧
    σ' c = l1 ++ new :: l2 ∧
    elt (nodes w1) <$> (l1 ++ new :: l2) =
      (elt (nodes w) <$> l1) ++ Some e :: (elt (nodes w) <$> l2).
Proof.
  intros Hwf Hc Hσ. cbv zeta.
  destruct (adjacent_nodes σ w c d l1 l2 Hwf Hc Hσ)
    as (np & ns & Hnp & Hns & _ & _ & Hne).
  pose proof (inserted_wf σ w c d e l1 l2 np ns Hwf Hc Hσ Hnp Hns) as Hwf'.
  pose proof (inserted_keeps w c d e _ _ np ns Hnp Hns) as Hk.
  assert (Hal : ∀ x, x ∈ l1 ++ l2 → is_Some (nodes w !! x)).
  { intros x Hx. apply (live_alloc σ w c d); [done..|]. by rewrite Hσ. }
  eexists _, _, _. split_and!.
  - by apply (insert_between_run w c d e _ _ np ns).
  - exact Hwf'.
  - simpl. apply lookup_insert_eq.
  - done.
  - by rewrite fn_lookup_insert.
  - rewrite fmap_app, fmap_cons. f_equal; [|f_equal].
    + apply fmap_elt_ext. intros x Hx. apply Hk, Hal. set_solver.
    + unfold inserted; simpl. rewrite !elt_insert.
      repeat case_decide; try done.
      * by destruct (fresh_node_ne _ _ _ Hns).
      * by destruct (fresh_node_ne _ _ _ Hnp).
    + apply fmap_elt_ext. intros x Hx. apply Hk, Hal. set_solver.
Qed.

(** The view of a list after [_delete_node] on a live node. *)
Lemma base_delete_view σ w c d l1 a l2 :
  wf_with σ w → lists w !! c = Some d → σ c = l1 ++ a :: l2 →
  ∃ w1 σ' d',
    _DoublyLinkedListBase._delete_node c a w =
      (w1, inr (elt (nodes w) a)) ∧
    wf_with σ' w1 ∧ lists w1 !! c = Some d' ∧ _size d' = _size d - 1 ∧
    σ' c = l1 ++ l2 ∧
    elt (nodes w1) <$> (l1 ++ l2) = elt (nodes w) <$> (l1 ++ l2).
Proof.
  intros Hwf Hc Hσ.
  destruct (live_node σ w c d l1 a l2 Hwf Hc Hσ)
    as (n&np&ns&Hn&Hp&Hnx&Hel&Hnp&Hns&Hps&Hap&Has&_).
  assert (Hsz : _size d ≠ 0).
  { destruct Hwf as [Hl _]. destruct (Hl _ _ Hc) as [_ _ _ _ _ _ _ I8].
    rewrite I8, Hσ, length_app. simpl. lia. }
  pose proof (live_not_twice σ w c d l1 a l2 Hwf Hc Hσ) as Hnd.
  eexists _, _, _. split_and!.
  - rewrite (delete_node_run w c d a n _ _ np ns) by done.
    by rewrite (elt_node w a n).
  - by apply deleted_wf.
  - simpl. apply lookup_insert_eq.
  - simpl. lia.
  - by rewrite fn_lookup_insert.
  - apply fmap_elt_ext. intros x Hx. apply deleted_keeps; [done..|].
    by intros ->.
Qed.

Lemma yields_base_list L w xs :
  yields _DoublyLinkedListBase.__iter__ L w xs → is_Some (lists w !! L).
Proof.
  intros Hx. specialize (Hx (S (length xs)) ltac:(lia)).
  unfold _DoublyLinkedListBase.__iter__ in Hx. unfold_m.
  destruct (lists w !! L); [eauto|done].
Qed.

Lemma is_empty_run w L d :
  lists w !! L = Some d →
  _DoublyLinkedListBase.is_empty L w = (w, inr (bool_decide (_size d = 0))).
Proof.
  intros Hc. unfold _DoublyLinkedListBase.is_empty. unfold_m. by rewrite Hc.
Qed.

Lemma size_nonzero σ w L d a l :
  wf_with σ w → lists w !! L = Some d → σ L = a :: l →
  bool_decide (_size d = 0) = false.
Proof.
  intros Hwf Hc Hσ. apply bool_decide_eq_false.
  rewrite (size_zero_nil σ w L d Hwf Hc), Hσ. done.
Qed.

(** ** The four mutators, against the chain *)

Lemma deque_insert_first_view σ w L d e :
  wf_with σ w → lists w !! L = Some d →
  ∃ w1 σ' d', Deque.insert_first L e w = (w1, inr tt) ∧
    wf_with σ' w1 ∧ lists w1 !! L = Some d' ∧ _size d' = _size d + 1 ∧
    elt (nodes w1) <$> σ' L = Some e :: (elt (nodes w) <$> σ L).
Proof.
  intros Hwf Hc. destruct (header_node σ w L d Hwf Hc) as (n & Hn & Hnx).
  destruct (base_insert_view σ w L d e [] (σ L) Hwf Hc eq_refl)
    as (w1 & σ' & d' & Hrun & Hwf' & Hc' & Hsz & Hσ' & Hel).
  exists w1, σ', d'. split_and!; try done.
  - unfold Deque.insert_first. unfold_m. rewrite Hc, Hn, Hnx.
    simpl in Hrun. by rewrite Hrun.
  - by rewrite Hσ'.
Qed.

Lemma deque_insert_last_view σ w L d e :
  wf_with σ w → lists w !! L = Some d →
  ∃ w1 σ' d', Deque.insert_last L e w = (w1, inr tt) ∧
    wf_with σ' w1 ∧ lists w1 !! L = Some d' ∧ _size d' = _size d + 1 ∧
    elt (nodes w1) <$> σ' L = (elt (nodes w) <$> σ L) ++ [Some e].
Proof.
  intros Hwf Hc. destruct (trailer_node σ w L d Hwf Hc) as (n & Hn & Hpv).
  destruct (base_insert_view σ w L d e (σ L) [] Hwf Hc)
    as (w1 & σ' & d' & Hrun & Hwf' & Hc' & Hsz & Hσ' & Hel);
    [by rewrite app_nil_r|].
  exists w1, σ', d'. split_and!; try done.
  - unfold Deque.insert_last. unfold_m. rewrite Hc, Hn, Hpv.
    simpl in Hrun. by rewrite Hrun.
  - by rewrite Hσ'.
Qed.

Lemma deque_delete_first_view σ w L d a l :
  wf_with σ w → lists w !! L = Some d → σ L = a :: l →
  ∃ w1 σ' d',
    Deque.first L w = (w, inr (elt (nodes w) a)) ∧
    Deque.delete_first L w = (w1, inr (elt (nodes w) a)) ∧
    wf_with σ' w1 ∧ lists w1 !! L = Some d' ∧ _size d' = _size d - 1 ∧
    elt (nodes w1) <$> σ' L = elt (nodes w) <$> l.
Proof.
  intros Hwf Hc Hσ. destruct (header_node σ w L d Hwf Hc) as (n & Hn & Hnx).
  rewrite Hσ in Hnx. simpl in Hnx.
  destruct (base_delete_view σ w L d [] a l Hwf Hc Hσ)
    as (w1 & σ' & d' & Hrun & Hwf' & Hc' & Hsz & Hσ' & Hel).
  destruct (live_alloc σ w L d a Hwf Hc) as [na Hna];
    [rewrite Hσ; set_solver|].
  exists w1, σ', d'. split_and!; try done.
  - unfold Deque.first, mbind at 1, M_bind, bind.
    rewrite (is_empty_run w L d Hc), (size_nonzero σ w L d a l) by done.
    unfold_m. rewrite Hc, Hn, Hnx. simpl. rewrite Hna.
    by rewrite (elt_node w a na).
  - unfold Deque.delete_first, mbind at 1, M_bind, bind.
    rewrite (is_empty_run w L d Hc), (size_nonzero σ w L d a l) by done.
    unfold_m. rewrite Hc, Hn, Hnx. simpl. exact Hrun.
  - by rewrite Hσ'.
Qed.

Lemma deque_delete_last_view σ w L d l a :
  wf_with σ w → lists w !! L = Some d → σ L = l ++ [a] →
  ∃ w1 σ' d',
    Deque.last L w = (w, inr (elt (nodes w) a)) ∧
    Deque.delete_last L w = (w1, inr (elt (nodes w) a)) ∧
    wf_with σ' w1 ∧ lists w1 !! L = Some d' ∧ _size d' = _size d - 1 ∧
    elt (nodes w1) <$> σ' L = elt (nodes w) <$> l.
Proof.
  intros Hwf Hc Hσ. destruct (trailer_node σ w L d Hwf Hc) as (n & Hn & Hpv).
  rewrite Hσ, lastd_snoc in Hpv.
  destruct (base_delete_view σ w L d l a [] Hwf Hc Hσ)
    as (w1 & σ' & d' & Hrun & Hwf' & Hc' & Hsz & Hσ' & Hel).
  rewrite app_nil_r in Hσ', Hel.
  destruct (live_alloc σ w L d a Hwf Hc) as [na Hna];
    [rewrite Hσ; set_solver|].
  assert (Hne : bool_decide (_size d = 0) = false).
  { apply bool_decide_eq_false.
    rewrite (size_zero_nil σ w L d Hwf Hc), Hσ. by destruct l. }
  exists w1, σ', d'. split_and!; try done.
  - unfold Deque.last, mbind at 1, M_bind, bind.
    rewrite (is_empty_run w L d Hc), Hne.
    unfold_m. rewrite Hc, Hn, Hpv. simpl. rewrite Hna.
    by rewrite (elt_node w a na).
  - unfold Deque.delete_last, mbind at 1, M_bind, bind.
    rewrite (is_empty_run w L d Hc), Hne.
    unfold_m. rewrite Hc, Hn, Hpv. simpl. exact Hrun.
  - by rewrite Hσ'.
Qed.

Lemma deque_unallocated L w :
  lists w !! L = None →
  (∀ e, Deque.insert_first L e w = (w, inl Unallocated)) ∧
  (∀ e, Deque.insert_last L e w = (w, inl Unallocated)) ∧
  Deque.delete_first L w = (w, inl Unallocated) ∧
  Deque.delete_last L w = (w, inl Unallocated).
Proof.
  intros Hc. unfold Deque.insert_first, Deque.insert_last,
    Deque.delete_first, Deque.delete_last, _DoublyLinkedListBase.is_empty.
  unfold_m. by rewrite Hc.
Qed.

Lemma deque_empty_errors w L d :
  lists w !! L = Some d → _size d = 0 →
  Deque.first L w = (w, inl Empty) ∧ Deque.last L w = (w, inl Empty) ∧
  Deque.delete_first L w = (w, inl Empty) ∧
  Deque.delete_last L w = (w, inl Empty).
Proof.
  intros Hc Hsz. unfold Deque.first, Deque.last, Deque.delete_first,
    Deque.delete_last, mbind, M_bind, bind.
  rewrite (is_empty_run w L d Hc), bool_decide_eq_true_2 by done. done.
Qed.

(** X10: the constructor and the four mutators of the deque keep the
    representation invariant of the store (every chain doubly linked
    from header to trailer without repetition, no node shared, the size
    equal to the number of nodes), whatever the deque holds, and [first]
    and [last] write nothing. *)
Theorem deque_methods_keep_invariant w L e :
  wf w →
  wf (_DoublyLinkedListBase.__init__ w).1 ∧
  wf (Deque.insert_first L e w).1 ∧ wf (Deque.insert_last L e w).1 ∧
  wf (Deque.delete_first L w).1 ∧ wf (Deque.delete_last L w).1 ∧
  (Deque.first L w).1 = w ∧ (Deque.last L w).1 = w.
Proof.
  intros [σ Hwf]. assert (Hw : wf w) by (by exists σ).
  split; [rewrite init_run; eexists; by apply initialised_wf|].
  destruct (lists w !! L) as [d|] eqn:Hc.
  2: { destruct (deque_unallocated L w Hc) as (H1 & H2 & H3 & H4).
       rewrite H1, H2, H3, H4. split_and!; try done.
       - unfold Deque.first, _DoublyLinkedListBase.is_empty. unfold_m.
         by rewrite Hc.
       - unfold Deque.last, _DoublyLinkedListBase.is_empty. unfold_m.
         by rewrite Hc. }
  destruct (deque_insert_first_view σ w L d e Hwf Hc)
    as (w1 & σ1 & d1 & -> & Hwf1 & _).
  destruct (deque_insert_last_view σ w L d e Hwf Hc)
    as (w2 & σ2 & d2 & -> & Hwf2 & _).
  split; [by exists σ1|]. split; [by exists σ2|].
  destruct (σ L) as [|a l] eqn:Hσ.
  - pose proof (proj2 (size_zero_nil σ w L d Hwf Hc) Hσ) as Hsz.
    destruct (deque_empty_errors w L d Hc Hsz) as (-> & -> & -> & ->). done.
  - destruct (deque_delete_first_view σ w L d a l Hwf Hc Hσ)
      as (w3 & σ3 & d3 & -> & -> & Hwf3 & _).
    destruct (snoc_lastd a l) as [l0 Hl0]. rewrite Hl0 in Hσ.
    destruct (deque_delete_last_view σ w L d l0 _ Hwf Hc Hσ)
      as (w4 & σ4 & d4 & -> & -> & Hwf4 & _).
    split_and!; try done; by eexists.
Qed.

(** X11: [first], [last], [delete_first] and [delete_last] raise [Empty],
    writing nothing, exactly when [is_empty()] is true; on a deque that is
    not empty all four return normally. *)
Theorem deque_Empty_exactly_when_empty w L (emp : bool) :
  wf w → _DoublyLinkedListBase.is_empty L w = (w, inr emp) →
  if emp then
    Deque.first L w = (w, inl Empty) ∧ Deque.last L w = (w, inl Empty) ∧
    Deque.delete_first L w = (w, inl Empty) ∧
    Deque.delete_last L w = (w, inl Empty)
  else
    returns (Deque.first L w) ∧ returns (Deque.last L w) ∧
    returns (Deque.delete_first L w) ∧ returns (Deque.delete_last L w).
Proof.
  intros [σ Hwf] Hemp. destruct (is_empty_inv _ _ _ Hemp) as (d & Hc & ->).
  case_bool_decide as Hsz.
  - by apply (deque_empty_errors w L d).
  - destruct (σ L) as [|a l] eqn:Hσ.
    { by destruct Hsz; apply (size_zero_nil σ w L d Hwf Hc). }
    destruct (deque_delete_first_view σ w L d a l Hwf Hc Hσ)
      as (w3 & σ3 & d3 & -> & -> & _).
    destruct (snoc_lastd a l) as [l0 Hl0]. rewrite Hl0 in Hσ.
    destruct (deque_delete_last_view σ w L d l0 _ Hwf Hc Hσ)
      as (w4 & σ4 & d4 & -> & -> & _).
    split_and!; by eexists.
Qed.

Lemma len_run w L d :
  lists w !! L = Some d →
  _DoublyLinkedListBase.__len__ L w = (w, inr (_size d)).
Proof.
  intros Hc. unfold _DoublyLinkedListBase.__len__. unfold_m. by rewrite Hc.
Qed.

(** X12: [insert_first(e)] puts [e] in front of what the traversal of
    the deque yields, after which [first()] returns [e] and the length
    is one more. *)
Theorem deque_insert_first_prepends w L xs e :
  wf w → yields _DoublyLinkedListBase.__iter__ L w xs →
  ∃ w1, Deque.insert_first L e w = (w1, inr tt) ∧ wf w1 ∧
    yields _DoublyLinkedListBase.__iter__ L w1 (Some e :: xs) ∧
    Deque.first L w1 = (w1, inr (Some e)) ∧
    _DoublyLinkedListBase.__len__ L w1 =
      (w1, inr (Z.of_nat (length xs) + 1)).
Proof.
  intros [σ Hwf] Hx. destruct (yields_base_list _ _ _ Hx) as [d Hc].
  pose proof (yields_base_inv σ w L d xs Hwf Hc Hx) as ->.
  destruct (deque_insert_first_view σ w L d e Hwf Hc)
    as (w1 & σ' & d' & Hrun & Hwf' & Hc' & Hsz & Hel).
  exists w1. split_and!; [done|by exists σ'| | |].
  - rewrite <- Hel. by apply (yields_base σ' w1 L d').
  - destruct (σ' L) as [|a l] eqn:Hσ'; [done|].
    rewrite fmap_cons in Hel. injection Hel as Ha _.
    destruct (deque_delete_first_view σ' w1 L d' a l Hwf' Hc' Hσ')
      as (_ & _ & _ & -> & _). by rewrite Ha.
  - rewrite (len_run w1 L d' Hc'), Hsz, length_fmap.
    by rewrite (inv_size _ _ _ (wf_lists _ _ Hwf _ _ Hc)).
Qed.

(** X13: [insert_last(e)] puts [e] behind what the traversal of the
    deque yields, after which [last()] returns [e] and the length is one
    more. *)
Theorem deque_insert_last_appends w L xs e :
  wf w → yields _DoublyLinkedListBase.__iter__ L w xs →
  ∃ w1, Deque.insert_last L e w = (w1, inr tt) ∧ wf w1 ∧
    yields _DoublyLinkedListBase.__iter__ L w1 (xs ++ [Some e]) ∧
    Deque.last L w1 = (w1, inr (Some e)) ∧
    _DoublyLinkedListBase.__len__ L w1 =
      (w1, inr (Z.of_nat (length xs) + 1)).
Proof.
  intros [σ Hwf] Hx. destruct (yields_base_list _ _ _ Hx) as [d Hc].
  pose proof (yields_base_inv σ w L d xs Hwf Hc Hx) as ->.
  destruct (deque_insert_last_view σ w L d e Hwf Hc)
    as (w1 & σ' & d' & Hrun & Hwf' & Hc' & Hsz & Hel).
  exists w1. split_and!; [done|by exists σ'| | |].
  - rewrite <- Hel. by apply (yields_base σ' w1 L d').
  - apply fmap_app_inv in Hel as (l1 & l2 & _ & Hl2 & Hσ').
    destruct l2 as [|a [|? ?]]; try done.
    rewrite fmap_cons in Hl2. injection Hl2 as Ha.
    destruct (deque_delete_last_view σ' w1 L d' l1 a Hwf' Hc' Hσ')
      as (_ & _ & _ & -> & _). by rewrite Ha.
  - rewrite (len_run w1 L d' Hc'), Hsz, length_fmap.
    by rewrite (inv_size _ _ _ (wf_lists _ _ Hwf _ _ Hc)).
Qed.

(** X14: on a deque whose traversal yields [x] first, [first()] returns
    [x] and writes nothing, and [delete_first()] returns [x] and leaves
    the rest, in order. *)
Theorem deque_delete_first_pops_front w L x xs :
  wf w → yields _DoublyLinkedListBase.__iter__ L w (x :: xs) →
  Deque.first L w = (w, inr x) ∧
  ∃ w1, Deque.delete_first L w = (w1, inr x) ∧ wf w1 ∧
    yields _DoublyLinkedListBase.__iter__ L w1 xs ∧
    _DoublyLinkedListBase.__len__ L w1 = (w1, inr (Z.of_nat (length xs))).
Proof.
  intros [σ Hwf] Hx. destruct (yields_base_list _ _ _ Hx) as [d Hc].
  pose proof (yields_base_inv σ w L d _ Hwf Hc Hx) as Hxs.
  destruct (σ L) as [|a l] eqn:Hσ; [done|].
  rewrite fmap_cons in Hxs. injection Hxs as -> ->.
  destruct (deque_delete_first_view σ w L d a l Hwf Hc Hσ)
    as (w1 & σ' & d' & Hf & Hrun & Hwf' & Hc' & Hsz & Hel).
  split; [done|]. exists w1. split_and!; [done|by exists σ'| |].
  - rewrite <- Hel. by apply (yields_base σ' w1 L d').
  - rewrite (len_run w1 L d' Hc'), Hsz, length_fmap.
    rewrite (inv_size _ _ _ (wf_lists _ _ Hwf _ _ Hc)), Hσ. simpl.
    do 2 f_equal. lia.
Qed.

(** X15: on a deque whose traversal yields [x] last, [last()] returns
    [x] and writes nothing, and [delete_last()] returns [x] and leaves
    what came before it, in order. *)
Theorem deque_delete_last_pops_back w L xs x :
  wf w → yields _DoublyLinkedListBase.__iter__ L w (xs ++ [x]) →
  Deque.last L w = (w, inr x) ∧
  ∃ w1, Deque.delete_last L w = (w1, inr x) ∧ wf w1 ∧
    yields _DoublyLinkedListBase.__iter__ L w1 xs ∧
    _DoublyLinkedListBase.__len__ L w1 = (w1, inr (Z.of_nat (length xs))).
Proof.
  intros [σ Hwf] Hx. destruct (yields_base_list _ _ _ Hx) as [d Hc].
  pose proof (yields_base_inv σ w L d _ Hwf Hc Hx) as Hxs.
  symmetry in Hxs. apply fmap_app_inv in Hxs as (l1 & l2 & -> & Hl2 & Hσ).
  destruct l2 as [|a [|? ?]]; try done.
  rewrite fmap_cons in Hl2. injection Hl2 as ->.
  destruct (deque_delete_last_view σ w L d l1 a Hwf Hc Hσ)
    as (w1 & σ' & d' & Hf & Hrun & Hwf' & Hc' & Hsz & Hel).
  split; [done|]. exists w1. split_and!; [done|by exists σ'| |].
  - rewrite <- Hel. by apply (yields_base σ' w1 L d').
  - rewrite (len_run w1 L d' Hc'), Hsz, length_fmap.
    rewrite (inv_size _ _ _ (wf_lists _ _ Hwf _ _ Hc)), Hσ, length_app.
    simpl. do 2 f_equal. lia.
Qed.

(** ** Runs of insertions and deletions *)

Lemma deque_insert_wf w L e :
  wf w → wf (Deque.insert_first L e w).1 ∧ wf (Deque.insert_last L e w).1.
Proof.
  intros [σ Hwf]. destruct (lists w !! L) as [d|] eqn:Hc.
  - destruct (deque_insert_first_view σ w L d e Hwf Hc)
      as (w1 & σ1 & d1 & -> & Hwf1 & _).
    destruct (deque_insert_last_view σ w L d e Hwf Hc)
      as (w2 & σ2 & d2 & -> & Hwf2 & _).
    split; by eexists.
  - destruct (deque_unallocated L w Hc) as (H1 & H2 & _).
    rewrite H1, H2. split; by exists σ.
Qed.

Lemma insert_all_last_view σ w L d (es : list T) :
  wf_with σ w → lists w !! L = Some d →
  ∃ w1 σ' d', insert_all_last L es w = (w1, inr tt) ∧
    wf_with σ' w1 ∧ lists w1 !! L = Some d' ∧
    elt (nodes w1) <$> σ' L = (elt (nodes w) <$> σ L) ++ (Some <$> es).
Proof.
  revert σ w d. induction es as [|e es IH]; intros σ w d Hwf Hc.
  - exists w, σ, d. by rewrite app_nil_r.
  - destruct (deque_insert_last_view σ w L d e Hwf Hc)
      as (w1 & σ1 & d1 & Hrun & Hwf1 & Hc1 & _ & Hel1).
    destruct (IH σ1 w1 d1 Hwf1 Hc1)
      as (w2 & σ2 & d2 & Hrun2 & Hwf2 & Hc2 & Hel2).
    exists w2, σ2, d2. split_and!; try done.
    + simpl. unfold mbind, M_bind, bind. by rewrite Hrun.
    + by rewrite Hel2, Hel1, fmap_cons, <- app_assoc.
Qed.

Lemma insert_all_first_view σ w L d (es : list T) :
  wf_with σ w → lists w !! L = Some d →
  ∃ w1 σ' d', insert_all_first L es w = (w1, inr tt) ∧
    wf_with σ' w1 ∧ lists w1 !! L = Some d' ∧
    elt (nodes w1) <$> σ' L =
      reverse (Some <$> es) ++ (elt (nodes w) <$> σ L).
Proof.
  revert σ w d. induction es as [|e es IH]; intros σ w d Hwf Hc.
  - by exists w, σ, d.
  - destruct (deque_insert_first_view σ w L d e Hwf Hc)
      as (w1 & σ1 & d1 & Hrun & Hwf1 & Hc1 & _ & Hel1).
    destruct (IH σ1 w1 d1 Hwf1 Hc1)
      as (w2 & σ2 & d2 & Hrun2 & Hwf2 & Hc2 & Hel2).
    exists w2, σ2, d2. split_and!; try done.
    + simpl. unfold mbind, M_bind, bind. by rewrite Hrun.
    + by rewrite Hel2, Hel1, fmap_cons, reverse_cons, <- app_assoc.
Qed.

Lemma delete_first_n_view σ w L d ys zs :
  wf_with σ w → lists w !! L = Some d →
  elt (nodes w) <$> σ L = ys ++ zs →
  ∃ w1 σ' d', delete_first_n L (length ys) w = (w1, inr ys) ∧
    wf_with σ' w1 ∧ lists w1 !! L = Some d' ∧
    elt (nodes w1) <$> σ' L = zs.
Proof.
  revert σ w d. induction ys as [|y ys IH]; intros σ w d Hwf Hc Hel.
  - by exists w, σ, d.
  - destruct (σ L) as [|a l] eqn:Hσ; [done|].
    rewrite fmap_cons in Hel. simpl in Hel. injection Hel as Hy Hel.
    destruct (deque_delete_first_view σ w L d a l Hwf Hc Hσ)
      as (w1 & σ1 & d1 & _ & Hrun & Hwf1 & Hc1 & _ & Hel1).
    rewrite Hel in Hel1.
    destruct (IH σ1 w1 d1 Hwf1 Hc1 Hel1)
      as (w2 & σ2 & d2 & Hrun2 & Hwf2 & Hc2 & Hel2).
    exists w2, σ2, d2. split_and!; try done.
    simpl. unfold mbind, M_bind, bind. rewrite Hrun, Hy.
    unfold mbind, M_bind, bind in Hrun2. by rewrite Hrun2.
Qed.

Lemma delete_last_n_view σ w L d ys zs :
  wf_with σ w → lists w !! L = Some d →
  elt (nodes w) <$> σ L = ys ++ zs →
  ∃ w1 σ' d', delete_last_n L (length zs) w = (w1, inr (reverse zs)) ∧
    wf_with σ' w1 ∧ lists w1 !! L = Some d' ∧
    elt (nodes w1) <$> σ' L = ys.
Proof.
  revert σ w d. induction zs as [|z zs IH] using rev_ind;
    intros σ w d Hwf Hc Hel.
  - exists w, σ, d. by rewrite app_nil_r in Hel.
  - rewrite app_assoc in Hel.
    apply fmap_app_inv in Hel as (l1 & l2 & Hl1 & Hl2 & Hσ).
    destruct l2 as [|a [|? ?]]; try done.
    rewrite fmap_cons in Hl2. injection Hl2 as Hz.
    destruct (deque_delete_last_view σ w L d l1 a Hwf Hc Hσ)
      as (w1 & σ1 & d1 & _ & Hrun & Hwf1 & Hc1 & _ & Hel1).
    rewrite <- Hl1 in Hel1.
    destruct (IH σ1 w1 d1 Hwf1 Hc1 Hel1)
      as (w2 & σ2 & d2 & Hrun2 & Hwf2 & Hc2 & Hel2).
    exists w2, σ2, d2. split_and!; try done.
    rewrite length_app, Nat.add_1_r, reverse_snoc. simpl.
    unfold mbind, M_bind, bind. rewrite Hrun, <- Hz.
    unfold mbind, M_bind, bind in Hrun2. by rewrite Hrun2.
Qed.

Lemma drained_is_empty σ w L d :
  wf_with σ w → lists w !! L = Some d → elt (nodes w) <$> σ L = [] →
  _DoublyLinkedListBase.is_empty L w = (w, inr true).
Proof.
  intros Hwf Hc Hel. apply fmap_nil_inv in Hel.
  rewrite (is_empty_run w L d Hc), bool_decide_eq_true_2; [done|].
  by apply (size_zero_nil σ w L d Hwf Hc).
Qed.

(** X16: the deque is a queue between its two ends.  Elements inserted
    one by one at the back come out of the front behind what the deque
    held, in the order of their insertion, and elements inserted at the
    front come out of the back in the same way; as many deletions as
    there are elements leave the deque empty. *)
Theorem deque_first_in_first_out w L xs (es : list T) :
  wf w → yields _DoublyLinkedListBase.__iter__ L w xs →
  (∃ w1 w2, insert_all_last L es w = (w1, inr tt) ∧
     yields _DoublyLinkedListBase.__iter__ L w1 (xs ++ (Some <$> es)) ∧
     delete_first_n L (length xs + length es) w1 =
       (w2, inr (xs ++ (Some <$> es))) ∧
     _DoublyLinkedListBase.is_empty L w2 = (w2, inr true) ∧ wf w2) ∧
  (∃ w1 w2, insert_all_first L es w = (w1, inr tt) ∧
     yields _DoublyLinkedListBase.__iter__ L w1
       (reverse (Some <$> es) ++ xs) ∧
     delete_last_n L (length xs + length es) w1 =
       (w2, inr (reverse xs ++ (Some <$> es))) ∧
     _DoublyLinkedListBase.is_empty L w2 = (w2, inr true) ∧ wf w2).
Proof.
  intros [σ Hwf] Hx. destruct (yields_base_list _ _ _ Hx) as [d Hc].
  pose proof (yields_base_inv σ w L d xs Hwf Hc Hx) as ->. split.
  - destruct (insert_all_last_view σ w L d es Hwf Hc)
      as (w1 & σ1 & d1 & Hrun & Hwf1 & Hc1 & Hel1).
    destruct (delete_first_n_view σ1 w1 L d1 (elt (nodes w1) <$> σ1 L) []
      Hwf1 Hc1)
      as (w2 & σ2 & d2 & Hrun2 & Hwf2 & Hc2 & Hel2).
    { by rewrite app_nil_r. }
    exists w1, w2. split_and!; [done| | | |by exists σ2].
    + rewrite <- Hel1. by apply (yields_base σ1 w1 L d1).
    + rewrite <- (length_fmap Some es), <- length_app, <- Hel1. exact Hrun2.
    + by apply (drained_is_empty σ2 w2 L d2).
  - destruct (insert_all_first_view σ w L d es Hwf Hc)
      as (w1 & σ1 & d1 & Hrun & Hwf1 & Hc1 & Hel1).
    destruct (delete_last_n_view σ1 w1 L d1 [] _ Hwf1 Hc1 Hel1)
      as (w2 & σ2 & d2 & Hrun2 & Hwf2 & Hc2 & Hel2).
    exists w1, w2. split_and!; [done| | | |by exists σ2].
    + rewrite <- Hel1. by apply (yields_base σ1 w1 L d1).
    + rewrite reverse_app, reverse_involutive, length_app, length_reverse,
        (length_fmap Some es), Nat.add_comm in Hrun2.
      exact Hrun2.
    + by apply (drained_is_empty σ2 w2 L d2).
Qed.

(** X17: each end of the deque is a stack.  Elements inserted one by one
    at the front come out of the front in the reverse order of their
    insertion, and likewise at the back; what the deque held before is
    then again what its traversal yields. *)
Theorem deque_last_in_first_out w L xs (es : list T) :
  wf w → yields _DoublyLinkedListBase.__iter__ L w xs →
  (∃ w1 w2, insert_all_first L es w = (w1, inr tt) ∧
     delete_first_n L (length es) w1 = (w2, inr (reverse (Some <$> es))) ∧
     yields _DoublyLinkedListBase.__iter__ L w2 xs ∧ wf w2) ∧
  (∃ w1 w2, insert_all_last L es w = (w1, inr tt) ∧
     delete_last_n L (length es) w1 = (w2, inr (reverse (Some <$> es))) ∧
     yields _DoublyLinkedListBase.__iter__ L w2 xs ∧ wf w2).
Proof.
  intros [σ Hwf] Hx. destruct (yields_base_list _ _ _ Hx) as [d Hc].
  pose proof (yields_base_inv σ w L d xs Hwf Hc Hx) as ->. split.
  - destruct (insert_all_first_view σ w L d es Hwf Hc)
      as (w1 & σ1 & d1 & Hrun & Hwf1 & Hc1 & Hel1).
    destruct (delete_first_n_view σ1 w1 L d1 _ _ Hwf1 Hc1 Hel1)
      as (w2 & σ2 & d2 & Hrun2 & Hwf2 & Hc2 & Hel2).
    exists w1, w2. split_and!; [done| | |by exists σ2].
    + by rewrite length_reverse, length_fmap in Hrun2.
    + rewrite <- Hel2. by apply (yields_base σ2 w2 L d2).
  - destruct (insert_all_last_view σ w L d es Hwf Hc)
      as (w1 & σ1 & d1 & Hrun & Hwf1 & Hc1 & Hel1).
    destruct (delete_last_n_view σ1 w1 L d1 _ _ Hwf1 Hc1 Hel1)
      as (w2 & σ2 & d2 & Hrun2 & Hwf2 & Hc2 & Hel2).
    exists w1, w2. split_and!; [done| | |by exists σ2].
    + by rewrite length_fmap in Hrun2.
    + rewrite <- Hel2. by apply (yields_base σ2 w2 L d2).
Qed.
End DequeProofs.

(** * Lists do not share *)

Section Isolation.
Context {T : Type}.
Implicit Types (w : World T) (h : gmap loc (_Node T)) (d : ListObj).
Implicit Types (a c L : loc) (l ls : list loc) (σ : loc → list loc).
Implicit Types (q : Position) (v : value T) (ps : list Position).
Implicit Types (e : T) (xs : list (option T)).

Lemma yields_frame σ w σ' w' L d xs :
  wf_with σ w → lists w !! L = Some d →
  wf_with σ' w' → lists w' !! L = Some d → σ' L = σ L →
  (∀ x, x ∈ σ L → elt (nodes w') x = elt (nodes w) x) →
  yields PositionalList.__iter__ L w xs →
  yields PositionalList.__iter__ L w' xs ∧
  _DoublyLinkedListBase.__len__ L w' = (w', inr (Z.of_nat (length xs))).
Proof.
  intros Hwf HL Hwf' HL' Hσ Hel Hx.
  pose proof (yields_positional_inv σ w L d xs Hwf HL Hx) as ->. split.
  - rewrite <- (fmap_elt_ext _ _ _ Hel), <- Hσ.
    by apply (yields_positional σ' w' L d).
  - rewrite (len_run w' L d HL'), length_fmap.
    by rewrite (inv_size _ _ _ (wf_lists _ _ Hwf _ _ HL)).
Qed.

(** X18: a call on one list, and the construction of a new list, leave
    every other list as it was: its iteration yields the same elements
    in the same order and its length is the same. *)
Theorem calls_leave_other_lists_alone w ps L xs k w' r :
  reachable (w, ps) → args_known ps k → receiver k ≠ Some L →
  yields PositionalList.__iter__ L w xs → exec k w = (w', r) →
  yields PositionalList.__iter__ L w' xs ∧
  _DoublyLinkedListBase.__len__ L w' = (w', inr (Z.of_nat (length xs))).
Proof.
  intros Hreach Hk Hrec Hx Hex.
  destruct (reachable_inv _ Hreach) as [σ [Hwf Hps]]. simpl in Hwf, Hps.
  destruct (yields_list _ _ _ Hx) as [d HL].
  assert (Hsame : ∀ w0, w0 = w →
    yields PositionalList.__iter__ L w0 xs ∧
    _DoublyLinkedListBase.__len__ L w0 = (w0, inr (Z.of_nat (length xs)))).
  { intros w0 ->. by apply (yields_frame σ w σ w L d). }
  assert (Hins : ∀ c dc e l1 l2 (res : World T * (exn + option Position)),
    c ≠ L → lists w !! c = Some dc → σ c = l1 ++ l2 →
    insert_post σ w c dc e l1 l2 res → keeps_elements w res.1 →
    yields PositionalList.__iter__ L res.1 xs ∧
    _DoublyLinkedListBase.__len__ L res.1 =
      (res.1, inr (Z.of_nat (length xs)))).
  { intros c dc e l1 l2 res Hne Hc Hσ (_ & Hwf' & _ & Hlists & _) Hkeep.
    eapply (yields_frame σ w _ res.1 L d); [done..|exact Hwf'| | | |done].
    - by rewrite Hlists, lookup_insert_ne.
    - by rewrite fn_lookup_insert_ne.
    - intros x Hin. apply Hkeep. by apply (live_alloc σ w L d). }
  destruct k as [|c|c|c|c|c v|c v|c e|c e|c v e|c v e|c v|c v e|q'];
    unfold exec in Hex; rewrite bind_ret_run in Hex; simpl in Hrec;
    try (assert (Hne : c ≠ L) by congruence).
  - (* the constructor *)
    rewrite init_run in Hex. injection Hex as <- <-.
    assert (Hf : fresh (dom (lists w)) ≠ L).
    { intros E. pose proof (is_fresh (dom (lists w))) as Hf.
      apply not_elem_of_dom in Hf. congruence. }
    eapply (yields_frame σ w _ (initialised w) L d);
      [done..|by apply initialised_wf| | | |done].
    + simpl. by rewrite lookup_insert_ne.
    + by rewrite fn_lookup_insert_ne.
    + intros x Hin. unfold elt.
      by rewrite initialised_keeps_nodes by (by apply (live_alloc σ w L d)).
  - rewrite len_unchanged in Hex. injection Hex as <- <-. by apply Hsame.
  - rewrite is_empty_unchanged in Hex. injection Hex as <- <-. by apply Hsame.
  - rewrite first_unchanged in Hex. injection Hex as <- <-. by apply Hsame.
  - rewrite last_unchanged in Hex. injection Hex as <- <-. by apply Hsame.
  - rewrite before_unchanged in Hex. injection Hex as <- <-. by apply Hsame.
  - rewrite after_unchanged in Hex. injection Hex as <- <-. by apply Hsame.
  - (* add_first *)
    injection Hex as <- <-. destruct (lists w !! c) as [dc|] eqn:Hc.
    + by apply (Hins c dc e [] (σ c) _ Hne Hc eq_refl
        (add_first_spec σ w c dc e Hwf Hc) (add_first_keeps σ w c dc e Hwf Hc)).
    + rewrite add_first_unallocated by done. by apply Hsame.
  - (* add_last *)
    injection Hex as <- <-. destruct (lists w !! c) as [dc|] eqn:Hc.
    + by apply (Hins c dc e (σ c) [] _ Hne Hc ltac:(by rewrite app_nil_r)
        (add_last_spec σ w c dc e Hwf Hc) (add_last_keeps σ w c dc e Hwf Hc)).
    + rewrite add_last_unallocated by done. by apply Hsame.
  - (* add_before *)
    injection Hex as <- <-.
    destruct (validate_cases σ w c v Hwf (value_known_ok _ _ _ _ Hps Hk))
      as [[err He]|(a' & dc & l1 & l2 & -> & Hc & Hσ & _)].
    + destruct (validate_fail_methods _ _ _ _ _ He) as (_&_&_&->&_).
      by apply Hsame.
    + by apply (Hins c dc e l1 (a' :: l2) _ Hne Hc Hσ
        (add_before_spec σ w c dc l1 a' l2 e Hwf Hc Hσ)
        (add_before_keeps σ w c dc l1 a' l2 e Hwf Hc Hσ)).
  - (* add_after *)
    injection Hex as <- <-.
    destruct (validate_cases σ w c v Hwf (value_known_ok _ _ _ _ Hps Hk))
      as [[err He]|(a' & dc & l1 & l2 & -> & Hc & Hσ & _)].
    + destruct (validate_fail_methods _ _ _ _ _ He) as (_&_&_&_&->&_).
      by apply Hsame.
    + by apply (Hins c dc e (l1 ++ [a']) l2 _ Hne Hc
        ltac:(by rewrite <- app_assoc)
        (add_after_spec σ w c dc l1 a' l2 e Hwf Hc Hσ)
        (add_after_keeps σ w c dc l1 a' l2 e Hwf Hc Hσ)).
  - (* delete *)
    injection Hex as <- <-.
    destruct (validate_cases σ w c v Hwf (value_known_ok _ _ _ _ Hps Hk))
      as [[err He]|(a' & dc & l1 & l2 & -> & Hc & Hσ & _)].
    + destruct (validate_fail_methods _ _ _ _ _ He) as (_&_&_&_&_&->&_).
      by apply Hsame.
    + destruct (delete_spec σ w c dc l1 a' l2 Hwf Hc Hσ)
        as (n & Hn & Hel & Hr & Hwf' & _ & Hlists & Hdead).
      eapply (yields_frame σ w _ _ L d); [done..|exact Hwf'| | | |done].
      * by rewrite Hlists, lookup_insert_ne.
      * by rewrite fn_lookup_insert_ne.
      * intros x Hin. apply (delete_keeps σ w c dc l1 a' l2 x); [done..|].
        intros ->. apply Hne.
        eapply (live_same_list σ w c L); [done..| |done].
        rewrite Hσ. set_solver.
  - (* replace *)
    injection Hex as <- <-.
    destruct (validate_cases σ w c v Hwf (value_known_ok _ _ _ _ Hps Hk))
      as [[err He]|(a' & dc & l1 & l2 & -> & Hc & Hσ & _)].
    + destruct (validate_fail_methods _ _ _ _ _ He) as (_&_&_&_&_&_&->).
      by apply Hsame.
    + assert (Ha' : a' ∈ σ c) by (rewrite Hσ; set_solver).
      destruct (replace_spec σ w c dc a' e Hwf Hc Ha')
        as (n & Hn & Hel & -> & Hwf' & _).
      cbn [fst snd].
      eapply (yields_frame σ w σ _ L d); [done..|exact Hwf'| | | |done].
      * done.
      * done.
      * intros x Hin. apply replaced_keeps. intros ->. apply Hne.
        by eapply (live_same_list σ w c L).
  - (* Position.element *)
    rewrite element_unchanged in Hex. injection Hex as <- <-. by apply Hsame.
Qed.

(** X20: [Position.__eq__] compares the nodes only, and that identifies
    the Position: two valid Positions a client holds, of the same list
    or of two lists, are equal by [__eq__] exactly when they are the
    same Position, container included. *)
Theorem position_eq_is_identity w ps L1 L2 p q a1 a2 :
  reachable (w, ps) → p ∈ ps → q ∈ ps →
  PositionalList._validate L1 (VPos p) w = (w, inr a1) →
  PositionalList._validate L2 (VPos q) w = (w, inr a2) →
  PositionalList.__eq__ p q = true ↔ p = q.
Proof.
  intros Hreach Hp Hq Hv1 Hv2.
  destruct (reachable_inv _ Hreach) as [σ Hinv].
  pose proof (known_ok _ _ _ _ Hinv Hp) as Hok1.
  pose proof (known_ok _ _ _ _ Hinv Hq) as Hok2.
  destruct Hinv as [Hwf _]. simpl in Hwf.
  destruct (validate_ok_inv σ w L1 p w a1 Hwf Hok1 Hv1)
    as (_ & -> & [d1 Hc1] & Ha1).
  destruct (validate_ok_inv σ w L2 q w a2 Hwf Hok2 Hv2)
    as (_ & -> & [d2 Hc2] & Ha2).
  unfold PositionalList.__eq__. simpl. rewrite bool_decide_eq_true. split.
  - intros [= ->]. f_equal.
    by apply (live_same_list σ w L1 L2 d1 d2 a1).
  - by intros [= -> ->].
Qed.
End Isolation.

(** * Insertion followed by deletion *)

Section RoundTrip.
Context {T : Type}.
Implicit Types (w : World T) (h : gmap loc (_Node T)) (d : ListObj).
Implicit Types (a c L : loc) (l ls : list loc) (σ : loc → list loc).
Implicit Types (q : Position) (v : value T) (ps : list Position).
Implicit Types (e : T) (xs : list (option T)).

Lemma insert_then_delete σ w c d e l1 l2
    (r : World T * (exn + option Position)) :
  wf_with σ w → lists w !! c = Some d → σ c = l1 ++ l2 →
  insert_post σ w c d e l1 l2 r → keeps_elements w r.1 →
  undone_by_delete c (elt (nodes w) <$> σ c) e r.
Proof.
  intros Hwf Hc Hσ Hpost Hkeep.
  destruct (insert_view σ w c d e l1 l2 r Hwf Hc Hσ Hpost Hkeep)
    as (σ1 & d1 & Hwf1 & Hc1 & _ & _ & Hσ1 & Hr & Hnew & He & Hl1 & Hl2).
  destruct (delete_spec σ1 r.1 c d1 l1 _ l2 Hwf1 Hc1 Hσ1)
    as (n & Hn & _ & Hret & Hwf2 & _ & Hlists & _).
  pose proof (λ x, delete_keeps σ1 r.1 c d1 l1 _ l2 x Hwf1 Hc1 Hσ1) as Hk.
  rewrite (elt_node _ _ n Hn) in He.
  destruct (PositionalList.delete c _ r.1) as [w2 r2] eqn:Hdel.
  cbn [fst snd] in *. subst r2.
  set (σ2 := <[c := l1 ++ l2]> σ1) in *.
  assert (Hσ2 : σ2 c = l1 ++ l2) by apply fn_lookup_insert.
  assert (Hc2 : is_Some (lists w2 !! c))
    by (rewrite Hlists, lookup_insert_eq; eauto).
  destruct Hc2 as [d2 Hc2].
  assert (Hel : elt (nodes w2) <$> σ2 c = elt (nodes w) <$> σ c).
  { rewrite Hσ2, Hσ, !fmap_app, <- Hl1, <- Hl2, <- !fmap_app.
    apply fmap_elt_ext. intros x Hin. apply Hk. by intros ->. }
  eexists _, w2. split_and!; [exact Hr| | |].
  - by rewrite Hdel, He.
  - rewrite <- Hel. by apply (yields_positional σ2 w2 c d2).
  - rewrite (len_run w2 c d2 Hc2), <- Hel, length_fmap.
    by rewrite (inv_size _ _ _ (wf_lists _ _ Hwf2 _ _ Hc2)).
Qed.

(** X19: [delete] undoes an insertion.  After [add_first(e)],
    [add_last(e)], or [add_before(p, e)] and [add_after(p, e)] on a valid
    Position, [delete] on the Position the insertion returned returns [e]
    and leaves the list yielding what it did before, at its former
    length. *)
Theorem delete_undoes_add w ps L xs e :
  reachable (w, ps) → yields PositionalList.__iter__ L w xs →
  undone_by_delete L xs e (PositionalList.add_first L e w) ∧
  undone_by_delete L xs e (PositionalList.add_last L e w) ∧
  ∀ p a, p ∈ ps → PositionalList._validate L (VPos p) w = (w, inr a) →
    undone_by_delete L xs e (PositionalList.add_before L (VPos p) e w) ∧
    undone_by_delete L xs e (PositionalList.add_after L (VPos p) e w).
Proof.
  intros Hreach Hx. destruct (reachable_inv _ Hreach) as [σ [Hwf Hps]].
  simpl in Hwf, Hps. destruct (yields_list _ _ _ Hx) as [d Hc].
  pose proof (yields_positional_inv σ w L d xs Hwf Hc Hx) as ->.
  split_and!.
  - apply (insert_then_delete σ w L d e [] (σ L)); [done..| |].
    + by apply add_first_spec.
    + by apply (add_first_keeps σ w L d).
  - apply (insert_then_delete σ w L d e (σ L) []);
      [done|done|by rewrite app_nil_r| |].
    + by apply add_last_spec.
    + by apply (add_last_keeps σ w L d).
  - intros p a Hp Hval.
    destruct (valid_position_view w ps L p a Hreach Hp Hval)
      as (σ0 & d0 & l1 & l2 & Hwf0 & -> & Hc0 & Hσ0).
    pose proof (yields_positional_inv σ0 w L d0 _ Hwf0 Hc0 Hx) as Heq.
    rewrite Heq. split.
    + apply (insert_then_delete σ0 w L d0 e l1 (a :: l2)); [done..| |].
      * by apply add_before_spec.
      * by apply (add_before_keeps σ0 w L d0 l1 a l2).
    + apply (insert_then_delete σ0 w L d0 e (l1 ++ [a]) l2);
        [done|done|by rewrite <- app_assoc| |].
      * by apply add_after_spec.
      * by apply (add_after_keeps σ0 w L d0 l1 a l2).
Qed.
End RoundTrip.

(** * What an iteration yields, from one run of it *)

Section Runs.
Context {T : Type}.
Implicit Types (w : World T) (L : loc) (xs : list (option T)).

(** On a well-formed store one run with more fuel than [__len__] says
    settles what the iteration yields. *)
Lemma yields_positional_by_run w L n xs :
  wf w → _DoublyLinkedListBase.__len__ L w = (w, inr n) →
  PositionalList.__iter__ (S (Z.to_nat n)) L w = (w, inr (Some xs)) →
  yields PositionalList.__iter__ L w xs.
Proof.
  intros [σ Hwf] Hlen Hrun.
  unfold _DoublyLinkedListBase.__len__ in Hlen. unfold_m.
  destruct (lists w !! L) as [d|] eqn:Hc; [|done].
  injection Hlen as <-.
  pose proof (yields_positional σ w L d Hwf Hc) as Hy.
  pose proof (Hy (S (Z.to_nat (_size d)))) as Hy1.
  rewrite Hrun in Hy1.
  assert (xs = elt (nodes w) <$> σ L) as ->; [|done].
  assert (Some xs = Some (elt (nodes w) <$> σ L)) as [= ->]; [|done].
  assert (H : (w, inr (Some xs)) =
    ((w, inr (Some (elt (nodes w) <$> σ L)))
       : World T * (exn + option (list (option T))))); [|congruence].
  apply Hy1. rewrite length_fmap.
  rewrite (inv_size _ _ _ (wf_lists _ _ Hwf _ _ Hc)). lia.
Qed.

Lemma yields_base_by_run w L n xs :
  wf w → _DoublyLinkedListBase.__len__ L w = (w, inr n) →
  _DoublyLinkedListBase.__iter__ (S (Z.to_nat n)) L w =
    (w, inr (Some xs)) →
  yields _DoublyLinkedListBase.__iter__ L w xs.
Proof.
  intros [σ Hwf] Hlen Hrun.
  unfold _DoublyLinkedListBase.__len__ in Hlen. unfold_m.
  destruct (lists w !! L) as [d|] eqn:Hc; [|done].
  injection Hlen as <-.
  pose proof (yields_base σ w L d Hwf Hc) as Hy.
  pose proof (Hy (S (Z.to_nat (_size d)))) as Hy1.
  rewrite Hrun in Hy1.
  assert (xs = elt (nodes w) <$> σ L) as ->; [|done].
  assert (Some xs = Some (elt (nodes w) <$> σ L)) as [= ->]; [|done].
  assert (H : (w, inr (Some xs)) =
    ((w, inr (Some (elt (nodes w) <$> σ L)))
       : World T * (exn + option (list (option T))))); [|congruence].
  apply Hy1. rewrite length_fmap.
  rewrite (inv_size _ _ _ (wf_lists _ _ Hwf _ _ Hc)). lia.
Qed.
End Runs.

(** * The properties of the iteration, of the mutators and of the deque
      on the concrete stores *)

Section MoreConcrete.
Local Open Scope positive_scope.

Lemma demo_wf : wf demo_world.
Proof. exact (reachable_wf _ demo_reachable). Qed.

Lemma empty_list_wf : wf empty_list_world.
Proof. exact (reachable_wf _ empty_list_reachable). Qed.

Lemma deque_world_wf : wf deque_world.
Proof.
  unfold deque_world.
  apply deque_insert_wf, deque_insert_wf, empty_list_wf.
Qed.

Lemma demo_yields :
  yields PositionalList.__iter__ 1 demo_world [Some 10%Z; Some 20%Z].
Proof.
  apply (yields_positional_by_run demo_world 1 2%Z).
  - apply demo_wf.
  - vm_compute. reflexivity.
  - vm_compute. reflexivity.
Qed.

Lemma deque_yields :
  yields _DoublyLinkedListBase.__iter__ 1 deque_world
    [Some 10%Z; Some 20%Z].
Proof.
  apply (yields_base_by_run deque_world 1 2%Z).
  - apply deque_world_wf.
  - vm_compute. reflexivity.
  - vm_compute. reflexivity.
Qed.
End MoreConcrete.

Section MoreInstances.
Local Open Scope positive_scope.

(** X1 on the first list of [demo_world]. *)
Lemma positional_iter_agrees_with_base_witness :
  lists demo_world !! 1 = Some (MkList 1 2 2%Z) ∧
  ∃ xs, yields PositionalList.__iter__ 1 demo_world xs ∧
    yields _DoublyLinkedListBase.__iter__ 1 demo_world xs ∧
    _DoublyLinkedListBase.__len__ 1 demo_world =
      (demo_world, inr (Z.of_nat (length xs))).
Proof.
  assert (H : lists demo_world !! 1 = Some (MkList 1 2 2%Z))
    by (vm_compute; reflexivity).
  split; [exact H|].
  destruct (positional_iter_agrees_with_base demo_world demo_known 1 _
    demo_reachable H) as (xs & H1 & H2 & H3).
  exists xs. repeat split; assumption.
Defined.

(** X2: 5 is added in front of 10 and 20. *)
Lemma add_first_prepends_witness :
  ∃ w1 q,
    PositionalList.add_first 1 5%Z demo_world = (w1, inr (Some q)) ∧
    yields PositionalList.__iter__ 1 w1 [Some 5%Z; Some 10%Z; Some 20%Z] ∧
    PositionalList.first 1 w1 = (w1, inr (Some q)).
Proof.
  destruct (add_first_prepends demo_world demo_known 1
    [Some 10%Z; Some 20%Z] 5%Z demo_reachable demo_yields)
    as (w1 & q & H1 & H2 & H3 & _).
  exists w1, q. repeat split; assumption.
Defined.

(** X3: 5 is added behind 10 and 20. *)
Lemma add_last_appends_witness :
  ∃ w1 q,
    PositionalList.add_last 1 5%Z demo_world = (w1, inr (Some q)) ∧
    yields PositionalList.__iter__ 1 w1 [Some 10%Z; Some 20%Z; Some 5%Z] ∧
    PositionalList.last 1 w1 = (w1, inr (Some q)).
Proof.
  destruct (add_last_appends demo_world demo_known 1
    [Some 10%Z; Some 20%Z] 5%Z demo_reachable demo_yields)
    as (w1 & q & H1 & H2 & H3 & _).
  exists w1, q. repeat split; assumption.
Defined.

(** X4: 5 is added before [pos10]. *)
Lemma add_before_inserts_before_witness :
  pos10 ∈ demo_known ∧
  PositionalList._validate 1 (VPos pos10) demo_world = (demo_world, inr 5) ∧
  ∃ w1 q' xs1 x xs2,
    PositionalList.add_before 1 (VPos pos10) 5%Z demo_world =
      (w1, inr (Some q')) ∧
    [Some 10%Z; Some 20%Z] = (xs1 ++ x :: xs2)%list ∧
    yields PositionalList.__iter__ 1 w1 (xs1 ++ Some 5%Z :: x :: xs2)%list ∧
    PositionalList.after 1 (VPos q') w1 = (w1, inr (Some pos10)).
Proof.
  assert (H2 : pos10 ∈ demo_known) by (vm_compute; repeat constructor).
  assert (H3 : PositionalList._validate 1 (VPos pos10) demo_world =
                 (demo_world, inr 5)) by (vm_compute; reflexivity).
  split; [exact H2|]. split; [exact H3|].
  destruct (add_before_inserts_before demo_world demo_known 1 pos10 5
    [Some 10%Z; Some 20%Z] 5%Z demo_reachable H2 H3 demo_yields)
    as (w1 & q' & xs1 & x & xs2 & Ha & _ & Hx & Hy & _ & Hn & _).
  exists w1, q', xs1, x, xs2. repeat split; assumption.
Defined.

(** X5: 5 is added after [pos10]. *)
Lemma add_after_inserts_after_witness :
  pos10 ∈ demo_known ∧
  PositionalList._validate 1 (VPos pos10) demo_world = (demo_world, inr 5) ∧
  ∃ w1 q' xs1 x xs2,
    PositionalList.add_after 1 (VPos pos10) 5%Z demo_world =
      (w1, inr (Some q')) ∧
    [Some 10%Z; Some 20%Z] = (xs1 ++ x :: xs2)%list ∧
    yields PositionalList.__iter__ 1 w1 (xs1 ++ x :: Some 5%Z :: xs2)%list ∧
    PositionalList.before 1 (VPos q') w1 = (w1, inr (Some pos10)).
Proof.
  assert (H2 : pos10 ∈ demo_known) by (vm_compute; repeat constructor).
  assert (H3 : PositionalList._validate 1 (VPos pos10) demo_world =
                 (demo_world, inr 5)) by (vm_compute; reflexivity).
  split; [exact H2|]. split; [exact H3|].
  destruct (add_after_inserts_after demo_world demo_known 1 pos10 5
    [Some 10%Z; Some 20%Z] 5%Z demo_reachable H2 H3 demo_yields)
    as (w1 & q' & xs1 & x & xs2 & Ha & _ & Hx & Hy & _ & Hn & _).
  exists w1, q', xs1, x, xs2. repeat split; assumption.
Defined.

(** X6: [pos10] is deleted from the list of 10 and 20. *)
Lemma delete_removes_element_witness :
  pos10 ∈ demo_known ∧
  PositionalList._validate 1 (VPos pos10) demo_world = (demo_world, inr 5) ∧
  ∃ w1 xs1 x xs2,
    PositionalList.delete 1 (VPos pos10) demo_world = (w1, inr x) ∧
    PositionalList.element pos10 demo_world = (demo_world, inr x) ∧
    [Some 10%Z; Some 20%Z] = (xs1 ++ x :: xs2)%list ∧
    yields PositionalList.__iter__ 1 w1 (xs1 ++ xs2)%list.
Proof.
  assert (H2 : pos10 ∈ demo_known) by (vm_compute; repeat constructor).
  assert (H3 : PositionalList._validate 1 (VPos pos10) demo_world =
                 (demo_world, inr 5)) by (vm_compute; reflexivity).
  split; [exact H2|]. split; [exact H3|].
  destruct (delete_removes_element demo_world demo_known 1 pos10 5
    [Some 10%Z; Some 20%Z] demo_reachable H2 H3 demo_yields)
    as (w1 & xs1 & x & xs2 & ob & oa & Hd & He & Hx & Hy & _).
  exists w1, xs1, x, xs2. repeat split; assumption.
Defined.

(** X7 at [pos10], the first Position of its list. *)
Lemma before_after_inverse_witness :
  pos10 ∈ demo_known ∧
  PositionalList._validate 1 (VPos pos10) demo_world = (demo_world, inr 5) ∧
  (PositionalList.before 1 (VPos pos10) demo_world = (demo_world, inr None) ↔
   PositionalList.first 1 demo_world = (demo_world, inr (Some pos10))).
Proof.
  assert (H2 : pos10 ∈ demo_known) by (vm_compute; repeat constructor).
  assert (H3 : PositionalList._validate 1 (VPos pos10) demo_world =
                 (demo_world, inr 5)) by (vm_compute; reflexivity).
  split; [exact H2|]. split; [exact H3|].
  destruct (before_after_inverse demo_world demo_known 1 pos10 5
    demo_reachable H2 H3) as (_ & _ & H & _).
  exact H.
Defined.


(** X9: [pos10] stays valid when 30 is added in front of it. *)
Lemma position_survives_other_calls_witness :
  pos10 ∈ demo_known ∧
  PositionalList._validate 1 (VPos pos10) demo_world = (demo_world, inr 5) ∧
  PositionalList._validate 1 (VPos pos10)
    (exec (CAddFirst 1 30%Z) demo_world).1 =
    ((exec (CAddFirst 1 30%Z) demo_world).1, inr 5).
Proof.
  assert (H2 : pos10 ∈ demo_known) by (vm_compute; repeat constructor).
  assert (H3 : PositionalList._validate 1 (VPos pos10) demo_world =
                 (demo_world, inr 5)) by (vm_compute; reflexivity).
  split; [exact H2|]. split; [exact H3|].
  assert (H4 : args_known demo_known (CAddFirst 1 30%Z))
    by (vm_compute; tauto).
  assert (H5 : exec (CAddFirst 1 30%Z) demo_world =
    ((exec (CAddFirst 1 30%Z) demo_world).1,
     (exec (CAddFirst 1 30%Z) demo_world).2)) by (vm_compute; reflexivity).
  destruct (position_survives_other_calls demo_world demo_known 1 pos10 5
    (CAddFirst 1 30%Z) _ _ demo_reachable H2 H4 H3 H5) as [[Hk _]|[Hv _]].
  - discriminate Hk.
  - exact Hv.
Defined.

(** X10 on the deque of 10 and 20. *)
Lemma deque_methods_keep_invariant_witness :
  wf (Deque.insert_first 1 5%Z deque_world).1 ∧
  wf (Deque.delete_last 1 deque_world).1.
Proof.
  destruct (deque_methods_keep_invariant deque_world 1 5%Z deque_world_wf)
    as (_ & H1 & _ & _ & H2 & _).
  split; assumption.
Defined.

(** X11 on the empty deque. *)
Lemma deque_Empty_exactly_when_empty_witness :
  _DoublyLinkedListBase.is_empty 1 empty_list_world =
    (empty_list_world, inr true) ∧
  Deque.first 1 empty_list_world = (empty_list_world, inl Empty) ∧
  Deque.delete_last 1 empty_list_world = (empty_list_world, inl Empty).
Proof.
  assert (H : _DoublyLinkedListBase.is_empty 1 empty_list_world =
                (empty_list_world, inr true)) by (vm_compute; reflexivity).
  split; [exact H|].
  destruct (deque_Empty_exactly_when_empty empty_list_world 1 true
    empty_list_wf H) as (H1 & _ & _ & H4).
  split; assumption.
Defined.

(** X12: 5 is inserted in front of 10 and 20. *)
Lemma deque_insert_first_prepends_witness :
  ∃ w1, Deque.insert_first 1 5%Z deque_world = (w1, inr tt) ∧
    yields _DoublyLinkedListBase.__iter__ 1 w1
      [Some 5%Z; Some 10%Z; Some 20%Z] ∧
    Deque.first 1 w1 = (w1, inr (Some 5%Z)).
Proof.
  destruct (deque_insert_first_prepends deque_world 1
    [Some 10%Z; Some 20%Z] 5%Z deque_world_wf deque_yields)
    as (w1 & H1 & _ & H2 & H3 & _).
  exists w1. repeat split; assumption.
Defined.

(** X13: 5 is inserted behind 10 and 20. *)
Lemma deque_insert_last_appends_witness :
  ∃ w1, Deque.insert_last 1 5%Z deque_world = (w1, inr tt) ∧
    yields _DoublyLinkedListBase.__iter__ 1 w1
      [Some 10%Z; Some 20%Z; Some 5%Z] ∧
    Deque.last 1 w1 = (w1, inr (Some 5%Z)).
Proof.
  destruct (deque_insert_last_appends deque_world 1
    [Some 10%Z; Some 20%Z] 5%Z deque_world_wf deque_yields)
    as (w1 & H1 & _ & H2 & H3 & _).
  exists w1. repeat split; assumption.
Defined.

(** X14: 10 leaves the deque of 10 and 20 at the front. *)
Lemma deque_delete_first_pops_front_witness :
  Deque.first 1 deque_world = (deque_world, inr (Some 10%Z)) ∧
  ∃ w1, Deque.delete_first 1 deque_world = (w1, inr (Some 10%Z)) ∧
    yields _DoublyLinkedListBase.__iter__ 1 w1 [Some 20%Z].
Proof.
  destruct (deque_delete_first_pops_front deque_world 1 (Some 10%Z)
    [Some 20%Z] deque_world_wf deque_yields) as (H0 & w1 & H1 & _ & H2 & _).
  split; [exact H0|]. exists w1. split; assumption.
Defined.

(** X15: 20 leaves the deque of 10 and 20 at the back. *)
Lemma deque_delete_last_pops_back_witness :
  Deque.last 1 deque_world = (deque_world, inr (Some 20%Z)) ∧
  ∃ w1, Deque.delete_last 1 deque_world = (w1, inr (Some 20%Z)) ∧
    yields _DoublyLinkedListBase.__iter__ 1 w1 [Some 10%Z].
Proof.
  destruct (deque_delete_last_pops_back deque_world 1 [Some 10%Z]
    (Some 20%Z) deque_world_wf deque_yields) as (H0 & w1 & H1 & _ & H2 & _).
  split; [exact H0|]. exists w1. split; assumption.
Defined.

(** X16: 1, 2 and 3 are inserted behind 10 and 20; five deletions at the
    front return 10, 20, 1, 2, 3. *)
Lemma deque_first_in_first_out_witness :
  ∃ w1 w2, insert_all_last 1 [1; 2; 3]%Z deque_world = (w1, inr tt) ∧
    delete_first_n 1 5 w1 =
      (w2, inr [Some 10; Some 20; Some 1; Some 2; Some 3]%Z) ∧
    _DoublyLinkedListBase.is_empty 1 w2 = (w2, inr true).
Proof.
  destruct (deque_first_in_first_out deque_world 1 [Some 10%Z; Some 20%Z]
    [1; 2; 3]%Z deque_world_wf deque_yields)
    as ((w1 & w2 & H1 & _ & H2 & H3 & _) & _).
  exists w1, w2. repeat split; assumption.
Defined.

(** X17: 1, 2 and 3 are inserted in front of 10 and 20; three deletions
    at the front return 3, 2, 1 and leave 10 and 20. *)
Lemma deque_last_in_first_out_witness :
  ∃ w1 w2, insert_all_first 1 [1; 2; 3]%Z deque_world = (w1, inr tt) ∧
    delete_first_n 1 3 w1 = (w2, inr [Some 3; Some 2; Some 1]%Z) ∧
    yields _DoublyLinkedListBase.__iter__ 1 w2 [Some 10%Z; Some 20%Z].
Proof.
  destruct (deque_last_in_first_out deque_world 1 [Some 10%Z; Some 20%Z]
    [1; 2; 3]%Z deque_world_wf deque_yields)
    as ((w1 & w2 & H1 & H2 & H3 & _) & _).
  exists w1, w2. repeat split; assumption.
Defined.

(** X18: an insertion into the first list leaves the second list, which
    holds 7, alone. *)
Lemma calls_leave_other_lists_alone_witness :
  receiver (CAddFirst 1 30%Z) ≠ Some 2 ∧
  yields PositionalList.__iter__ 2
    (exec (CAddFirst 1 30%Z) demo_world).1 [Some 7%Z].
Proof.
  assert (H1 : receiver (CAddFirst 1 30%Z) ≠ Some 2)
    by (vm_compute; discriminate).
  split; [exact H1|].
  assert (H2 : args_known demo_known (CAddFirst 1 30%Z))
    by (vm_compute; tauto).
  assert (H3 : yields PositionalList.__iter__ 2 demo_world [Some 7%Z]).
  { apply (yields_positional_by_run demo_world 2 1%Z).
    - apply demo_wf.
    - vm_compute. reflexivity.
    - vm_compute. reflexivity. }
  assert (H4 : exec (CAddFirst 1 30%Z) demo_world =
    ((exec (CAddFirst 1 30%Z) demo_world).1,
     (exec (CAddFirst 1 30%Z) demo_world).2)) by (vm_compute; reflexivity).
  destruct (calls_leave_other_lists_alone demo_world demo_known 2
    [Some 7%Z] (CAddFirst 1 30%Z) _ _ demo_reachable H2 H1 H3 H4)
    as [Hy _].
  exact Hy.
Defined.

(** X19: 5 is added in front of 10 and 20 and deleted again. *)
Lemma delete_undoes_add_witness :
  undone_by_delete 1 [Some 10%Z; Some 20%Z] 5%Z
    (PositionalList.add_first 1 5%Z demo_world).
Proof.
  destruct (delete_undoes_add demo_world demo_known 1
    [Some 10%Z; Some 20%Z] 5%Z demo_reachable demo_yields) as [H _].
  exact H.
Defined.

(** X20: [pos10] and [pos7] are valid, in the first and in the second
    list. *)
Lemma position_eq_is_identity_witness :
  pos10 ∈ demo_known ∧ pos7 ∈ demo_known ∧
  PositionalList._validate 1 (VPos pos10) demo_world = (demo_world, inr 5) ∧
  PositionalList._validate 2 (VPos pos7) demo_world = (demo_world, inr 7) ∧
  (PositionalList.__eq__ pos10 pos7 = true ↔ pos10 = pos7).
Proof.
  assert (H1 : pos10 ∈ demo_known) by (vm_compute; repeat constructor).
  assert (H2 : pos7 ∈ demo_known) by (vm_compute; repeat constructor).
  assert (H3 : PositionalList._validate 1 (VPos pos10) demo_world =
                 (demo_world, inr 5)) by (vm_compute; reflexivity).
  assert (H4 : PositionalList._validate 2 (VPos pos7) demo_world =
                 (demo_world, inr 7)) by (vm_compute; reflexivity).
  repeat (split; [assumption|]).
  exact (position_eq_is_identity demo_world demo_known 1 2 pos10 pos7 5 7
    demo_reachable H1 H2 H3 H4).
Defined.
End MoreInstances.
